(** * Shared-buffer hashing pipeline: worker-reader.js / worker-hasher.js

    A shallow embedding of the two worker scripts that stream a file into a
    rolling hash through one [SharedArrayBuffer] slot and a two-word
    [Int32Array] control block ([flagView[0]] = status, [flagView[1]] =
    length), together with the exit handlers of the orchestrating function
    [testWorkerSharedHashPerformance].

    Every statement that touches shared memory (an [Atomics] call, the
    [dataView.set] copy, the [subarray]/[hashFn] read) is one step of the
    worker that executes it; the two workers are interleaved by an explicit
    schedule, and a wait that is blocked inside [Atomics.wait] is released
    either by the peer's [Atomics.notify] or by the expiry of its timeout. *)

From Stdlib Require Import ZArith List String Ascii Bool Lia.
From Stdlib.Strings Require Import Byte.
Import ListNotations.
Local Open Scope Z_scope.

Set Implicit Arguments.

(** ** Bytes and typed-array cells *)

Definition byte_val (b : byte) : Z := Z.of_N (Byte.to_N b).

(** The value an [Int32Array] cell holds after storing the number [z]
    (ToInt32: wrap modulo 2^32 into the signed range). *)
Definition to_int32 (z : Z) : Z :=
  let m := z mod 4294967296 in
  if m <? 2147483648 then m else m - 4294967296.

(** ** Hexadecimal rendering: [Number.prototype.toString(16)] and
    [BigInt.prototype.toString(16)] on integers *)

Definition hex_digit (d : Z) : ascii :=
  nth (Z.to_nat d)
      ["0"; "1"; "2"; "3"; "4"; "5"; "6"; "7"; "8"; "9";
       "a"; "b"; "c"; "d"; "e"; "f"]%char "0"%char.

Fixpoint hex_digits (fuel : nat) (n : Z) (acc : string) : string :=
  match fuel with
  | O => acc
  | S fuel' =>
      let acc' := String (hex_digit (n mod 16)) acc in
      if n / 16 =? 0 then acc' else hex_digits fuel' (n / 16) acc'
  end.

Definition hex_of_nonneg (n : Z) : string :=
  hex_digits (S (Z.to_nat (Z.log2 n))) n EmptyString.

(** [x.toString(16)]: a minus sign followed by the magnitude when [x] is
    negative, the digits of [x] without leading zeros otherwise. *)
Definition toString16 (x : Z) : string :=
  if x <? 0 then String "-"%char (hex_of_nonneg (- x)) else hex_of_nonneg x.

Definition is_lower_hex (c : ascii) : bool :=
  let n := Z.of_N (N_of_ascii c) in
  ((48 <=? n) && (n <=? 57)) || ((97 <=? n) && (n <=? 102)).

Fixpoint all_lower_hex (s : string) : bool :=
  match s with
  | EmptyString => true
  | String c s' => is_lower_hex c && all_lower_hex s'
  end.

Definition hex_value (c : ascii) : Z :=
  let n := Z.of_N (N_of_ascii c) in
  if n <=? 57 then n - 48 else n - 87.

(** Reading a hexadecimal numeral back, most significant digit first. *)
Fixpoint parse_hex_from (acc : Z) (s : string) : Z :=
  match s with
  | EmptyString => acc
  | String c s' => parse_hex_from (16 * acc + hex_value c) s'
  end.

Definition parse_hex (s : string) : Z := parse_hex_from 0 s.

(** ** The external hash libraries

    [@node-rs/crc32]'s [crc32c(input, initialState)] is the CRC-32C
    (Castagnoli) checksum continued from a previous value; it is given here
    by its bitwise definition over the reflected polynomial. *)

Definition crc32c_poly : Z := 0x82F63B78.
Definition mask32 : Z := 0xFFFFFFFF.

Definition crc_shift (c : Z) : Z :=
  if Z.testbit c 0 then Z.lxor (Z.shiftr c 1) crc32c_poly else Z.shiftr c 1.

Definition crc_byte (c : Z) (b : byte) : Z :=
  Nat.iter 8 crc_shift (Z.lxor c (byte_val b)).

Definition crc32c (input : list byte) (initialState : Z) : Z :=
  Z.lxor (fold_left crc_byte input (Z.lxor initialState mask32)) mask32.

(** The streaming hashers of Node's [crypto] and of [@node-rs/xxhash] are
    used through [update]/[digest] only.  Such an object is determined by the
    bytes it has absorbed so far, and its digest is a function of those
    bytes; the three functions are the libraries', and what the pipeline
    relies on is recorded with them: [digest('hex')] of SHA-256 is 64
    lowercase hexadecimal characters, and the xxHash digests are [BigInt]s
    holding unsigned 64-bit values. *)
Record HashLibs : Type := {
  sha256_hex : list byte -> string;
  xxh64_digest : list byte -> Z;
  xxh3_digest : list byte -> Z;
  sha256_hex_length : forall m, String.length (sha256_hex m) = 64%nat;
  sha256_hex_lower : forall m, all_lower_hex (sha256_hex m) = true;
  xxh64_digest_range : forall m, 0 <= xxh64_digest m < 2 ^ 64;
  xxh3_digest_range : forall m, 0 <= xxh3_digest m < 2 ^ 64
}.

Definition in_u32 (x : Z) : Prop := 0 <= x < 2 ^ 32.

(** ** The hash adapter of worker-hasher.js, lines 12-48 *)

Inductive algorithm := Sha256 | Crc32c | Xxh64 | Xxh3_64.

(** The [if / else if] chain on [algo]; [None] is the final [else]. *)
Definition select_algorithm (algo : string) : option algorithm :=
  if String.eqb algo "sha256" then Some Sha256
  else if String.eqb algo "crc32c" then Some Crc32c
  else if String.eqb algo "xxh64" then Some Xxh64
  else if String.eqb algo "xxh3-64" then Some Xxh3_64
  else None.

Definition algorithm_name (a : algorithm) : string :=
  match a with
  | Sha256 => "sha256"
  | Crc32c => "crc32c"
  | Xxh64 => "xxh64"
  | Xxh3_64 => "xxh3-64"
  end.

(** The state captured by the closures [hashFn] and [finalDigest]. *)
Inductive adapter :=
| ASha (absorbed : list byte)       (* hash = crypto.createHash('sha256') *)
| ACrc (crc : Z)                    (* let crc = 0 *)
| AXxh64 (absorbed : list byte)     (* hasher = new Xxh64() *)
| AXxh3 (absorbed : list byte).     (* hasher = xxh3.Xxh3.withSeed() *)

Definition new_adapter (a : algorithm) : adapter :=
  match a with
  | Sha256 => ASha []
  | Crc32c => ACrc 0
  | Xxh64 => AXxh64 []
  | Xxh3_64 => AXxh3 []
  end.

Definition hashFn (a : adapter) (chunk : list byte) : adapter :=
  match a with
  | ASha m => ASha (m ++ chunk)
  | ACrc crc => ACrc (crc32c chunk crc)
  | AXxh64 m => AXxh64 (m ++ chunk)
  | AXxh3 m => AXxh3 (m ++ chunk)
  end.

(** [finalDigest()]: the [typeof] tests always take their first branch, the
    CRC being a number and the xxHash digests being BigInts. *)
Definition finalDigest (L : HashLibs) (a : adapter) : string :=
  match a with
  | ASha m => sha256_hex L m
  | ACrc crc => toString16 crc
  | AXxh64 m => toString16 (xxh64_digest L m)
  | AXxh3 m => toString16 (xxh3_digest L m)
  end.

(** The digest of [input] fed to the algorithm in one [update] call. *)
Definition one_shot (L : HashLibs) (a : algorithm) (input : list byte) : string :=
  finalDigest L (hashFn (new_adapter a) input).

(** The digest each algorithm defines for the empty input, as text: what
    the library returns for no bytes, SHA-256 as the 64 characters of
    [digest('hex')], the CRC-32C value 0 and the xxHash values as
    hexadecimal numerals. *)
Definition defined_empty_digest (L : HashLibs) (a : algorithm) : string :=
  match a with
  | Sha256 => sha256_hex L []
  | Crc32c => "0"
  | Xxh64 => toString16 (xxh64_digest L [])
  | Xxh3_64 => toString16 (xxh3_digest L [])
  end.

(** The numeric value behind a digest (none for SHA-256, which the library
    hands over as text). *)
Definition digest_number (L : HashLibs) (a : adapter) : option Z :=
  match a with
  | ASha _ => None
  | ACrc crc => Some crc
  | AXxh64 m => Some (xxh64_digest L m)
  | AXxh3 m => Some (xxh3_digest L m)
  end.

Definition digest_width (a : adapter) : nat :=
  match a with
  | ASha _ => 64
  | ACrc _ => 8
  | AXxh64 _ | AXxh3 _ => 16
  end.

(** ** Shared memory

    [status] is [flagView[0]], [len] is [flagView[1]] and [dataView] is the
    byte view of the shared buffer, whose size never changes. *)

Record shared := {
  status : Z;
  len : Z;
  dataView : list byte
}.

(** The status values stored are the literals 0, 1 and 2, which an Int32
    cell holds as they are. *)
Definition set_status (v : Z) (m : shared) : shared :=
  {| status := v; len := len m; dataView := dataView m |}.

Definition set_len (v : Z) (m : shared) : shared :=
  {| status := status m; len := to_int32 v; dataView := dataView m |}.

(** [dataView.set(chunk)] for a chunk that fits: the first bytes are
    replaced, the tail of the buffer keeps what it held. *)
Definition set_data (chunk : list byte) (m : shared) : shared :=
  {| status := status m; len := len m;
     dataView := chunk ++ skipn (List.length chunk) (dataView m) |}.

(** ** What a run leaves behind *)

Inductive agent := Reader | Hasher.

Inductive error :=
| HasherSignaledEofPrematurely      (* worker-reader.js line 37 *)
| ReaderTimeout                     (* worker-reader.js line 43 *)
| StreamError                       (* the read stream rejects *)
| SetRangeError                     (* dataView.set: chunk larger than the view *)
| UnknownAlgorithm (algo : string)  (* worker-hasher.js line 47 *)
| NoAdapter.

(** Why the end-of-stream store of worker-reader.js line 68 is reached. *)
Inductive eof_cause :=
| ObservedReady                        (* the loop test loaded 0 *)
| ForcedAfterTimeout (waitCount : Z)   (* the [break] of line 63 *)
| WaitBudgetSpent (waitCount : Z).     (* the loop test failed on waitCount *)

Inductive store_site :=
| InitReady                (* worker-hasher.js line 51 *)
| ConsumedReady            (* worker-hasher.js line 98 *)
| Publish                  (* worker-reader.js line 51 *)
| EndOfStream (c : eof_cause)   (* worker-reader.js line 68 *)
| OnError.                 (* worker-reader.js line 75 *)

Inductive event :=
| EvStoreStatus (who : agent) (site : store_site) (old new : Z)
| EvStoreLength (old new : Z)
| EvCopy (chunk : list byte)          (* dataView.set(chunk) *)
| EvUpdate (chunk : list byte)        (* hashFn(chunk) *)
| EvNotify (who : agent)
| EvTimedOut (who : agent) (ms : Z)   (* a wait that expired after ms *)
| EvThrow (who : agent) (e : error)
| EvForcingEof                        (* the console.warn of line 62 *)
| EvDigest (text : string)            (* the console.log of line 104 *)
| EvExit (who : agent) (code : Z).

(** The result of one statement: the memory, the worker's own state, the
    events (latest first) and whether [Atomics.notify] was called. *)
Record outcome (A : Type) := {
  o_mem : shared;
  o_self : A;
  o_events : list event;
  o_notify : bool
}.

Definition MAX_ITERATIONS : Z := 1000000.

(** ** worker-reader.js *)

(** What the [for await] obtains from the stream. *)
Inductive read := Data (chunk : list byte) | ReadFailure.

Inductive rpc :=
| RNext                                          (* line 20 *)
| RLoopCond (chunk : list byte) (waitCount : Z)  (* line 29 *)
| RWaitLoad (chunk : list byte) (waitCount : Z)  (* line 31, inner load *)
| RWait (chunk : list byte) (waitCount expected : Z)  (* line 31, the wait *)
| RSleep (chunk : list byte) (waitCount : Z)     (* blocked in the wait *)
| RTimedOut (chunk : list byte) (waitCount : Z)  (* line 34 *)
| RCopy (chunk : list byte)                      (* line 47 *)
| RStoreLen (chunk : list byte)                  (* line 50 *)
| RStoreStatus                                   (* line 51 *)
| RNotify                                        (* line 52 *)
| REofCond (waitCount : Z)                       (* line 58 *)
| REofWaitLoad (waitCount : Z)                   (* line 60, inner load *)
| REofWait (waitCount expected : Z)              (* line 60, the wait *)
| REofSleep (waitCount : Z)                      (* blocked in the wait *)
| REofStore (c : eof_cause)                      (* line 68 *)
| REofNotify                                     (* line 69 *)
| RCatch                                         (* line 75 *)
| RCatchNotify                                   (* line 76 *)
| RExit                                          (* line 82 *)
| RDone (code : Z).

Record reader := {
  r_pc : rpc;
  r_stream : list read;
  r_iterations : Z
}.

Definition r_goto (m : shared) (r : reader) (pc : rpc) (evs : list event)
  : outcome reader :=
  {| o_mem := m;
     o_self := {| r_pc := pc; r_stream := r_stream r;
                  r_iterations := r_iterations r |};
     o_events := evs; o_notify := false |}.

Definition r_throw (m : shared) (r : reader) (e : error) : outcome reader :=
  r_goto m r RCatch [EvThrow Reader e].

Definition r_notify (m : shared) (r : reader) (pc : rpc) : outcome reader :=
  {| o_mem := m;
     o_self := {| r_pc := pc; r_stream := r_stream r;
                  r_iterations := r_iterations r |};
     o_events := [EvNotify Reader]; o_notify := true |}.

(** One statement of the reader that is not blocked in a wait. *)
Definition reader_run (m : shared) (r : reader) : outcome reader :=
  match r_pc r with
  | RNext =>
      match r_stream r with
      | [] => r_goto m r (REofCond 0) []
      | ReadFailure :: rest =>
          {| o_mem := m;
             o_self := {| r_pc := RCatch; r_stream := rest;
                          r_iterations := r_iterations r |};
             o_events := [EvThrow Reader StreamError]; o_notify := false |}
      | Data chunk :: rest =>
          let iterations := r_iterations r + 1 in
          {| o_mem := m;
             o_self := {| r_pc := if iterations >? MAX_ITERATIONS
                                  then REofCond 0
                                  else RLoopCond chunk 0;
                          r_stream := rest;
                          r_iterations := iterations |};
             o_events := []; o_notify := false |}
      end
  | RLoopCond chunk waitCount =>
      if negb (status m =? 0) && (waitCount <? 1000)
      then r_goto m r (RWaitLoad chunk (waitCount + 1)) []
      else if waitCount >=? 1000
           then r_throw m r ReaderTimeout
           else r_goto m r (RCopy chunk) []
  | RWaitLoad chunk waitCount =>
      r_goto m r (RWait chunk waitCount (status m)) []
  | RWait chunk waitCount expected =>
      if status m =? expected
      then r_goto m r (RSleep chunk waitCount) []
      else r_goto m r (RLoopCond chunk waitCount) []
  | RSleep _ _ => r_goto m r (r_pc r) []
  | RTimedOut chunk waitCount =>
      if status m =? 2
      then r_throw m r HasherSignaledEofPrematurely
      else r_goto m r (RLoopCond chunk waitCount) []
  | RCopy chunk =>
      if (List.length (dataView m) <? List.length chunk)%nat
      then r_throw m r SetRangeError
      else r_goto (set_data chunk m) r (RStoreLen chunk) [EvCopy chunk]
  | RStoreLen chunk =>
      let n := Z.of_nat (List.length chunk) in
      r_goto (set_len n m) r RStoreStatus [EvStoreLength (len m) (to_int32 n)]
  | RStoreStatus =>
      r_goto (set_status 1 m) r RNotify
             [EvStoreStatus Reader Publish (status m) 1]
  | RNotify => r_notify m r RNext
  | REofCond waitCount =>
      if negb (status m =? 0) && (waitCount <? 1000)
      then r_goto m r (REofWaitLoad (waitCount + 1)) []
      else r_goto m r
             (REofStore (if status m =? 0 then ObservedReady
                         else WaitBudgetSpent waitCount)) []
  | REofWaitLoad waitCount =>
      r_goto m r (REofWait waitCount (status m)) []
  | REofWait waitCount expected =>
      if status m =? expected
      then r_goto m r (REofSleep waitCount) []
      else r_goto m r (REofCond waitCount) []
  | REofSleep _ => r_goto m r (r_pc r) []
  | REofStore c =>
      r_goto (set_status 2 m) r REofNotify
             [EvStoreStatus Reader (EndOfStream c) (status m) 2]
  | REofNotify => r_notify m r RExit
  | RCatch =>
      r_goto (set_status 2 m) r RCatchNotify
             [EvStoreStatus Reader OnError (status m) 2]
  | RCatchNotify => r_notify m r RExit
  | RExit => r_goto m r (RDone 0) [EvExit Reader 0]
  | RDone _ => r_goto m r (r_pc r) []
  end.

(** The 100 ms timeout of a blocked wait expires ('timed-out'). *)
Definition reader_expire (m : shared) (r : reader) : outcome reader :=
  match r_pc r with
  | RSleep chunk waitCount =>
      r_goto m r (RTimedOut chunk waitCount) [EvTimedOut Reader 100]
  | REofSleep waitCount =>
      if waitCount >? 10
      then r_goto m r (REofStore (ForcedAfterTimeout waitCount))
                  [EvForcingEof; EvTimedOut Reader 100]
      else r_goto m r (REofCond waitCount) [EvTimedOut Reader 100]
  | _ => r_goto m r (r_pc r) []
  end.

(** The peer's notify releases a blocked wait ('ok'). *)
Definition reader_wake (r : reader) : reader :=
  match r_pc r with
  | RSleep chunk waitCount =>
      {| r_pc := RLoopCond chunk waitCount; r_stream := r_stream r;
         r_iterations := r_iterations r |}
  | REofSleep waitCount =>
      {| r_pc := REofCond waitCount; r_stream := r_stream r;
         r_iterations := r_iterations r |}
  | _ => r
  end.

(** ** worker-hasher.js *)

Inductive hpc :=
| HStart          (* lines 15-48, the dispatch on algo *)
| HInitStore      (* line 51 *)
| HInitNotify     (* line 52 *)
| HLoopTop        (* line 57 *)
| HWaitCond       (* line 64 *)
| HWait           (* line 65 *)
| HSleep          (* blocked in the wait *)
| HTimedOut       (* line 68 *)
| HLoadStatus     (* line 81 *)
| HLoadLen        (* line 90 *)
| HRead (l : Z)   (* lines 92-95 *)
| HStoreReady     (* line 98 *)
| HNotify         (* line 99 *)
| HFinal          (* line 104 *)
| HDone (code : Z).

Record hasher := {
  h_pc : hpc;
  h_algo : string;
  h_adapter : option adapter;
  h_iterations : Z
}.

Definition h_goto (m : shared) (h : hasher) (pc : hpc) (evs : list event)
  : outcome hasher :=
  {| o_mem := m;
     o_self := {| h_pc := pc; h_algo := h_algo h; h_adapter := h_adapter h;
                  h_iterations := h_iterations h |};
     o_events := evs; o_notify := false |}.

Definition h_notify (m : shared) (h : hasher) (pc : hpc) : outcome hasher :=
  {| o_mem := m;
     o_self := {| h_pc := pc; h_algo := h_algo h; h_adapter := h_adapter h;
                  h_iterations := h_iterations h |};
     o_events := [EvNotify Hasher]; o_notify := true |}.

(** An exception nobody catches ends the worker with exit code 1. *)
Definition h_uncaught (m : shared) (h : hasher) (e : error) : outcome hasher :=
  h_goto m h (HDone 1) [EvExit Hasher 1; EvThrow Hasher e].

(** One statement of the hasher that is not blocked in a wait. *)
Definition hasher_run (L : HashLibs) (m : shared) (h : hasher)
  : outcome hasher :=
  match h_pc h with
  | HStart =>
      match select_algorithm (h_algo h) with
      | Some a =>
          {| o_mem := m;
             o_self := {| h_pc := HInitStore; h_algo := h_algo h;
                          h_adapter := Some (new_adapter a);
                          h_iterations := h_iterations h |};
             o_events := []; o_notify := false |}
      | None => h_uncaught m h (UnknownAlgorithm (h_algo h))
      end
  | HInitStore =>
      h_goto (set_status 0 m) h HInitNotify
             [EvStoreStatus Hasher InitReady (status m) 0]
  | HInitNotify => h_notify m h HLoopTop
  | HLoopTop =>
      if h_iterations h <? MAX_ITERATIONS
      then {| o_mem := m;
              o_self := {| h_pc := HWaitCond; h_algo := h_algo h;
                           h_adapter := h_adapter h;
                           h_iterations := h_iterations h + 1 |};
              o_events := []; o_notify := false |}
      else h_goto m h HFinal []
  | HWaitCond =>
      if status m =? 0
      then h_goto m h HWait []
      else h_goto m h HLoadStatus []
  | HWait =>
      if status m =? 0
      then h_goto m h HSleep []
      else h_goto m h HWaitCond []
  | HSleep => h_goto m h (h_pc h) []
  | HTimedOut =>
      if status m =? 2
      then h_goto m h HLoadStatus []
      else if h_iterations h >? 100
           then h_goto m h (HDone 1) [EvExit Hasher 1]
           else h_goto m h HWaitCond []
  | HLoadStatus =>
      if status m =? 2 then h_goto m h HFinal []
      else if status m =? 1 then h_goto m h HLoadLen []
      else h_goto m h HLoopTop []
  | HLoadLen => h_goto m h (HRead (len m)) []
  | HRead l =>
      if l >? 0
      then let chunk := firstn (Z.to_nat l) (dataView m) in
           match h_adapter h with
           | Some a =>
               {| o_mem := m;
                  o_self := {| h_pc := HStoreReady; h_algo := h_algo h;
                               h_adapter := Some (hashFn a chunk);
                               h_iterations := h_iterations h |};
                  o_events := [EvUpdate chunk]; o_notify := false |}
           | None => h_uncaught m h NoAdapter
           end
      else h_goto m h HStoreReady []
  | HStoreReady =>
      h_goto (set_status 0 m) h HNotify
             [EvStoreStatus Hasher ConsumedReady (status m) 0]
  | HNotify => h_notify m h HLoopTop
  | HFinal =>
      match h_adapter h with
      | Some a =>
          h_goto m h (HDone 0) [EvExit Hasher 0; EvDigest (finalDigest L a)]
      | None => h_goto m h (HDone 1) [EvExit Hasher 1]
      end
  | HDone _ => h_goto m h (h_pc h) []
  end.

(** The 1 s timeout of the blocked wait expires ('timed-out'). *)
Definition hasher_expire (m : shared) (h : hasher) : outcome hasher :=
  match h_pc h with
  | HSleep => h_goto m h HTimedOut [EvTimedOut Hasher 1000]
  | _ => h_goto m h (h_pc h) []
  end.

Definition hasher_wake (h : hasher) : hasher :=
  match h_pc h with
  | HSleep =>
      {| h_pc := HWaitCond; h_algo := h_algo h; h_adapter := h_adapter h;
         h_iterations := h_iterations h |}
  | _ => h
  end.

(** ** The two workers over the shared memory *)

Record state := {
  mem : shared;
  rd : reader;
  hs : hasher;
  trace : list event     (* latest event first *)
}.

(** What the scheduler may do next: let a worker execute its next
    statement, or let the timeout of the wait it is blocked in expire. *)
Inductive choice := Run (a : agent) | Expire (a : agent).

Definition reader_moves (o : outcome reader) (s : state) : state :=
  {| mem := o_mem o;
     rd := o_self o;
     hs := if o_notify o then hasher_wake (hs s) else hs s;
     trace := o_events o ++ trace s |}.

Definition hasher_moves (o : outcome hasher) (s : state) : state :=
  {| mem := o_mem o;
     rd := if o_notify o then reader_wake (rd s) else rd s;
     hs := o_self o;
     trace := o_events o ++ trace s |}.

Definition step (L : HashLibs) (c : choice) (s : state) : state :=
  match c with
  | Run Reader => reader_moves (reader_run (mem s) (rd s)) s
  | Expire Reader => reader_moves (reader_expire (mem s) (rd s)) s
  | Run Hasher => hasher_moves (hasher_run L (mem s) (hs s)) s
  | Expire Hasher => hasher_moves (hasher_expire (mem s) (hs s)) s
  end.

Definition run (L : HashLibs) (sched : list choice) (s : state) : state :=
  fold_left (fun s c => step L c s) sched s.

(** The events a step, resp. a schedule, adds to the trace. *)
Definition new_events (L : HashLibs) (c : choice) (s : state) : list event :=
  match c with
  | Run Reader => o_events (reader_run (mem s) (rd s))
  | Expire Reader => o_events (reader_expire (mem s) (rd s))
  | Run Hasher => o_events (hasher_run L (mem s) (hs s))
  | Expire Hasher => o_events (hasher_expire (mem s) (hs s))
  end.

Fixpoint run_events (L : HashLibs) (sched : list choice) (s : state)
  : list event :=
  match sched with
  | [] => []
  | c :: sched' => run_events L sched' (step L c s) ++ new_events L c s
  end.

(** The state the orchestrator sets up (part of
    [testWorkerSharedHashPerformance]): a zeroed buffer of [capacity] bytes,
    status 0 and length 0, and the two workers about to run their scripts. *)
Definition initial (capacity : nat) (stream : list read) (algo : string)
  : state :=
  {| mem := {| status := 0; len := 0; dataView := repeat x00 capacity |};
     rd := {| r_pc := RNext; r_stream := stream; r_iterations := 0 |};
     hs := {| h_pc := HStart; h_algo := algo; h_adapter := None;
              h_iterations := 0 |};
     trace := [] |}.

(** The chunks a read stream with [highWaterMark = chunkSize] delivers for a
    file holding [input]: full chunks, then the rest. *)
Fixpoint chunks_of_fuel (fuel chunkSize : nat) (input : list byte)
  : list (list byte) :=
  match fuel with
  | O => []
  | S fuel' =>
      match input with
      | [] => []
      | _ => firstn chunkSize input
             :: chunks_of_fuel fuel' chunkSize (skipn chunkSize input)
      end
  end.

Definition chunks_of (chunkSize : nat) (input : list byte) : list (list byte) :=
  chunks_of_fuel (List.length input) chunkSize input.

Definition file_stream (chunkSize : nat) (input : list byte) : list read :=
  map Data (chunks_of chunkSize input).

(** The pipeline as the orchestrator starts it: buffer and highWaterMark of
    the same size. *)
Definition pipeline (chunkSize : nat) (input : list byte) (algo : string)
  : state :=
  initial chunkSize (file_stream chunkSize input) algo.

(** The exit handlers of the orchestrator (both have the same body). *)
Inductive settled := Resolved | Rejected (code : Z).

Definition on_exit (code : Z) : settled :=
  if code =? 0 then Resolved else Rejected code.

(** ** Reading a trace *)

Definition digests (t : list event) : list string :=
  flat_map (fun e => match e with EvDigest d => [d] | _ => [] end) t.

Definition updates (t : list event) : list (list byte) :=
  flat_map (fun e => match e with EvUpdate c => [c] | _ => [] end) t.

Definition is_status_store (new : Z) (e : event) : bool :=
  match e with
  | EvStoreStatus _ _ _ v => v =? new
  | _ => false
  end.

Definition count_status_stores (new : Z) (t : list event) : nat :=
  List.length (filter (is_status_store new) t).

Definition is_timed_out (a : agent) (e : event) : bool :=
  match e, a with
  | EvTimedOut Reader _, Reader => true
  | EvTimedOut Hasher _, Hasher => true
  | _, _ => false
  end.

(** Number of wait slices of [a] that expired, and the time they took. *)
Definition slices (a : agent) (t : list event) : nat :=
  List.length (filter (is_timed_out a) t).


(** Stand-ins for the three library functions, for running the model on
    concrete inputs; every statement below is proved for all [HashLibs]. *)
Definition sample_libs : HashLibs :=
  {| sha256_hex := fun _ =>
       "0000000000000000000000000000000000000000000000000000000000000000"%string;
     xxh64_digest := fun m => Z.of_nat (List.length m) mod 2 ^ 64;
     xxh3_digest := fun m => (Z.of_nat (List.length m) + 1) mod 2 ^ 64;
     sha256_hex_length := fun _ => eq_refl;
     sha256_hex_lower := fun _ => eq_refl;
     xxh64_digest_range := fun m =>
       Z.mod_pos_bound (Z.of_nat (List.length m)) (2 ^ 64) eq_refl;
     xxh3_digest_range := fun m =>
       Z.mod_pos_bound (Z.of_nat (List.length m) + 1) (2 ^ 64) eq_refl |}.

(** The adapter after a sequence of [hashFn] calls. *)
Definition feed (a : adapter) (chunks : list (list byte)) : adapter :=
  fold_left hashFn chunks a.

Definition adapter_ok (a : adapter) : Prop :=
  match a with
  | ACrc crc => in_u32 crc
  | _ => True
  end.

(** How a reported digest reads: lowercase hexadecimal digits only (so no
    sign), at most the width of the algorithm, no leading zero, and the
    numeral of the library's value. *)
Definition rendered (L : HashLibs) (a : adapter) (d : string) : Prop :=
  all_lower_hex d = true
  /\ (1 <= String.length d <= digest_width a)%nat
  /\ match digest_number L a with
     | None => String.length d = 64%nat
     | Some v =>
         0 <= v < 16 ^ Z.of_nat (digest_width a)
         /\ parse_hex d = v
         /\ (0 < v -> 16 ^ Z.of_nat (String.length d - 1) <= v)
     end.

Definition R : choice := Run Reader.
Definition H : choice := Run Hasher.

(** The schedule in which nobody waits: the hasher starts up, then for each
    chunk the reader publishes it and the hasher consumes it, and at the end
    of the stream the reader signals EOF and the hasher reports. *)
Definition startup : list choice := [H; H; H].
Definition handoff : list choice := [R; R; R; R; R; R; H; H; H; H; H; H; H].
Definition finish : list choice := [R; R; R; R; R; H; H; H; H].

(** On an empty file the reader is done before the hasher starts: it
    finds the stream exhausted and the status 0, stores EOF, notifies and
    exits; then the hasher runs its start-up. *)
Definition reader_first_on_empty : list choice := [R; R; R; R; R] ++ startup.

Fixpoint handoffs (n : nat) : list choice :=
  match n with
  | O => []
  | S n' => handoff ++ handoffs n'
  end.

Definition in_turn (chunks : nat) : list choice :=
  startup ++ handoffs chunks ++ finish.

(** The reader is scheduled first: it publishes the first chunk before the
    hasher has executed its start-up store of line 51; from then on the
    workers take turns over the [n] chunks that are left. *)
Definition first_chunk_before_startup (n : nat) : list choice :=
  [R; R; R; R; R; R] ++ startup ++ handoffs n ++ finish.

(** A state with an older history [t] below its trace. *)
Definition add_trace (t : list event) (s : state) : state :=
  {| mem := mem s; rd := rd s; hs := hs s; trace := trace s ++ t |}.

(** The adapter always is what the [hashFn] calls made so far built, and a
    digest is reported only by the final statement of the hasher. *)
Definition adapter_tracks (L : HashLibs) (s : state) : Prop :=
  match h_adapter (hs s) with
  | None => updates (trace s) = []
  | Some a =>
      exists alg, select_algorithm (h_algo (hs s)) = Some alg
                  /\ a = feed (new_adapter alg) (rev (updates (trace s)))
  end
  /\ match h_pc (hs s) with
     | HDone _ =>
         forall d, In d (digests (trace s)) ->
                   exists a, h_adapter (hs s) = Some a /\ d = finalDigest L a
     | HStart => h_adapter (hs s) = None /\ digests (trace s) = []
     | _ => digests (trace s) = []
     end.

(** ** A bound on the statements the reader still has to execute *)

Definition budget_left (waitCount : Z) : nat := Z.to_nat (1000 - waitCount).

Definition stream_fuel (stream : list read) : nat :=
  (List.length stream * (5 * 1000 + 6) + (4 * 1000 + 6))%nat.

Definition reader_fuel (r : reader) : nat :=
  match r_pc r with
  | RNext => stream_fuel (r_stream r)
  | RLoopCond _ w => stream_fuel (r_stream r) + 5 * budget_left w + 5
  | RWaitLoad _ w => stream_fuel (r_stream r) + 5 * budget_left w + 9
  | RWait _ w _ => stream_fuel (r_stream r) + 5 * budget_left w + 8
  | RSleep _ w => stream_fuel (r_stream r) + 5 * budget_left w + 7
  | RTimedOut _ w => stream_fuel (r_stream r) + 5 * budget_left w + 6
  | RCopy _ => stream_fuel (r_stream r) + 4
  | RStoreLen _ => stream_fuel (r_stream r) + 3
  | RStoreStatus => stream_fuel (r_stream r) + 2
  | RNotify => stream_fuel (r_stream r) + 1
  | REofCond w => 4 * budget_left w + 4
  | REofWaitLoad w => 4 * budget_left w + 7
  | REofWait w _ => 4 * budget_left w + 6
  | REofSleep w => 4 * budget_left w + 5
  | REofStore _ => 3
  | RCatch => 3
  | REofNotify => 2
  | RCatchNotify => 2
  | RExit => 1
  | RDone _ => 0
  end%nat.

(** The reader left to itself: it executes its next statement, and a wait
    it blocks in runs into its timeout. *)
Fixpoint reader_alone (n : nat) : list choice :=
  match n with
  | O => []
  | S n' => Run Reader :: Expire Reader :: reader_alone n'
  end.

(** Every [exit] the reader has logged, and its final state, carry code 0. *)
Definition reader_exits_zero (s : state) : Prop :=
  (forall code, r_pc (rd s) = RDone code -> code = 0)
  /\ (forall code, In (EvExit Reader code) (trace s) -> code = 0).

(** The reader is blocked inside [Atomics.wait], resp. has exited. *)
Definition blocked (pc : rpc) : bool :=
  match pc with
  | RSleep _ _ | REofSleep _ => true
  | _ => false
  end.

Definition finished (pc : rpc) : bool :=
  match pc with
  | RDone _ => true
  | _ => false
  end.

Definition reader_choice (c : choice) : Prop :=
  c = Run Reader \/ c = Expire Reader.

Definition hasher_choice (c : choice) : Prop :=
  c = Run Hasher \/ c = Expire Hasher.





(** The hasher started on a status that stays 0: it is in its start-up or in
    the wait of its first loop iteration, and has reported nothing. *)
Definition first_wait (s : state) : Prop :=
  status (mem s) = 0
  /\ digests (trace s) = []
  /\ select_algorithm (h_algo (hs s)) <> None
  /\ match h_pc (hs s) with
     | HStart | HInitStore | HInitNotify | HLoopTop => h_iterations (hs s) = 0
     | HWaitCond | HWait | HSleep | HTimedOut => h_iterations (hs s) = 1
     | _ => False
     end.

(** The hasher alone: start-up, entry of the loop, then [n] waits that
    each run into their 1 s timeout. *)
Definition wait_slice : list choice := [H; H; Expire Hasher; H].

Fixpoint wait_slices (n : nat) : list choice :=
  match n with
  | O => []
  | S n' => wait_slice ++ wait_slices n'
  end.

Definition hasher_waits (n : nat) : list choice :=
  startup ++ [H] ++ wait_slices n.

(** The worker an event comes from. *)
Definition event_agent (e : event) : agent :=
  match e with
  | EvStoreStatus who _ _ _ | EvNotify who | EvTimedOut who _
  | EvThrow who _ | EvExit who _ => who
  | EvStoreLength _ _ | EvCopy _ | EvForcingEof => Reader
  | EvUpdate _ | EvDigest _ => Hasher
  end.

Definition is_reader_choice (c : choice) : bool :=
  match c with
  | Run Reader | Expire Reader => true
  | _ => false
  end.

(** The reader's share of a schedule. *)
Definition reader_part (sched : list choice) : list choice :=
  filter is_reader_choice sched.

(** The hasher given an unsupported name: it has not started, or it is gone
    with exit code 1 having logged nothing but its exception. *)
Definition rejected_algorithm (algo : string) (s : state) : Prop :=
  h_algo (hs s) = algo
  /\ (h_pc (hs s) = HStart \/ h_pc (hs s) = HDone 1)
  /\ forall e, In e (trace s) -> event_agent e = Hasher ->
               e = EvThrow Hasher (UnknownAlgorithm algo)
               \/ e = EvExit Hasher 1.

(** The pipeline on an empty stream: nothing is ever published, and the
    reader stores EOF once. *)
Definition empty_run (s : state) : Prop :=
  r_stream (rd s) = []
  /\ updates (trace s) = []
  /\ count_status_stores 1 (trace s) = 0%nat
  /\ status (mem s) <> 1
  /\ match h_pc (hs s) with
     | HLoadLen | HRead _ => False
     | _ => True
     end
  /\ match r_pc (rd s) with
     | RNext | REofCond _ | REofWaitLoad _ | REofWait _ _ | REofSleep _
     | REofStore _ => count_status_stores 2 (trace s) = 0%nat
     | REofNotify | RExit | RDone _ => count_status_stores 2 (trace s) = 1%nat
     | _ => False
     end.

(** The reader has exited, the status is 0 and the hasher is in one of its
    first 100 loop iterations, waiting or about to. *)
Definition left_waiting (s : state) : Prop :=
  status (mem s) = 0
  /\ finished (r_pc (rd s)) = true
  /\ digests (trace s) = []
  /\ h_iterations (hs s) <= 100
  /\ match h_pc (hs s) with
     | HLoopTop | HNotify => h_iterations (hs s) < 100
     | HWaitCond | HWait | HSleep | HTimedOut => True
     | _ => False
     end.

(** A read error hits the reader while the hasher is consuming the chunk
    published before. *)
Definition failing_stream : list read := [Data [x41]; ReadFailure].

Definition failure_during_update : list choice :=
  startup ++ [R; R; R; R; R; R] ++ [H; H; H] ++ [R; R; R; R]
  ++ [H; H; H; H; H].

(** After a throw, the reader is in its handler or beyond it, with the EOF
    store and then the notify logged after the throw. *)
Definition eof_forced (t : list event) : Prop :=
  exists post pre old e,
    t = post ++ EvStoreStatus Reader OnError old 2 :: pre
    /\ In (EvThrow Reader e) pre.

Definition eof_forced_and_notified (t : list event) : Prop :=
  exists post pre old e,
    t = post ++ EvStoreStatus Reader OnError old 2 :: pre
    /\ In (EvNotify Reader) post
    /\ In (EvThrow Reader e) pre.

Definition failure_handled (s : state) : Prop :=
  (exists e, In (EvThrow Reader e) (trace s)) ->
  match r_pc (rd s) with
  | RCatch => True
  | RCatchNotify => eof_forced (trace s)
  | RExit | RDone _ => eof_forced_and_notified (trace s)
  | _ => False
  end.

(** ** End of stream *)

(** What an end-of-stream store of line 68 may look like. *)
Definition eof_store_allowed (e : event) : Prop :=
  match e with
  | EvStoreStatus Reader (EndOfStream c) old new =>
      new = 2
      /\ match c with
         | ObservedReady => old = 0
         | ForcedAfterTimeout w => 10 < w <= 1000
         | WaitBudgetSpent w => w = 1000
         end
  | _ => True
  end.

(** The reader's writes that publish a chunk: the copy into the buffer, the
    length store and the status store of lines 47-51. *)
Definition is_publication_write (e : event) : bool :=
  match e with
  | EvCopy _ | EvStoreLength _ _ | EvStoreStatus Reader Publish _ _ => true
  | _ => false
  end.

Definition is_reader_eof_store (e : event) : bool :=
  match e with
  | EvStoreStatus Reader (EndOfStream _) _ _
  | EvStoreStatus Reader OnError _ _ => true
  | _ => false
  end.

Definition eof_stored (t : list event) : bool := existsb is_reader_eof_store t.

(** No publication write is later than an EOF store of the reader (the
    trace has the latest event first). *)
Fixpoint quiet_after_eof (t : list event) : Prop :=
  match t with
  | [] => True
  | e :: older =>
      (is_publication_write e = true -> eof_stored older = false)
      /\ quiet_after_eof older
  end.

Definition end_of_stream_inv (s : state) : Prop :=
  Forall eof_store_allowed (trace s)
  /\ quiet_after_eof (trace s)
  /\ match r_pc (rd s) with
     | REofNotify | RCatchNotify | RExit | RDone _ => True
     | REofCond w => eof_stored (trace s) = false /\ 0 <= w <= 1000
     | REofWaitLoad w | REofWait w _ | REofSleep w =>
         eof_stored (trace s) = false /\ 1 <= w <= 1000
     | REofStore ObservedReady =>
         eof_stored (trace s) = false /\ status (mem s) = 0
     | REofStore (ForcedAfterTimeout w) =>
         eof_stored (trace s) = false /\ 10 < w <= 1000
     | REofStore (WaitBudgetSpent w) =>
         eof_stored (trace s) = false /\ w = 1000
     | _ => eof_stored (trace s) = false
     end.

(** The hasher is not scheduled while the reader, at the end of a one-chunk
    stream, waits for status 0: eleven wait slices expire and the twelfth
    statement after them is the store of line 68. *)
Definition eof_wait_slice : list choice := [R; R; R; Expire Reader].

Definition stalled_consumer : list choice :=
  startup ++ [R; R; R; R; R; R] ++ [R]
  ++ List.concat (repeat eof_wait_slice 11) ++ [R].

(** ** The hand-off of chunks

    A run keeps the handshake when the reader never throws and the two
    stores that do not belong to a hand-off, the hasher's start-up store of
    0 and the reader's end-of-stream store of 2, find the status at 0. *)
Definition handshake_event (e : event) : Prop :=
  match e with
  | EvStoreStatus Hasher InitReady old _ => old = 0
  | EvStoreStatus Reader (EndOfStream _) old _ => old = 0
  | EvStoreStatus Reader OnError _ _ => False
  | EvThrow Reader _ => False
  | _ => True
  end.

Definition handshake_kept (t : list event) : Prop := Forall handshake_event t.

(** The bytes passed to [hashFn] so far, in order. *)
Definition fed (s : state) : list byte := List.concat (rev (updates (trace s))).

Definition chunks_in (stream : list read) : list (list byte) :=
  flat_map (fun r => match r with Data c => [c] | ReadFailure => [] end) stream.

(** The chunk a publication announces. *)
Definition announced (m : shared) : list byte :=
  firstn (Z.to_nat (len m)) (dataView m).

(** Where the reader stands relative to the chunks [cs] of the file, [pre]
    being those it has published. *)
Definition reader_at (cs pre : list (list byte)) (s : state) : Prop :=
  let r := rd s in
  let rest := chunks_in (r_stream r) in
  match r_pc r with
  | RNext | RNotify =>
      cs = pre ++ rest /\ r_iterations r = Z.of_nat (List.length pre)
  | RLoopCond c _ | RWaitLoad c _ | RWait c _ _ | RSleep c _ | RTimedOut c _
  | RCopy c =>
      cs = pre ++ c :: rest /\ r_iterations r = Z.of_nat (List.length pre) + 1
  | RStoreLen c =>
      cs = pre ++ c :: rest /\ r_iterations r = Z.of_nat (List.length pre) + 1
      /\ firstn (List.length c) (dataView (mem s)) = c
  | RStoreStatus =>
      cs = pre ++ announced (mem s) :: rest
      /\ r_iterations r = Z.of_nat (List.length pre) + 1
      /\ 0 <= len (mem s)
  | REofCond _ | REofWaitLoad _ | REofWait _ _ | REofSleep _ | REofStore _
  | REofNotify | RExit | RDone _ => cs = pre
  | RCatch | RCatchNotify => False
  end.

(** The reader may be found here while a chunk awaits the hasher. *)
Definition reader_waits (pc : rpc) : bool :=
  match pc with
  | RNext | RNotify | RLoopCond _ _ | RWaitLoad _ _ | RWait _ _ _
  | RSleep _ _ | RTimedOut _ _ | REofCond _ | REofWaitLoad _ | REofWait _ _
  | REofSleep _ | REofStore (ForcedAfterTimeout _)
  | REofStore (WaitBudgetSpent _) => true
  | _ => false
  end.

Definition reader_gone (pc : rpc) : bool :=
  match pc with
  | REofNotify | RExit | RDone _ => true
  | _ => false
  end.

(** The hasher has seen a chunk announced and not yet given the buffer
    back. *)
Definition hasher_holds (pc : hpc) : bool :=
  match pc with
  | HLoadLen | HRead _ | HStoreReady => true
  | _ => false
  end.

Definition hasher_saw_data (pc : hpc) : bool :=
  match pc with
  | HLoadStatus => true
  | _ => hasher_holds pc
  end.

(** Loop iterations begun beyond the chunks consumed. *)
Definition hasher_slack (pc : hpc) : Z :=
  match pc with
  | HWaitCond | HWait | HSleep | HTimedOut | HLoadStatus | HLoadLen
  | HRead _ | HFinal | HDone _ => 1
  | _ => 0
  end.

Definition handshake_inv (cs : list (list byte)) (s : state) : Prop :=
  exists pre con,
    fed s = List.concat con
    /\ reader_at cs pre s
    /\ Z.of_nat (List.length (dataView (mem s))) < 2147483648
    /\ h_iterations (hs s)
       <= Z.of_nat (List.length con) + hasher_slack (h_pc (hs s))
    /\ match h_pc (hs s) with
       | HFinal => con = cs /\ digests (trace s) = []
       | HDone _ => digests (trace s) = [] \/ con = cs
       | _ => digests (trace s) = []
       end
    /\ ((status (mem s) = 0 /\ con = pre
         /\ reader_gone (r_pc (rd s)) = false
         /\ hasher_saw_data (h_pc (hs s)) = false)
        \/ (status (mem s) = 1
            /\ reader_waits (r_pc (rd s)) = true
            /\ 0 <= len (mem s)
            /\ match h_pc (hs s) with
               | HStoreReady => con = pre
               | HRead l => l = len (mem s) /\ pre = con ++ [announced (mem s)]
               | _ => pre = con ++ [announced (mem s)]
               end)
        \/ (status (mem s) = 2 /\ con = pre /\ pre = cs
            /\ reader_gone (r_pc (rd s)) = true
            /\ hasher_holds (h_pc (hs s)) = false)).

(** Between two hand-offs: the buffer is free, the reader is about to fetch
    and the hasher about to begin a loop iteration. *)
Definition between_handoffs (name : string) (stream : list read) (i j : Z)
  (a : adapter) (ln : Z) (dv : list byte) (tr : list event) : state :=
  {| mem := {| status := 0; len := ln; dataView := dv |};
     rd := {| r_pc := RNext; r_stream := stream; r_iterations := i |};
     hs := {| h_pc := HLoopTop; h_algo := name; h_adapter := Some a;
              h_iterations := j |};
     trace := tr |}.

(** The fetch of line 20 ends the loop: the stream is exhausted, or the
    iteration cap of line 22 is reached. *)
Definition reader_stops (stream : list read) (i : Z) : Prop :=
  stream = []
  \/ exists c rest, stream = Data c :: rest /\ MAX_ITERATIONS <= i.

(** ** Ownership of the buffer *)

(** The reader is between its copy into the buffer and its publishing
    store (lines 47-51). *)
Definition reader_writes (pc : rpc) : bool :=
  match pc with
  | RCopy _ | RStoreLen _ | RStoreStatus => true
  | _ => false
  end.

(** At no time do both workers use the buffer: while the reader writes,
    the status is 0 and the hasher does not hold the buffer; while the
    hasher holds it, the status is not 0, the reader does not write, and
    the length the hasher has loaded is the one in memory. *)
Definition exclusive (s : state) : Prop :=
  (reader_writes (r_pc (rd s)) = true ->
   status (mem s) = 0 /\ hasher_holds (h_pc (hs s)) = false)
  /\ (hasher_holds (h_pc (hs s)) = true ->
      status (mem s) <> 0
      /\ reader_writes (r_pc (rd s)) = false
      /\ match h_pc (hs s) with
         | HRead l => l = len (mem s)
         | _ => True
         end).

(** ** What the two workers never do *)

(** The exceptions the reader has thrown, latest first. *)
Definition reader_throws (t : list event) : list error :=
  flat_map (fun e => match e with EvThrow Reader x => [x] | _ => [] end) t.

Definition is_premature_eof (e : error) : bool :=
  match e with
  | HasherSignaledEofPrematurely => true
  | _ => false
  end.

Definition is_reader_timeout (e : error) : bool :=
  match e with
  | ReaderTimeout => true
  | _ => false
  end.

(** The reader has left its [try] block through a store of status 2. *)
Definition past_eof_store (pc : rpc) : bool :=
  match pc with
  | REofNotify | RCatchNotify | RExit | RDone _ => true
  | _ => false
  end.

(** Status 2 is the reader's to store: while the reader is anywhere before
    its EOF stores the status is not 2, so the test of line 35 fails. *)
Definition eof_is_the_readers (s : state) : Prop :=
  (status (mem s) = 2 -> past_eof_store (r_pc (rd s)) = true)
  /\ existsb is_premature_eof (reader_throws (trace s)) = false.

(** The chunk the reader holds and has not yet copied. *)
Definition chunk_in_hand (pc : rpc) : list byte :=
  match pc with
  | RLoopCond c _ | RWaitLoad c _ | RWait c _ _ | RSleep c _ | RTimedOut c _
  | RCopy c => c
  | _ => []
  end.

Definition fits (capacity : nat) (r : read) : Prop :=
  match r with
  | Data c => (List.length c <= capacity)%nat
  | ReadFailure => False
  end.

(** A readable file whose chunks fit the buffer: the only exception left to
    the reader is the timeout of line 43. *)
Definition readable (capacity : nat) (s : state) : Prop :=
  List.length (dataView (mem s)) = capacity
  /\ Forall (fits capacity) (r_stream (rd s))
  /\ (List.length (chunk_in_hand (r_pc (rd s))) <= capacity)%nat
  /\ (status (mem s) = 2 -> past_eof_store (r_pc (rd s)) = true)
  /\ forallb is_reader_timeout (reader_throws (trace s)) = true.

(** The exit codes the hasher has logged, latest first. *)
Definition hasher_exits (t : list event) : list Z :=
  flat_map (fun e => match e with EvExit Hasher code => [code] | _ => [] end) t.

(** The hasher reports at most once, and exits with 0 exactly when it has
    reported. *)
Definition exit_matches_report (s : state) : Prop :=
  match h_pc (hs s) with
  | HDone code =>
      hasher_exits (trace s) = [code]
      /\ ((code = 0 /\ exists d, digests (trace s) = [d])
          \/ (code = 1 /\ digests (trace s) = []))
  | _ => hasher_exits (trace s) = [] /\ digests (trace s) = []
  end.

(** The hasher begins a loop iteration and its wait expires; the reader
    publishes the next chunk before the hasher has looked at the status
    again (line 68). *)
Definition late_data : list choice :=
  [H; H; H; Expire Hasher] ++ [R; R; R; R; R; R] ++ [H].

(** ** The hand-off in every interleaving

    Whatever the schedule, the chunks passed to [hashFn] are consecutive
    chunks of the file: [skip] holds the chunks published and lost before
    the hasher's start-up store, [con] those consumed, and [pend] the one
    published and not consumed. *)

Definition reader_pos (cs pre : list (list byte)) (s : state) : Prop :=
  let r := rd s in
  let rest := chunks_in (r_stream r) in
  match r_pc r with
  | RNext | RNotify => cs = pre ++ rest
  | RLoopCond c _ | RWaitLoad c _ | RWait c _ _ | RSleep c _ | RTimedOut c _
  | RCopy c => cs = pre ++ c :: rest
  | RStoreLen c =>
      cs = pre ++ c :: rest
      /\ firstn (List.length c) (dataView (mem s)) = c
  | RStoreStatus => cs = pre ++ announced (mem s) :: rest
  | _ => exists rest', cs = pre ++ rest'
  end.

Definition range_inv (cs : list (list byte)) (s : state) : Prop :=
  exists skip con pend,
    fed s = List.concat con
    /\ (List.length skip <= 1)%nat
    /\ reader_pos cs (skip ++ con ++ pend) s
    /\ Z.of_nat (List.length (dataView (mem s))) < 2147483648
    /\ match h_pc (hs s) with
       | HStart | HInitStore => skip = [] /\ con = []
       | _ => True
       end
    /\ ((status (mem s) = 0
         /\ hasher_holds (h_pc (hs s)) = false
         /\ (past_eof_store (r_pc (rd s)) = true \/ pend = []))
        \/ (status (mem s) = 1
            /\ reader_writes (r_pc (rd s)) = false
            /\ past_eof_store (r_pc (rd s)) = false
            /\ match h_pc (hs s) with
               | HStoreReady => pend = []
               | HRead l => l = len (mem s) /\ pend = [announced (mem s)]
               | _ => pend = [announced (mem s)]
               end)
        \/ (status (mem s) = 2
            /\ past_eof_store (r_pc (rd s)) = true
            /\ match h_pc (hs s) with
               | HStoreReady => pend = []
               | HRead l => l = len (mem s) /\ pend = [announced (mem s)]
               | HLoadLen => pend = [announced (mem s)]
               | _ => True
               end)).

(** * performance-test.js: [testWorkerSharedHashPerformance] and
      [measurePerformance]

    The function that starts the two workers for each algorithm, waits for
    their exit and fills a row of the result table.  JavaScript numbers are
    IEEE 754 binary64 values. *)

From Stdlib Require Import Floats.

Record algo_entry := {
  a_name : string;
  a_type : string;
  a_module : option string
}.

(** Lines 16-21. *)
Definition algorithms : list algo_entry :=
  [ {| a_name := "sha256"; a_type := "native"; a_module := None |};
    {| a_name := "xxh64"; a_type := "external";
       a_module := Some "@node-rs/xxhash"%string |};
    {| a_name := "xxh3-64"; a_type := "external";
       a_module := Some "@node-rs/xxhash"%string |};
    {| a_name := "crc32c"; a_type := "external";
       a_module := Some "@node-rs/crc32"%string |} ].

(** Line 59: the size of the shared buffer and the [highWaterMark] of the
    reader's stream. *)
Definition CHUNK_SIZE : nat := 4 * 1024 * 1024.

(** What the event loop delivers to the function while it awaits the race
    of line 122, in the order of delivery. *)
Inductive worker_event :=
| WorkerExit (who : agent) (code : Z)   (* the worker's 'exit' event *)
| WorkerError (who : agent)             (* the worker's 'error' event *)
| TimerFired.                           (* the [setTimeout] of 30 s *)

Inductive rejection :=
| ExitedWithCode (who : agent) (code : Z)  (* lines 92 and 99 *)
| WorkerTimeout.                           (* line 117 *)

Inductive promise := Pending | Fulfilled | RejectedWith (r : rejection).

(** A promise is settled once. *)
Definition settle (p new : promise) : promise :=
  match p with
  | Pending => new
  | _ => p
  end.

Record promises := {
  hasherExitPromise : promise;
  readerExitPromise : promise;
  allPromise : promise;      (* Promise.all([hasherExitPromise, readerExitPromise]) *)
  racePromise : promise      (* Promise.race([allPromise, timeoutPromise]) *)
}.

(** The body of the two 'exit' handlers. *)
Definition exit_promise (who : agent) (code : Z) : promise :=
  match on_exit code with
  | Resolved => Fulfilled
  | Rejected c => RejectedWith (ExitedWithCode who c)
  end.

(** [Promise.all] after one of its inputs has changed to [changed]: it
    rejects with the first rejection and is fulfilled when both inputs
    are. *)
Definition all_after (changed h r : promise) : promise :=
  match changed with
  | RejectedWith e => RejectedWith e
  | _ =>
      match h, r with
      | Fulfilled, Fulfilled => Fulfilled
      | _, _ => Pending
      end
  end.

Definition deliver (p : promises) (e : worker_event) : promises :=
  match e with
  | WorkerExit Hasher code =>
      let h := settle (hasherExitPromise p) (exit_promise Hasher code) in
      let a := settle (allPromise p) (all_after h h (readerExitPromise p)) in
      {| hasherExitPromise := h; readerExitPromise := readerExitPromise p;
         allPromise := a; racePromise := settle (racePromise p) a |}
  | WorkerExit Reader code =>
      let r := settle (readerExitPromise p) (exit_promise Reader code) in
      let a := settle (allPromise p) (all_after r (hasherExitPromise p) r) in
      {| hasherExitPromise := hasherExitPromise p; readerExitPromise := r;
         allPromise := a; racePromise := settle (racePromise p) a |}
  | WorkerError _ =>
      (* the handlers of lines 104-112 log and terminate the other worker,
         whose 'exit' event follows *)
      p
  | TimerFired =>
      {| hasherExitPromise := hasherExitPromise p;
         readerExitPromise := readerExitPromise p;
         allPromise := allPromise p;
         racePromise := settle (racePromise p) (RejectedWith WorkerTimeout) |}
  end.

Definition no_promise_settled : promises :=
  {| hasherExitPromise := Pending; readerExitPromise := Pending;
     allPromise := Pending; racePromise := Pending |}.

(** How a call ends. *)
Inductive completion (A : Type) :=
| Returned (v : A)
| Threw (r : rejection).

Arguments Returned {A} v.
Arguments Threw {A} r.

(** The function passed to [measurePerformance] (lines 69-145): it returns
    when the race is fulfilled and throws what the race is rejected with;
    the [finally] block terminates the workers and does not change that.
    When the events given settle nothing, the timer fires. *)
Definition await_workers (events : list worker_event) : completion unit :=
  match racePromise (fold_left deliver events no_promise_settled) with
  | Fulfilled => Returned tt
  | RejectedWith r => Threw r
  | Pending => Threw WorkerTimeout
  end.

Inductive spinner :=
| Succeed (name : string)                  (* `${name} completed` *)
| Fail (name : string) (r : rejection)     (* `${name} failed: ${error.message}` *)
| Warn (name module : string)              (* `${name} skipped (missing ${module})` *)
| FailMessage (r : rejection).             (* spinner.fail(err.message) *)

(** [measurePerformance] (lines 174-186): the duration in seconds,
    [elapsed] being what the two [process.hrtime.bigint()] reads give, or
    [null] when [testFunc] throws. *)
Definition measurePerformance (name : string) (testFunc : completion unit)
  (elapsed : float) : completion (option float) * spinner :=
  match testFunc with
  | Returned _ => (Returned (Some elapsed), Succeed name)
  | Threw r => (Returned None, Fail name r)
  end.

(** ToNumber of a number or [null]. *)
Definition to_number (v : option float) : float :=
  match v with
  | Some x => x
  | None => 0%float
  end.

Inductive colour := Green | Yellow | Red | Gray.

Inductive cell :=
| Speed (c : colour) (gbps : float)   (* chalk.<c>(`${gbps.toFixed(2)} GB/s`) *)
| NotAvailable                        (* chalk.gray('N/A') *)
| Err.                                (* chalk.gray('err') *)

Inductive mark :=
| Tick                    (* the green check mark *)
| Skipped                 (* the yellow cross *)
| Cross.                  (* the red cross *)

Record row := {
  row_name : string;
  row_performance : cell;
  row_status : mark
}.

(** Lines 148-150. *)
Definition coloredResult (gbps : float) : cell :=
  if (3 <? gbps)%float then Speed Green gbps
  else if (1.5 <? gbps)%float then Speed Yellow gbps
  else Speed Red gbps.

(** One turn of the loop of lines 41-165: [resolves] tells whether
    [require.resolve(algo.module)] succeeds, [size] is the size of the file
    as [fs.statSync] gives it, [events] is what the workers do and
    [elapsed] the time measured. *)
Definition worker_row (algo : algo_entry) (resolves : bool) (size : float)
  (events : list worker_event) (elapsed : float) : row * spinner :=
  let fileSizeGB := (size / 1073741824)%float in
  match a_module algo, resolves with
  | Some module, false =>
      ({| row_name := a_name algo; row_performance := NotAvailable;
          row_status := Skipped |},
       Warn (a_name algo) module)
  | _, _ =>
      match measurePerformance ("Worker-" ++ a_name algo)
                               (await_workers events) elapsed with
      | (Returned duration, sp) =>
          let gbps := (fileSizeGB / to_number duration)%float in
          ({| row_name := a_name algo; row_performance := coloredResult gbps;
              row_status := Tick |}, sp)
      | (Threw err, _) =>
          ({| row_name := a_name algo; row_performance := Err;
              row_status := Cross |}, FailMessage err)
      end
  end.

(** An event that cannot reject the race of line 122: an 'exit' with
    code 0 or an 'error' event (whose handler only logs and terminates the
    other worker).  The timer and an 'exit' with another code can. *)
Definition harmless (e : worker_event) : bool :=
  match e with
  | WorkerExit _ code => code =? 0
  | WorkerError _ => true
  | TimerFired => false
  end.

Definition is_exit_of (who : agent) (e : worker_event) : bool :=
  match e, who with
  | WorkerExit Hasher _, Hasher => true
  | WorkerExit Reader _, Reader => true
  | _, _ => false
  end.

(** The 'exit' event of [who] is among [events]. *)
Definition exited (who : agent) (events : list worker_event) : bool :=
  existsb (is_exit_of who) events.

(** The promises when nothing but exits with code 0 has settled any:
    [h] and [r] tell which worker has exited. *)
Definition after_clean_exits (h r : bool) : promises :=
  {| hasherExitPromise := if h then Fulfilled else Pending;
     readerExitPromise := if r then Fulfilled else Pending;
     allPromise := if h && r then Fulfilled else Pending;
     racePromise := if h && r then Fulfilled else Pending |}.

(** Promises are fulfilled only by exits with code 0, [seen] being the
    events delivered so far. *)
Definition fulfilled_by_exits (seen : list worker_event) (p : promises)
  : Prop :=
  (hasherExitPromise p = Fulfilled -> In (WorkerExit Hasher 0) seen)
  /\ (readerExitPromise p = Fulfilled -> In (WorkerExit Reader 0) seen)
  /\ (allPromise p = Fulfilled ->
      hasherExitPromise p = Fulfilled /\ readerExitPromise p = Fulfilled)
  /\ (racePromise p = Fulfilled -> allPromise p = Fulfilled).

(** * create-testfile.js, clean.js and benchmark.js

    The scripts that create, remove and benchmark the test file.  They
    work on one file, [FILENAME], through Node's synchronous [fs] calls; a
    call either does its work or throws, which the environment decides
    ([faults] tells for each call of a run, counted from 0, whether it
    throws). *)

Definition FILENAME : string := "temp_10GB_file".
Definition SIZE_GB : Z := 10.
Definition SIZE_BYTES : Z := SIZE_GB * 1024 * 1024 * 1024.

(** What a script prints, as far as the statements below tell it apart. *)
Inductive message :=
| AlreadyExists (size : Z)            (* create-testfile.js line 192 *)
| RemovedExisting                     (* line 207 *)
| SparseCreated | SparseFailed        (* lines 27, 30 *)
| RealCreated | RealFailed            (* lines 65, 69 *)
| RandomCreated | RandomFailed        (* lines 116, 120 *)
| SystemCreated | SystemFailed        (* lines 168, 171, 177 *)
| TryingSystemCommand                 (* line 242 *)
| CreatedSuccessfully (size : Z) (size_warning : bool)   (* lines 257-283 *)
| CouldNotVerify                      (* line 286 *)
| FailedToCreate                      (* line 291 *)
| FileRemoved                         (* clean.js line 27 *)
| NoCleanupNeeded                     (* clean.js line 31 *)
| FailedToRemove                      (* clean.js line 39 *)
| Progress (value total : Z)          (* benchmark.js: progressBar.update *)
| Child (script : string) (args : list string) (code : option Z)
    (* benchmark.js: a child spawned on [script] has ended, lines 66-79 of
       src/clean.js; [code] is the code of its 'close' event, [None] stands
       for its 'error' event *)
| MainTestFileNotFound                (* benchmark.js, line 141 of src/clean.js *)
| KeepingFile                         (* line 158 *)
| BenchmarkCompleted                  (* line 165 *)
| BenchmarkFailed                     (* line 182 *)
| CleanupCompleted | CleanupAlsoFailed    (* lines 196, 198 *)
| BenchmarkHelp.                          (* benchmark.js, showHelp *)

Record world := {
  test_file : option Z;      (* the size of FILENAME, when it exists *)
  position : Z;              (* the position of the descriptor last opened *)
  fs_calls : nat;            (* the fs calls that may throw, so far *)
  output : list message      (* latest first *)
}.

Inductive outcome_of (A : Type) :=
| Done (v : A) (w : world)
| Thrown (w : world).

Arguments Done {A} v w.
Arguments Thrown {A} w.

Definition io (A : Type) : Type := world -> outcome_of A.

Definition io_ret {A : Type} (v : A) : io A := fun w => Done v w.

Definition io_bind {A B : Type} (c : io A) (k : A -> io B) : io B :=
  fun w => match c w with
           | Done v w' => k v w'
           | Thrown w' => Thrown w'
           end.

(** [try { c } catch { h }] *)
Definition try_catch {A : Type} (c : io A) (h : io A) : io A :=
  fun w => match c w with
           | Done v w' => Done v w'
           | Thrown w' => h w'
           end.

Declare Scope io_scope.
Delimit Scope io_scope with io.
Notation "x <- c ;; k" := (io_bind c (fun x => k))
  (at level 61, c at next level, right associativity) : io_scope.
Notation "c ;; k" := (io_bind c (fun _ => k))
  (at level 61, right associativity) : io_scope.

Definition print (m : message) : io unit :=
  fun w => Done tt {| test_file := test_file w; position := position w;
                      fs_calls := fs_calls w; output := m :: output w |}.

Section FileSystem.

Variable faults : nat -> bool.

(** A call that may throw: it is counted, and throws when the environment
    says so or when [work] finds the file missing. *)
Definition fs_call {A : Type} (work : world -> option (A * option Z * Z))
  : io A :=
  fun w =>
    let w' := {| test_file := test_file w; position := position w;
                 fs_calls := S (fs_calls w); output := output w |} in
    if faults (fs_calls w) then Thrown w'
    else match work w with
         | Some (v, file, pos) =>
             Done v {| test_file := file; position := pos;
                       fs_calls := S (fs_calls w); output := output w |}
         | None => Thrown w'
         end.

(** [fs.existsSync(FILENAME)] does not throw. *)
Definition existsSync : io bool :=
  fun w => Done (match test_file w with Some _ => true | None => false end) w.

(** [fs.statSync(FILENAME).size] *)
Definition statSync : io Z :=
  fs_call (fun w => match test_file w with
                    | Some size => Some (size, Some size, position w)
                    | None => None
                    end).

Definition unlinkSync : io unit :=
  fs_call (fun w => match test_file w with
                    | Some _ => Some (tt, None, position w)
                    | None => None
                    end).

(** [fs.openSync(FILENAME, 'w')]: the file is created or truncated. *)
Definition openSync_w : io unit :=
  fs_call (fun w => Some (tt, Some 0, 0)).

(** [fs.writeSync(fd, buffer, 0, length, position)]: the bytes go to
    [position], the descriptor does not move. *)
Definition writeSync_at (length pos : Z) : io unit :=
  fs_call (fun w => match test_file w with
                    | Some size =>
                        Some (tt, Some (Z.max size (pos + length)), position w)
                    | None => None
                    end).

(** [fs.writeSync(fd, buffer, 0, length)]: the bytes go to the position of
    the descriptor, which moves behind them. *)
Definition writeSync (length : Z) : io unit :=
  fs_call (fun w => match test_file w with
                    | Some size =>
                        Some (tt, Some (Z.max size (position w + length)),
                              position w + length)
                    | None => None
                    end).

Definition closeSync : io unit :=
  fs_call (fun w => Some (tt, test_file w, position w)).

Local Open Scope io_scope.

(** ** create-testfile.js *)

(** Lines 16-33. *)
Definition createSparseFile : io bool :=
  try_catch
    (openSync_w ;;
     writeSync_at 1 (SIZE_BYTES - 1) ;;
     closeSync ;;
     print SparseCreated ;;
     io_ret true)
    (print SparseFailed ;; io_ret false).

(** [Math.ceil(a / b)] for integers that a binary64 number holds. *)
Definition ceil_div (a b : Z) : Z := - ((- a) / b).

(** The loop of lines 54-60 and of lines 93-111, [todo] turns from [i]. *)
Fixpoint write_loop (size chunkSize : Z) (todo : nat) (i : Z) : io unit :=
  match todo with
  | O => io_ret tt
  | S todo' =>
      let remainingBytes := size - i * chunkSize in
      let bytesToWrite := Z.min chunkSize remainingBytes in
      writeSync bytesToWrite ;;
      write_loop size chunkSize todo' (i + 1)
  end.

Definition write_file (size chunkSize : Z) : io unit :=
  openSync_w ;;
  (let totalChunks := ceil_div size chunkSize in
   write_loop size chunkSize (Z.to_nat totalChunks) 0) ;;
  closeSync.

(** Lines 35-72, with chunks of 64 MiB. *)
Definition createRealFile : io bool :=
  try_catch
    (write_file SIZE_BYTES (64 * 1024 * 1024) ;;
     print RealCreated ;;
     io_ret true)
    (print RealFailed ;; io_ret false).

(** Lines 74-123, with chunks of 16 MiB. *)
Definition createRandomDataFile : io bool :=
  try_catch
    (write_file SIZE_BYTES (16 * 1024 * 1024) ;;
     print RandomCreated ;;
     io_ret true)
    (print RandomFailed ;; io_ret false).

(** What the command spawned by [createWithSystemCommand] does, which is
    the environment's: its exit code ([None] when it cannot be spawned)
    and the file it leaves. *)
Variable system_command : option Z * option Z.

(** Lines 125-181: the promise resolves, with [true] for exit code 0. *)
Definition createWithSystemCommand (forceReal : bool) : io bool :=
  fun w =>
    let w' := {| test_file := snd system_command; position := position w;
                 fs_calls := fs_calls w; output := output w |} in
    match fst system_command with
    | Some code =>
        if code =? 0 then (print SystemCreated ;; io_ret true) w'
        else (print SystemFailed ;; io_ret false) w'
    | None => (print SystemFailed ;; io_ret false) w'
    end.

(** [process.argv[2] || fallback] *)
Definition argument_or (argv : list string) (fallback : string) : string :=
  match nth_error argv 2 with
  | Some a => if String.eqb a "" then fallback else a
  | None => fallback
  end.

(** [process.argv.includes(flag)] *)
Definition includes (argv : list string) (flag : string) : bool :=
  existsb (String.eqb flag) argv.

(** The [switch] of lines 215-246. *)
Definition create_by (method : string) : io bool :=
  if String.eqb method "sparse" || String.eqb method "node"
  then createSparseFile
  else if String.eqb method "real" || String.eqb method "full"
  then createRealFile
  else if String.eqb method "random" then createRandomDataFile
  else if String.eqb method "system" then createWithSystemCommand false
  else if String.eqb method "system-real" then createWithSystemCommand true
  else
    success <- createSparseFile ;;
    if success then io_ret true
    else print TryingSystemCommand ;; createWithSystemCommand false.

(** How a script ends: it runs to its end, which gives exit code 0, or it
    calls [process.exit(code)]. *)
Inductive ending := RunsOut | Exits (code : Z).

(** [main] of create-testfile.js, lines 183-297. *)
Definition create_main (argv : list string) : io ending :=
  let method := argument_or argv "auto" in
  present <- existsSync ;;
  proceed <-
    (if present
     then
       size <- statSync ;;
       print (AlreadyExists size) ;;
       if (size =? SIZE_BYTES) && negb (includes argv "--force")
       then io_ret false
       else unlinkSync ;; print RemovedExisting ;; io_ret true
     else io_ret true) ;;
  if negb proceed then io_ret RunsOut
  else
    success <- create_by method ;;
    if success
    then
      try_catch
        (size <- statSync ;;
         print (CreatedSuccessfully size (negb (size =? SIZE_BYTES))) ;;
         io_ret RunsOut)
        (print CouldNotVerify ;; io_ret RunsOut)
    else print FailedToCreate ;; io_ret (Exits 1).

(** The script itself, lines 337-341: [showHelp] begins with a call of
    [showTitle], which the script does not define, so that it throws a
    ReferenceError. *)
Definition showHelp : io ending := fun w => Thrown w.

Definition create_testfile_js (argv : list string) : io ending :=
  if includes argv "--help" then showHelp else create_main argv.

(** ** clean.js: [cleanTestFile], lines 11-49 *)
Definition cleanTestFile : io ending :=
  try_catch
    (present <- existsSync ;;
     if present
     then statSync ;; unlinkSync ;; print FileRemoved ;; io_ret RunsOut
     else print NoCleanupNeeded ;; io_ret RunsOut)
    (print FailedToRemove ;; io_ret (Exits 1)).

(** The exit code of a Node process: 0 when the script runs out, the
    argument of [process.exit], and 1 for an exception nobody catches. *)
Definition exit_code (c : io ending) : world -> Z * world :=
  fun w => match c w with
           | Done RunsOut w' => (0, w')
           | Done (Exits code) w' => (code, w')
           | Thrown w' => (1, w')
           end.

(** ** benchmark.js (src/clean.js from line 53) *)

(** The scripts this repository does not hold or that do not touch the
    test file (info.js, quick-test.js, index.js): their exit codes are the
    environment's, [None] when the process cannot be spawned. *)
Variable other_script : string -> option Z.

(** Whether index.js exists (line 138). *)
Variable index_js : bool.

(** [runCommand('node', script :: args)], lines 65-82: the child runs the
    script; when it has ended, the promise resolves for exit code 0 and
    rejects otherwise. *)
Definition runCommand (script : string) (args : list string) : io unit :=
  fun w =>
    let (code, w') :=
      if String.eqb script "create-testfile.js"
      then let (code, w') :=
             exit_code (create_testfile_js ("node"%string :: script :: args)) w
           in (Some code, w')
      else if String.eqb script "clean.js"
      then let (code, w') := exit_code cleanTestFile w in (Some code, w')
      else (other_script script, w) in
    let ended :=
      {| test_file := test_file w'; position := position w';
         fs_calls := fs_calls w';
         output := Child script args code :: output w' |} in
    match code with
    | Some c => if c =? 0 then Done tt ended else Thrown ended
    | None => Thrown ended
    end.

(** [runBenchmark], lines 84-204. *)
Definition runBenchmark (argv : list string) : io ending :=
  let testType := argument_or argv "basic" in
  let keepFile := includes argv "--keep-file" in
  let totalSteps := if keepFile then 3 else 4 in
  print (Progress 0 totalSteps) ;;
  try_catch
    (print (Progress 1 totalSteps) ;;
     runCommand "create-testfile.js" ["random"%string] ;;
     print (Progress 2 totalSteps) ;;
     runCommand "info.js" [] ;;
     print (Progress 3 totalSteps) ;;
     (if String.eqb testType "full"
      then if index_js then runCommand "index.js" [FILENAME]
           else print MainTestFileNotFound
      else runCommand "quick-test.js" []) ;;
     (if negb keepFile
      then print (Progress 4 totalSteps) ;; runCommand "clean.js" []
      else print KeepingFile) ;;
     print (Progress totalSteps totalSteps) ;;
     print BenchmarkCompleted ;;
     io_ret RunsOut)
    (print BenchmarkFailed ;;
     present <- existsSync ;;
     (if negb keepFile && present
      then try_catch (runCommand "clean.js" [] ;; print CleanupCompleted)
                     (print CleanupAlsoFailed)
      else io_ret tt) ;;
     io_ret (Exits 1)).

(** The script itself, lines 246-250. *)
Definition benchmark_js (argv : list string) : io ending :=
  if includes argv "--help" then print BenchmarkHelp ;; io_ret RunsOut
  else runBenchmark argv.

End FileSystem.

(** A file system without the test file, and one in which no call
    throws. *)
Definition empty_disk : world :=
  {| test_file := None; position := 0; fs_calls := 0; output := [] |}.

Definition no_faults : nat -> bool := fun _ => false.

(** The children a run has spawned, in the order in which they ended,
    each with its script and the way it ended. *)
Definition children (out : list message) : list (string * option Z) :=
  rev (flat_map (fun m => match m with
                          | Child script _ code => [(script, code)]
                          | _ => []
                          end) out).

Definition is_spawn (m : message) : bool :=
  match m with
  | Child _ _ _ => true
  | _ => false
  end.

(** The world a computation ends in. *)
Definition final {A : Type} (c : io A) (w : world) : world :=
  match c w with
  | Done _ w' => w'
  | Thrown w' => w'
  end.

(** A computation that spawns nothing. *)
Definition quiet {A : Type} (c : io A) : Prop :=
  forall w, children (output (final c w)) = children (output w).

(** [code === 0] for the exit code of a child, if it could be spawned. *)
Definition exited_with_zero (code : option Z) : bool :=
  match code with
  | Some c => c =? 0
  | None => false
  end.

(** The scripts [runBenchmark] means to spawn, in order. *)
Definition benchmark_plan (testType : string) (index_js keepFile : bool)
  : list string :=
  ["create-testfile.js"; "info.js"]%string
  ++ (if String.eqb testType "full"
      then if index_js then ["index.js"%string] else []
      else ["quick-test.js"%string])
  ++ (if keepFile then [] else ["clean.js"%string]).

(** Whether the scripts of the plan that are the environment's exit with
    code 0. *)
Definition others_succeed (other_script : string -> option Z)
  (testType : string) (index_js : bool) : bool :=
  exited_with_zero (other_script "info.js"%string)
  && (if String.eqb testType "full"
      then if index_js then exited_with_zero (other_script "index.js"%string)
           else true
      else exited_with_zero (other_script "quick-test.js"%string)).

(** The methods of create-testfile.js that write the file themselves. *)
Definition writes_itself (method : string) : bool :=
  String.eqb method "sparse" || String.eqb method "node"
  || String.eqb method "real" || String.eqb method "full"
  || String.eqb method "random".

(** None, resp. one, of the [count] calls from the call numbered [from]
    throws. *)
Definition no_fault (faults : nat -> bool) (from count : nat) : Prop :=
  forall k, (k < count)%nat -> faults (from + k)%nat = false.

Definition some_fault (faults : nat -> bool) (from count : nat) : Prop :=
  exists k, (k < count)%nat /\ faults (from + k)%nat = true.

(** The [fs] calls a creation function makes when none throws: open,
    the writes, close. *)
Definition creation_calls (method : string) : nat :=
  if String.eqb method "sparse" || String.eqb method "node" then 3
  else if String.eqb method "real" || String.eqb method "full"
  then Z.to_nat (ceil_div SIZE_BYTES (64 * 1024 * 1024)) + 2
  else Z.to_nat (ceil_div SIZE_BYTES (16 * 1024 * 1024)) + 2.

(** The [fs] calls of create-testfile.js on which its exit code depends:
    the [statSync] of line 188, the [unlinkSync] of line 206 and the calls
    of the creation function, as far as [main] comes to them. *)
Definition deciding_calls (argv : list string) (w : world) : nat :=
  let creation := creation_calls (argument_or argv "auto") in
  match test_file w with
  | None => creation
  | Some size =>
      if (size =? SIZE_BYTES) && negb (includes argv "--force") then 1
      else 2 + creation
  end.

(** * Properties *)

(** ** Typed-array cells *)

Lemma to_int32_small z : 0 <= z < 2147483648 -> to_int32 z = z.
Proof.
  intros Hz. unfold to_int32.
  rewrite Z.mod_small by lia.
  destruct (z <? 2147483648) eqn:E; [reflexivity|].
  apply Z.ltb_ge in E. lia.
Qed.

(** ** Hexadecimal rendering *)

Lemma hex_digit_cases d :
  0 <= d < 16 ->
  is_lower_hex (hex_digit d) = true /\ hex_value (hex_digit d) = d.
Proof.
  intros Hd.
  assert (Hc : d = 0 \/ d = 1 \/ d = 2 \/ d = 3 \/ d = 4 \/ d = 5 \/ d = 6
               \/ d = 7 \/ d = 8 \/ d = 9 \/ d = 10 \/ d = 11 \/ d = 12
               \/ d = 13 \/ d = 14 \/ d = 15) by lia.
  repeat (destruct Hc as [-> | Hc]; [split; reflexivity|]).
  subst d. split; reflexivity.
Qed.

Lemma hex_digits_lower fuel : forall n acc,
  all_lower_hex acc = true ->
  all_lower_hex (hex_digits fuel n acc) = true.
Proof.
  induction fuel as [|fuel IH]; intros n acc Hacc; simpl; [assumption|].
  assert (Hd : all_lower_hex (String (hex_digit (n mod 16)) acc) = true).
  { simpl. rewrite Hacc.
    destruct (@hex_digit_cases (n mod 16)) as [-> _];
      [apply Z.mod_pos_bound; lia | reflexivity]. }
  destruct (n / 16 =? 0); [exact Hd | apply IH, Hd].
Qed.

Lemma hex_digits_parse fuel : forall n acc,
  0 <= n < 16 ^ Z.of_nat fuel ->
  (0 < fuel)%nat ->
  parse_hex_from 0 (hex_digits fuel n acc) = parse_hex_from n acc.
Proof.
  induction fuel as [|fuel IH]; intros n acc Hn Hf; [lia|].
  cbn [hex_digits].
  assert (Hm : 0 <= n mod 16 < 16) by (apply Z.mod_pos_bound; lia).
  destruct (hex_digit_cases Hm) as [_ Hv].
  pose proof (Z.div_mod n 16 ltac:(lia)) as Hdm.
  destruct (n / 16 =? 0) eqn:E.
  - apply Z.eqb_eq in E. cbn [parse_hex_from]. rewrite Hv. f_equal. lia.
  - apply Z.eqb_neq in E.
    assert (Hq : 0 < n / 16) by (pose proof (Z.div_pos n 16); lia).
    destruct fuel as [|fuel'].
    { change (16 ^ Z.of_nat 1) with 16 in Hn.
      rewrite Z.div_small in E by lia. lia. }
    rewrite IH.
    + cbn [parse_hex_from]. rewrite Hv. f_equal. lia.
    + split; [lia|].
      apply Z.div_lt_upper_bound; [lia|].
      replace (Z.of_nat (S (S fuel'))) with (Z.succ (Z.of_nat (S fuel')))
        in Hn by lia.
      rewrite Z.pow_succ_r in Hn by lia. lia.
    + lia.
Qed.

(** The number of digits produced is the least that can hold [n]. *)
Lemma hex_digits_length fuel : forall n acc,
  0 < n < 16 ^ Z.of_nat fuel ->
  exists k : nat,
    String.length (hex_digits fuel n acc) = (S k + String.length acc)%nat
    /\ 16 ^ Z.of_nat k <= n < 16 ^ Z.of_nat (S k).
Proof.
  induction fuel as [|fuel IH]; intros n acc Hn.
  { change (16 ^ Z.of_nat 0) with 1 in Hn. lia. }
  cbn [hex_digits].
  pose proof (Z.div_mod n 16 ltac:(lia)) as Hdm.
  assert (Hm : 0 <= n mod 16 < 16) by (apply Z.mod_pos_bound; lia).
  destruct (n / 16 =? 0) eqn:E.
  - apply Z.eqb_eq in E. exists 0%nat. split; [reflexivity|].
    change (16 ^ Z.of_nat 0) with 1. change (16 ^ Z.of_nat 1) with 16. lia.
  - apply Z.eqb_neq in E.
    assert (Hq : 0 < n / 16) by (pose proof (Z.div_pos n 16); lia).
    replace (Z.of_nat (S fuel)) with (Z.succ (Z.of_nat fuel)) in Hn by lia.
    rewrite Z.pow_succ_r in Hn by lia.
    destruct (@IH (n / 16) (String (hex_digit (n mod 16)) acc)) as (k & Hl & Hk).
    { split; [lia|]. apply Z.div_lt_upper_bound; lia. }
    exists (S k). split.
    + rewrite Hl. simpl. lia.
    + replace (Z.of_nat (S (S k))) with (Z.succ (Z.of_nat (S k))) by lia.
      replace (Z.of_nat (S k)) with (Z.succ (Z.of_nat k)) in * by lia.
      rewrite !Z.pow_succ_r in * by lia. lia.
Qed.

Lemma hex_fuel_enough n :
  0 <= n -> n < 16 ^ Z.of_nat (S (Z.to_nat (Z.log2 n))).
Proof.
  intros Hn.
  destruct (Z.eq_dec n 0) as [->|Hnz]; [reflexivity|].
  pose proof (Z.log2_nonneg n) as Hl.
  replace (Z.of_nat (S (Z.to_nat (Z.log2 n)))) with (Z.succ (Z.log2 n)) by lia.
  destruct (Z.log2_spec n ltac:(lia)) as [_ Hu].
  eapply Z.lt_le_trans; [exact Hu|].
  apply Z.pow_le_mono_l. lia.
Qed.

Lemma toString16_nonneg x : 0 <= x -> toString16 x = hex_of_nonneg x.
Proof.
  intros Hx. unfold toString16.
  destruct (x <? 0) eqn:E; [apply Z.ltb_lt in E; lia | reflexivity].
Qed.

Lemma toString16_lower x : 0 <= x -> all_lower_hex (toString16 x) = true.
Proof.
  intros Hx. rewrite toString16_nonneg by assumption.
  apply hex_digits_lower. reflexivity.
Qed.

Lemma toString16_parse x : 0 <= x -> parse_hex (toString16 x) = x.
Proof.
  intros Hx. rewrite toString16_nonneg by assumption.
  unfold parse_hex, hex_of_nonneg.
  rewrite hex_digits_parse; [reflexivity | | lia].
  split; [assumption | apply hex_fuel_enough; assumption].
Qed.

Lemma toString16_zero : toString16 0 = "0"%string.
Proof. reflexivity. Qed.

Lemma toString16_length x :
  0 < x ->
  exists k : nat,
    String.length (toString16 x) = S k
    /\ 16 ^ Z.of_nat k <= x < 16 ^ Z.of_nat (S k).
Proof.
  intros Hx. rewrite toString16_nonneg by lia. unfold hex_of_nonneg.
  destruct (@hex_digits_length (S (Z.to_nat (Z.log2 x))) x EmptyString)
    as (k & Hl & Hk).
  { split; [assumption | apply hex_fuel_enough; lia]. }
  exists k. split; [|assumption].
  rewrite Hl. simpl. lia.
Qed.

Lemma toString16_width x (w : nat) :
  0 <= x < 16 ^ Z.of_nat w ->
  (0 < w)%nat ->
  (1 <= String.length (toString16 x) <= w)%nat.
Proof.
  intros Hx Hw.
  destruct (Z.eq_dec x 0) as [->|Hnz].
  { rewrite toString16_zero. simpl. lia. }
  destruct (toString16_length (x := x)) as (k & Hl & Hk); [lia|].
  rewrite Hl. split; [lia|].
  assert (Hlt : 16 ^ Z.of_nat k < 16 ^ Z.of_nat w) by lia.
  apply Z.pow_lt_mono_r_iff in Hlt; lia.
Qed.

(** ** CRC-32C *)

Lemma lxor_u32 a b : in_u32 a -> in_u32 b -> in_u32 (Z.lxor a b).
Proof.
  unfold in_u32. intros Ha Hb.
  assert (Hn : 0 <= Z.lxor a b) by (apply Z.lxor_nonneg; lia).
  split; [assumption|].
  destruct (Z.eq_dec (Z.lxor a b) 0) as [->|Hnz]; [reflexivity|].
  apply Z.log2_lt_pow2; [lia|].
  eapply Z.le_lt_trans; [apply Z.log2_lxor; lia|].
  apply Z.max_lub_lt.
  - destruct (Z.eq_dec a 0) as [->|]; [reflexivity|].
    apply Z.log2_lt_pow2; lia.
  - destruct (Z.eq_dec b 0) as [->|]; [reflexivity|].
    apply Z.log2_lt_pow2; lia.
Qed.

Lemma crc_shift_u32 c : in_u32 c -> in_u32 (crc_shift c).
Proof.
  intros Hc. unfold crc_shift.
  assert (Hs : in_u32 (Z.shiftr c 1)).
  { unfold in_u32 in *. rewrite Z.shiftr_div_pow2 by lia.
    change (2 ^ 1) with 2.
    pose proof (Z.div_pos c 2). 
    assert (c / 2 <= c) by (apply Z.div_le_upper_bound; lia). lia. }
  destruct (Z.testbit c 0); [|assumption].
  apply lxor_u32; [assumption | unfold in_u32, crc32c_poly; lia].
Qed.

Lemma byte_val_range b : 0 <= byte_val b < 256.
Proof.
  unfold byte_val. pose proof (Byte.to_N_bounded b). lia.
Qed.

Lemma crc_byte_u32 c b : in_u32 c -> in_u32 (crc_byte c b).
Proof.
  intros Hc. unfold crc_byte.
  assert (Hx : in_u32 (Z.lxor c (byte_val b))).
  { apply lxor_u32; [assumption|].
    pose proof (byte_val_range b). unfold in_u32. lia. }
  simpl. repeat apply crc_shift_u32. exact Hx.
Qed.

Lemma fold_crc_byte_u32 input : forall c,
  in_u32 c -> in_u32 (fold_left crc_byte input c).
Proof.
  induction input as [|b input IH]; intros c Hc; simpl; [assumption|].
  apply IH, crc_byte_u32, Hc.
Qed.

Lemma mask32_u32 : in_u32 mask32.
Proof. unfold in_u32, mask32. lia. Qed.

Lemma crc32c_u32 input c : in_u32 c -> in_u32 (crc32c input c).
Proof.
  intros Hc. unfold crc32c.
  apply lxor_u32; [|apply mask32_u32].
  apply fold_crc_byte_u32, lxor_u32; [assumption | apply mask32_u32].
Qed.

Lemma lxor_mask_twice x : Z.lxor (Z.lxor x mask32) mask32 = x.
Proof.
  rewrite Z.lxor_assoc, Z.lxor_nilpotent, Z.lxor_0_r. reflexivity.
Qed.

Lemma crc32c_nil c : crc32c [] c = c.
Proof. unfold crc32c. simpl. apply lxor_mask_twice. Qed.

(** Continuing a CRC over the next chunk is the CRC of the concatenation. *)
Lemma crc32c_app a b c : crc32c b (crc32c a c) = crc32c (a ++ b) c.
Proof.
  unfold crc32c. rewrite lxor_mask_twice, fold_left_app. reflexivity.
Qed.

Example crc32c_check_value :
  toString16
    (crc32c [x31; x32; x33; x34; x35; x36; x37; x38; x39] 0) = "e3069283"%string.
Proof. reflexivity. Qed.

(** ** Running the model *)

Lemma run_app L s1 s2 s : run L (s1 ++ s2) s = run L s2 (run L s1 s).
Proof. unfold run. apply fold_left_app. Qed.

Lemma run_cons L c sched s : run L (c :: sched) s = run L sched (step L c s).
Proof. reflexivity. Qed.

(** A property kept by every step holds along every schedule. *)
Lemma run_invariant L (Inv : state -> Prop) :
  (forall c s, Inv s -> Inv (step L c s)) ->
  forall sched s, Inv s -> Inv (run L sched s).
Proof.
  intros Hstep sched. induction sched as [|c sched IH]; intros s Hs.
  - exact Hs.
  - rewrite run_cons. apply IH, Hstep, Hs.
Qed.

Lemma trace_step L c s : trace (step L c s) = new_events L c s ++ trace s.
Proof. destruct c as [[|]|[|]]; reflexivity. Qed.

Lemma trace_run L sched : forall s,
  trace (run L sched s) = run_events L sched s ++ trace s.
Proof.
  induction sched as [|c sched IH]; intros s; [reflexivity|].
  rewrite run_cons, IH, trace_step. cbn [run_events].
  rewrite app_assoc. reflexivity.
Qed.

(** ** The digest text *)

Lemma hashFn_ok a chunk : adapter_ok a -> adapter_ok (hashFn a chunk).
Proof.
  destruct a; simpl; trivial. apply crc32c_u32.
Qed.

Lemma new_adapter_ok a : adapter_ok (new_adapter a).
Proof. destruct a; simpl; trivial. unfold in_u32. lia. Qed.

Lemma feed_ok chunks : forall a, adapter_ok a -> adapter_ok (feed a chunks).
Proof.
  induction chunks as [|c chunks IH]; intros a Ha; simpl; [assumption|].
  apply IH, hashFn_ok, Ha.
Qed.

Lemma rendered_number (w : nat) v :
  0 <= v < 16 ^ Z.of_nat w ->
  (0 < w)%nat ->
  all_lower_hex (toString16 v) = true
  /\ (1 <= String.length (toString16 v) <= w)%nat
  /\ parse_hex (toString16 v) = v
  /\ (0 < v -> 16 ^ Z.of_nat (String.length (toString16 v) - 1) <= v).
Proof.
  intros Hv Hw. repeat split.
  - apply toString16_lower. lia.
  - apply (toString16_width Hv Hw).
  - apply (toString16_width Hv Hw).
  - apply toString16_parse. lia.
  - intros Hpos. destruct (toString16_length Hpos) as (k & -> & Hk).
    replace (S k - 1)%nat with k by lia. lia.
Qed.

Lemma finalDigest_rendered L a :
  adapter_ok a -> rendered L a (finalDigest L a).
Proof.
  intros Ha. unfold rendered.
  destruct a as [m | crc | m | m]; simpl in *.
  - rewrite sha256_hex_lower, sha256_hex_length. repeat split; lia.
  - assert (Hr : 0 <= crc < 16 ^ Z.of_nat 8).
    { unfold in_u32 in Ha. change (16 ^ Z.of_nat 8) with (2 ^ 32). lia. }
    destruct (rendered_number Hr) as (H1 & H2 & H3 & H4); [lia|]. tauto.
  - assert (Hr : 0 <= xxh64_digest L m < 16 ^ Z.of_nat 16).
    { change (16 ^ Z.of_nat 16) with (2 ^ 64). apply xxh64_digest_range. }
    destruct (rendered_number Hr) as (H1 & H2 & H3 & H4); [lia|]. tauto.
  - assert (Hr : 0 <= xxh3_digest L m < 16 ^ Z.of_nat 16).
    { change (16 ^ Z.of_nat 16) with (2 ^ 64). apply xxh3_digest_range. }
    destruct (rendered_number Hr) as (H1 & H2 & H3 & H4); [lia|]. tauto.
Qed.

(** ** Case analysis on a step *)

Ltac break_if :=
  match goal with
  | |- context [match ?x with _ => _ end] =>
      match type of x with
      | list _ => destruct x eqn:?
      | option _ => destruct x eqn:?
      | read => destruct x eqn:?
      end
  | |- context [if ?b then _ else _] =>
      lazymatch b with
      | o_notify _ => fail
      | _ => destruct b eqn:?
      end
  end.

Ltac proj :=
  cbn [mem rd hs trace r_pc r_stream r_iterations h_pc h_algo h_adapter
       h_iterations o_mem o_self o_events o_notify app] in *.

Ltac cases := proj; repeat (break_if; proj).

Ltac open_state s :=
  destruct s as [m [rp stream ri] [hp algo ad hi] tr].

Ltac unfold_step :=
  unfold step, reader_moves, hasher_moves, reader_run, reader_expire,
    hasher_run, hasher_expire, r_throw, h_uncaught, r_goto, r_notify, h_goto,
    h_notify, reader_wake, hasher_wake in *;
  cbn [mem rd hs trace r_pc r_stream r_iterations h_pc h_algo h_adapter
       h_iterations o_mem o_self o_events o_notify] in *.

Lemma updates_cons e t :
  updates (e :: t) = match e with EvUpdate c => [c] | _ => [] end ++ updates t.
Proof. reflexivity. Qed.

Lemma digests_cons e t :
  digests (e :: t) = match e with EvDigest d => [d] | _ => [] end ++ digests t.
Proof. reflexivity. Qed.

Ltac simp_trace :=
  cbn [mem rd hs trace r_pc r_stream r_iterations h_pc h_algo h_adapter
       h_iterations o_mem o_self o_events o_notify app] in *;
  rewrite ?updates_cons, ?digests_cons in *;
  cbn [app] in *.

Lemma count_status_stores_cons v e t :
  count_status_stores v (e :: t)
  = ((if is_status_store v e then 1 else 0) + count_status_stores v t)%nat.
Proof.
  unfold count_status_stores. cbn [filter].
  destruct (is_status_store v e); reflexivity.
Qed.

Ltac lit_eqb :=
  change (0 =? 0) with true in *; change (0 =? 1) with false in *;
  change (0 =? 2) with false in *; change (1 =? 0) with false in *;
  change (1 =? 1) with true in *; change (1 =? 2) with false in *;
  change (2 =? 0) with false in *; change (2 =? 1) with false in *;
  change (2 =? 2) with true in *.

Ltac simp_counts :=
  simp_trace;
  rewrite ?count_status_stores_cons in *;
  cbn [is_status_store status set_status set_len set_data] in *;
  lit_eqb; cbn [Nat.add] in *.

Lemma updates_app t1 t2 : updates (t1 ++ t2) = updates t1 ++ updates t2.
Proof. unfold updates. apply flat_map_app. Qed.

Lemma digests_app t1 t2 : digests (t1 ++ t2) = digests t1 ++ digests t2.
Proof. unfold digests. apply flat_map_app. Qed.

Lemma feed_snoc a chunks c : feed a (chunks ++ [c]) = hashFn (feed a chunks) c.
Proof. unfold feed. rewrite fold_left_app. reflexivity. Qed.

(** A step of the reader leaves the hasher's registers alone (it may only
    release its wait) and logs neither an update nor a digest. *)
Lemma reader_step_hasher L c s :
  (c = Run Reader \/ c = Expire Reader) ->
  let s' := step L c s in
  h_adapter (hs s') = h_adapter (hs s)
  /\ h_algo (hs s') = h_algo (hs s)
  /\ h_iterations (hs s') = h_iterations (hs s)
  /\ (h_pc (hs s') = h_pc (hs s)
      \/ (h_pc (hs s) = HSleep /\ h_pc (hs s') = HWaitCond))
  /\ updates (trace s') = updates (trace s)
  /\ digests (trace s') = digests (trace s).
Proof.
  intros Hc. open_state s.
  destruct Hc as [-> | ->]; unfold_step;
    destruct rp; cases; destruct hp; proj; auto 10.
Qed.

Lemma adapter_tracks_step L c s :
  adapter_tracks L s -> adapter_tracks L (step L c s).
Proof.
  intros Inv.
  destruct c as [[|]|[|]].
  1, 3:
    match goal with |- adapter_tracks _ (step _ ?c _) =>
      destruct (@reader_step_hasher L c s ltac:(auto))
        as (Ha & Hg & _ & Hp & Hu & Hd) end;
    unfold adapter_tracks in *; rewrite Ha, Hg, Hu, Hd;
    destruct Inv as [I1 I2]; split; [exact I1|];
    destruct Hp as [-> | [Hp1 ->]]; [exact I2 | rewrite Hp1 in I2; exact I2].
  - (* Run Hasher *)
    open_state s. unfold_step.
    destruct hp; cases; unfold adapter_tracks in *; simp_trace;
      destruct Inv as [I1 I2];
      try (split; [exact I1 | first [exact I2 | reflexivity]]).
    + destruct I2 as [-> I2]. split; [|exact I2].
      exists a. rewrite I1. split; [assumption | reflexivity].
    + destruct I2 as [-> I2]. split; [exact I1|]. rewrite I2. intros d [].
    + split; [exact I1|]. rewrite I2. intros d [].
    + destruct I1 as (alg & Halg & ->). split; [|exact I2].
      exists alg. split; [assumption|].
      cbn [rev]. rewrite feed_snoc. reflexivity.
    + split; [exact I1|]. rewrite I2. intros d [].
    + split; [exact I1|]. rewrite I2. intros d [<- | []]. eauto.
    + split; [exact I1|]. rewrite I2. intros d [].
  - (* Expire Hasher *)
    open_state s. unfold_step.
    destruct hp; cases; unfold adapter_tracks in *; simp_trace; exact Inv.
Qed.

Lemma adapter_tracks_initial L capacity stream algo :
  adapter_tracks L (initial capacity stream algo).
Proof. unfold adapter_tracks. simpl. auto. Qed.

(** Along every schedule, whatever digest the hasher has reported is the
    [finalDigest] of the adapter fed with the logged updates, in order. *)
Lemma reported_digest L capacity stream algo sched d :
  let s := run L sched (initial capacity stream algo) in
  In d (digests (trace s)) ->
  exists alg,
    select_algorithm algo = Some alg
    /\ d = finalDigest L (feed (new_adapter alg) (rev (updates (trace s)))).
Proof.
  intros s Hd.
  assert (Inv : adapter_tracks L s /\ h_algo (hs s) = algo).
  { subst s. apply run_invariant.
    - intros c s [I Ha]. split; [apply adapter_tracks_step, I|].
      rewrite <- Ha. clear. open_state s.
      destruct c as [[|]|[|]]; unfold_step.
      + destruct rp; cases; destruct hp; reflexivity.
      + destruct hp; cases; reflexivity.
      + destruct rp; cases; destruct hp; reflexivity.
      + destruct hp; cases; reflexivity.
    - split; [apply adapter_tracks_initial | reflexivity]. }
  destruct Inv as [[I1 I2] Ha].
  destruct (h_pc (hs s)); try (rewrite I2 in Hd; destruct Hd; fail).
  - destruct I2 as [_ I2]. rewrite I2 in Hd. destruct Hd.
  - destruct (I2 d Hd) as (a & Hsome & ->).
    rewrite Hsome in I1. destruct I1 as (alg & Halg & ->).
    exists alg. rewrite <- Ha. auto.
Qed.

(** ** Digest rendering (C9) *)

(** C9, as amended.  Every digest the pipeline reports is the text of the
    adapter fed with the updates made, and it is lowercase hexadecimal
    without a sign: the 64 characters the library returns for SHA-256, and
    for the CRC-32C and xxHash values the numeral of the unsigned value,
    exact and without leading zeros, hence of at most 8 resp. 16 digits
    (not padded to that width). *)
Theorem reported_digest_is_plain_lowercase_hex
  L capacity stream algo sched d :
  let s := run L sched (initial capacity stream algo) in
  In d (digests (trace s)) ->
  exists alg a,
    select_algorithm algo = Some alg
    /\ a = feed (new_adapter alg) (rev (updates (trace s)))
    /\ d = finalDigest L a
    /\ rendered L a d.
Proof.
  intros s Hd.
  destruct (reported_digest L capacity stream algo sched d Hd)
    as (alg & Halg & Heq).
  exists alg, (feed (new_adapter alg) (rev (updates (trace s)))).
  repeat split; try assumption.
  - rewrite Heq. apply finalDigest_rendered, feed_ok, new_adapter_ok.
  - rewrite Heq. apply finalDigest_rendered, feed_ok, new_adapter_ok.
  - rewrite Heq. apply finalDigest_rendered, feed_ok, new_adapter_ok.
  - rewrite Heq. apply finalDigest_rendered, feed_ok, new_adapter_ok.
Qed.

Lemma reported_digest_is_plain_lowercase_hex_witness :
  exists alg a,
    select_algorithm "crc32c" = Some alg
    /\ a = feed (new_adapter alg)
             (rev (updates (trace (run sample_libs (in_turn 2)
                     (pipeline 5 [x31; x32; x33; x34; x35; x36; x37; x38; x39]
                               "crc32c")))))
    /\ "e3069283"%string = finalDigest sample_libs a
    /\ rendered sample_libs a "e3069283".
Proof.
  apply (@reported_digest_is_plain_lowercase_hex sample_libs 5%nat
           (file_stream 5 [x31; x32; x33; x34; x35; x36; x37; x38; x39])
           "crc32c" (in_turn 2) "e3069283"%string).
  vm_compute. left. reflexivity.
Defined.

(** The CRC-32C digest of the empty file is reported as the single digit
    "0", not as eight digits. *)
Lemma crc32c_digest_is_not_padded :
  digests (trace (run sample_libs (in_turn 0) (pipeline 4 [] "crc32c")))
  = ["0"%string]
  /\ String.length "0" <> digest_width (ACrc 0).
Proof. split; [vm_compute; reflexivity | simpl; lia]. Qed.

(** ** The consumer's handling of a published chunk (C3) *)




(** ** Ownership of the buffer *)

Ltac exclusive_cases :=
  cases;
  cbn [reader_writes hasher_holds status len dataView set_status set_len
       set_data] in *;
  split; intros Hin; try discriminate Hin;
  repeat match goal with
         | Hi : ?b = ?b -> _ |- _ => specialize (Hi eq_refl)
         | Hi : false = true -> _ |- _ => clear Hi
         | Hi : _ /\ _ |- _ => destruct Hi
         end;
  try (exfalso; first [discriminate | lia]);
  repeat split; try assumption; try reflexivity; try lia; try discriminate.

Lemma exclusive_step L c s : exclusive s -> exclusive (step L c s).
Proof.
  intros [Iw Ih]. open_state s. unfold exclusive in *. proj.
  destruct c as [[|]|[|]]; unfold_step.
  - destruct rp; cases; destruct hp; exclusive_cases.
  - destruct hp; cases; destruct rp; exclusive_cases.
  - destruct rp; cases; destruct hp; exclusive_cases.
  - destruct hp; cases; destruct rp; exclusive_cases.
Qed.

(** Along every schedule, for every stream and algorithm name, the reader's
    writes into the buffer and the hasher's reads of it exclude each other,
    and the hasher reads under the length that is in memory. *)
Lemma buffer_is_exclusive L capacity stream name sched :
  exclusive (run L sched (initial capacity stream name)).
Proof.
  apply run_invariant.
  - intros c s. apply exclusive_step.
  - unfold exclusive. cbn. split; discriminate.
Qed.

(** ** The reader's exit code (C10) *)

Ltac exit_codes :=
  cbn [In]; intros k Hin;
  repeat (destruct Hin as [Hin | Hin];
          [try discriminate; try (inversion Hin; reflexivity) |]);
  auto.

Ltac final_code :=
  proj; intros k Hk; try discriminate; try (inversion Hk; reflexivity); auto.

Lemma reader_exits_zero_step L c s :
  reader_exits_zero s -> reader_exits_zero (step L c s).
Proof.
  intros [I1 I2]. open_state s. unfold reader_exits_zero in *. proj.
  destruct c as [[|]|[|]]; unfold_step.
  - destruct rp; cases; (split; [final_code | exit_codes]).
  - destruct hp; cases; (split; [destruct rp; final_code | exit_codes]).
  - destruct rp; cases; (split; [final_code | exit_codes]).
  - destruct hp; cases; (split; [destruct rp; final_code | exit_codes]).
Qed.

Lemma reader_exits_zero_initial capacity stream algo :
  reader_exits_zero (initial capacity stream algo).
Proof. split; simpl; [discriminate | tauto]. Qed.

(** *** Termination of the reader *)

Ltac fuel_arith :=
  unfold reader_fuel, stream_fuel, budget_left; proj; cbn [List.length];
  try lia.

(** A step of the hasher leaves the reader alone, or releases its wait. *)
Lemma hasher_step_reader L c s :
  (c = Run Hasher \/ c = Expire Hasher) ->
  rd (step L c s) = rd s \/ rd (step L c s) = reader_wake (rd s).
Proof.
  intros Hc. destruct s as [m r [hp algo ad hi] tr].
  destruct Hc as [-> | ->]; unfold step, hasher_moves, hasher_run,
    hasher_expire, h_uncaught, h_goto, h_notify; proj;
    destruct hp; cases; auto.
Qed.

Lemma reader_wake_fuel r : (reader_fuel (reader_wake r) <= reader_fuel r)%nat.
Proof.
  destruct r as [rp stream ri]. unfold reader_wake. proj.
  destruct rp; fuel_arith.
Qed.

Lemma reader_fuel_step L c s :
  (reader_fuel (rd (step L c s)) <= reader_fuel (rd s))%nat.
Proof.
  destruct c as [[|]|[|]].
  2, 4:
    match goal with |- context [step _ ?c _] =>
      destruct (@hasher_step_reader L c s ltac:(auto)) as [-> | ->] end;
    [lia | apply reader_wake_fuel].
  - open_state s. unfold_step. destruct rp; cases; fuel_arith.
  - open_state s. unfold_step. destruct rp; cases; fuel_arith.
Qed.

Lemma reader_run_progress L s :
  blocked (r_pc (rd s)) = false ->
  finished (r_pc (rd s)) = false ->
  (reader_fuel (rd (step L (Run Reader) s)) < reader_fuel (rd s))%nat.
Proof.
  open_state s. proj. intros Hb Hf. unfold_step.
  destruct rp; try discriminate; cases; fuel_arith.
Qed.

Lemma reader_expire_progress L s :
  blocked (r_pc (rd s)) = true ->
  step L (Run Reader) s = s
  /\ (reader_fuel (rd (step L (Expire Reader) s)) < reader_fuel (rd s))%nat.
Proof.
  open_state s. proj. intros Hb. unfold_step.
  destruct rp; try discriminate; cases; (split; [destruct hp; reflexivity | fuel_arith]).
Qed.

Lemma reader_done_stays L c s code :
  r_pc (rd s) = RDone code -> r_pc (rd (step L c s)) = RDone code.
Proof.
  open_state s. proj. intros ->.
  destruct c as [[|]|[|]]; unfold_step; try reflexivity.
  - destruct hp; cases; reflexivity.
  - destruct hp; cases; reflexivity.
Qed.

Lemma reader_alone_finishes L n : forall s,
  (reader_fuel (rd s) <= n)%nat ->
  exists code, r_pc (rd (run L (reader_alone n) s)) = RDone code.
Proof.
  induction n as [|n IH]; intros s Hn.
  - destruct s as [m [rp stream ri] h tr]. 
    destruct rp; unfold reader_fuel, stream_fuel in Hn; cbn [rd r_pc] in Hn; try lia.
    exists code. reflexivity.
  - cbn [reader_alone]. rewrite !run_cons.
    destruct (finished (r_pc (rd s))) eqn:Hf.
    + destruct (r_pc (rd s)) eqn:Hpc; try discriminate.
      apply IH. 
      pose proof (reader_fuel_step L (Expire Reader) (step L (Run Reader) s)).
      pose proof (reader_fuel_step L (Run Reader) s). 
      assert (reader_fuel (rd s) = 0%nat) by (unfold reader_fuel; rewrite Hpc; reflexivity).
      lia.
    + apply IH.
      destruct (blocked (r_pc (rd s))) eqn:Hb.
      * destruct (reader_expire_progress L s Hb) as [-> Hlt]. lia.
      * pose proof (reader_run_progress L s Hb Hf).
        pose proof (reader_fuel_step L (Expire Reader) (step L (Run Reader) s)).
        lia.
Qed.

(** C10.  Along every schedule, for every stream (read errors included) the
    reader can only exit with code 0, which the orchestrator's exit handler
    resolves; and it does exit: left to itself from wherever it stands, it
    reaches [process.exit(0)] within [reader_fuel] statements and expired
    waits. *)
Theorem producer_exit_code_is_always_zero L capacity stream algo sched :
  let s := run L sched (initial capacity stream algo) in
  (forall code, r_pc (rd s) = RDone code ->
                code = 0 /\ on_exit code = Resolved)
  /\ (forall code, In (EvExit Reader code) (trace s) ->
                   code = 0 /\ on_exit code = Resolved)
  /\ r_pc (rd (run L (reader_alone (reader_fuel (rd s))) s)) = RDone 0.
Proof.
  intros s.
  assert (Inv : forall sched',
             reader_exits_zero (run L sched' (initial capacity stream algo))).
  { intros sched'. apply run_invariant.
    - intros c s0. apply reader_exits_zero_step.
    - apply reader_exits_zero_initial. }
  destruct (Inv sched) as [I1 I2]. fold s in I1, I2.
  split; [|split].
  - intros code Hc. rewrite (I1 code Hc). split; reflexivity.
  - intros code Hc. rewrite (I2 code Hc). split; reflexivity.
  - destruct (@reader_alone_finishes L (reader_fuel (rd s)) s (le_n _))
      as (code & Hcode).
    rewrite Hcode. f_equal.
    destruct (Inv (sched ++ reader_alone (reader_fuel (rd s)))) as [I3 _].
    rewrite run_app in I3. apply I3. exact Hcode.
Qed.

(** A read error on the first read: the reader throws, forces EOF, and
    still exits with code 0. *)
Example read_error_exits_zero :
  trace (run sample_libs [R; R; R; R] (initial 4 [ReadFailure] "sha256"))
  = [EvExit Reader 0; EvNotify Reader; EvStoreStatus Reader OnError 0 2;
     EvThrow Reader StreamError].
Proof. reflexivity. Qed.

(** ** The producer's wait for a free buffer (C5) *)

Lemma slices_cons a e t :
  slices a (e :: t) = ((if is_timed_out a e then 1 else 0) + slices a t)%nat.
Proof. unfold slices. cbn [filter]. destruct (is_timed_out a e); reflexivity. Qed.




Lemma reader_alone_choices n : Forall reader_choice (reader_alone n).
Proof.
  induction n as [|n IH]; cbn [reader_alone]; [constructor|].
  constructor; [left; reflexivity|].
  constructor; [right; reflexivity | exact IH].
Qed.






(** ** The hasher's wait for data (C6) *)

Lemma select_algorithm_name alg : select_algorithm (algorithm_name alg) = Some alg.
Proof. destruct alg; reflexivity. Qed.

Ltac first_wait_cases :=
  cases; simp_trace; cbn [status set_status] in *;
  unfold MAX_ITERATIONS in *;
  try (exfalso; first [lia | congruence]);
  repeat split; try assumption; try lia; try congruence.

Lemma first_wait_step L c s :
  hasher_choice c -> first_wait s -> first_wait (step L c s).
Proof.
  intros Hc (Hst & Hd & Halg & Hpc). open_state s. unfold first_wait in *. proj.
  destruct Hc as [-> | ->]; unfold_step.
  - destruct hp; try contradiction; first_wait_cases.
  - destruct hp; try contradiction; first_wait_cases.
Qed.

Lemma first_wait_initial capacity stream alg :
  first_wait (initial capacity stream (algorithm_name alg)).
Proof.
  unfold first_wait. cbn. rewrite select_algorithm_name.
  repeat split; congruence.
Qed.

Lemma first_wait_run L sched : forall s,
  Forall hasher_choice sched -> first_wait s -> first_wait (run L sched s).
Proof.
  induction sched as [|c sched IH]; intros s Hs Inv; [exact Inv|].
  inversion Hs; subst. rewrite run_cons.
  apply IH; [assumption|]. apply first_wait_step; assumption.
Qed.

Lemma slices_app a t1 t2 : slices a (t1 ++ t2) = (slices a t1 + slices a t2)%nat.
Proof. unfold slices. rewrite filter_app, length_app. reflexivity. Qed.

(** One more second of waiting leaves the hasher where it was, as long as
    it is within its first 100 loop iterations. *)
Lemma wait_slice_again L s :
  h_pc (hs s) = HWaitCond ->
  h_iterations (hs s) <= 100 ->
  status (mem s) = 0 ->
  let s' := run L wait_slice s in
  h_pc (hs s') = HWaitCond
  /\ h_iterations (hs s') = h_iterations (hs s)
  /\ mem s' = mem s
  /\ rd s' = rd s
  /\ trace s' = EvTimedOut Hasher 1000 :: trace s.
Proof.
  open_state s. proj. intros -> Hhi Hst. destruct m as [st ln dv].
  cbn [status] in Hst. subst st.
  unfold wait_slice, H.
  rewrite run_cons. unfold_step. cbn [status]. lit_eqb. proj.
  rewrite run_cons. unfold_step. cbn [status]. lit_eqb. proj.
  rewrite run_cons. unfold_step.
  rewrite run_cons. unfold_step. cbn [status]. lit_eqb.
  replace (hi >? 100) with false by lia. proj.
  cbn [run fold_left]. proj. auto.
Qed.

Lemma wait_slices_count L n : forall s,
  h_pc (hs s) = HWaitCond ->
  h_iterations (hs s) <= 100 ->
  status (mem s) = 0 ->
  let s' := run L (wait_slices n) s in
  h_pc (hs s') = HWaitCond
  /\ mem s' = mem s
  /\ rd s' = rd s
  /\ slices Hasher (trace s') = (n + slices Hasher (trace s))%nat
  /\ digests (trace s') = digests (trace s).
Proof.
  induction n as [|n IH]; intros s Hpc Hit Hst; [cbn; auto|].
  cbn [wait_slices]. cbv zeta. rewrite run_app.
  destruct (wait_slice_again L s Hpc Hit Hst)
    as (Hpc' & Hit' & Hm' & Hr' & Htr).
  destruct (IH (run L wait_slice s) Hpc') as (Hp & Hm & Hr & Hs & Hd).
  { lia. }
  { rewrite Hm'. exact Hst. }
  repeat split; try congruence.
  - rewrite Hs, Htr, slices_cons. cbn [is_timed_out]. lia.
  - rewrite Hd, Htr. reflexivity.
Qed.

Lemma hasher_waits_choices n : Forall hasher_choice (hasher_waits n).
Proof.
  unfold hasher_waits, startup, H. 
  repeat (constructor; [left; reflexivity|]).
  induction n as [|n IH]; cbn [wait_slices app]; [constructor|].
  unfold wait_slice, H. cbn [app].
  constructor; [left; reflexivity|].
  constructor; [left; reflexivity|].
  constructor; [right; reflexivity|].
  constructor; [left; reflexivity|]. exact IH.
Qed.

(** C6, what the code does.  With a supported algorithm and the reader
    taking no step (so that the status stays 0), the hasher never exits and
    never reports, whatever the number of its 1 s wait slices that have
    expired: [iterations] counts loop iterations, not waits, and stays 1. *)
Theorem consumer_never_gives_up_in_first_iteration L capacity stream alg :
  let start := initial capacity stream (algorithm_name alg) in
  (forall sched,
     Forall hasher_choice sched ->
     let s := run L sched start in
     (forall code, h_pc (hs s) <> HDone code)
     /\ digests (trace s) = []
     /\ status (mem s) = 0
     /\ h_iterations (hs s) <= 1)
  /\ (forall n,
        Forall hasher_choice (hasher_waits n)
        /\ slices Hasher (trace (run L (hasher_waits n) start)) = n
        /\ h_pc (hs (run L (hasher_waits n) start)) = HWaitCond).
Proof.
  intros start. split.
  - intros sched Hs s.
    destruct (first_wait_run L (s := start) Hs
                (first_wait_initial capacity stream alg))
      as (Hst & Hd & _ & Hpc).
    fold s in Hst, Hd, Hpc.
    repeat split; try assumption.
    + intros code Hcode. rewrite Hcode in Hpc. exact Hpc.
    + destruct (h_pc (hs s)); try contradiction; lia.
  - intros n. split; [apply hasher_waits_choices|].
    unfold hasher_waits. rewrite !run_app.
    set (s1 := run L [H] (run L startup start)).
    assert (Hs1 : h_pc (hs s1) = HWaitCond /\ h_iterations (hs s1) = 1
                  /\ status (mem s1) = 0 /\ trace s1 = [EvNotify Hasher; EvStoreStatus Hasher InitReady 0 0]).
    { subst s1 start. destruct alg; cbv; auto. }
    destruct Hs1 as (Hp & Hi & Hst & Htr).
    destruct (wait_slices_count L n s1 Hp) as (Hp' & _ & _ & Hsl & _);
      [lia | exact Hst |].
    split; [|exact Hp']. rewrite Hsl, Htr. cbn. lia.
Qed.

(** The other side of the same test: once 100 chunks have been consumed,
    the first wait that expires ends the hasher, after one second instead
    of a hundred. *)
Example one_slice_after_100_chunks :
  let s := run sample_libs (startup ++ handoffs 100 ++ [H] ++ wait_slice)
               (pipeline 1 (repeat x41 101) "crc32c") in
  h_iterations (hs s) = 101
  /\ slices Hasher (trace s) = 1%nat
  /\ h_pc (hs s) = HDone 1
  /\ digests (trace s) = [].
Proof.
  cbv zeta.
  split; [vm_compute; reflexivity|].
  split; [vm_compute; reflexivity|].
  split; vm_compute; reflexivity.
Qed.

(** ** An algorithm outside the supported set (C8) *)

Lemma rejected_algorithm_step L name c s :
  select_algorithm name = None ->
  rejected_algorithm name s ->
  rejected_algorithm name (step L c s)
  /\ (is_reader_choice c = false ->
      mem (step L c s) = mem s /\ rd (step L c s) = rd s).
Proof.
  intros Hnone (Ha & Hpc & Hev). open_state s. unfold rejected_algorithm in *.
  proj. subst algo.
  assert (Hpc' : hp = HStart \/ hp = HDone 1) by exact Hpc.
  destruct c as [[|]|[|]]; unfold_step.
  - split; [|discriminate].
    destruct Hpc as [-> | ->]; destruct rp; cases;
      (split; [reflexivity|]); (split; [auto|]);
      cbn [In]; intros e Hin Hag;
      repeat (destruct Hin as [<- | Hin]; [discriminate Hag|]); auto.
  - destruct Hpc as [-> | ->]; rewrite ?Hnone; proj.
    + split; [|auto]. repeat split; auto.
      cbn [In]. intros e [<- | [<- | Hin]] Hag; auto.
    + split; [|auto]. repeat split; auto.
  - split; [|discriminate].
    destruct Hpc as [-> | ->]; destruct rp; cases;
      (split; [reflexivity|]); (split; [auto|]);
      cbn [In]; intros e Hin Hag;
      repeat (destruct Hin as [<- | Hin]; [discriminate Hag|]); auto.
  - destruct Hpc as [-> | ->]; proj; (split; [|auto]); repeat split; auto.
Qed.

(** What the reader does and sees depends on the memory and on itself
    only. *)
Lemma reader_step_view L c s s' :
  is_reader_choice c = true ->
  mem s = mem s' -> rd s = rd s' ->
  mem (step L c s) = mem (step L c s') /\ rd (step L c s) = rd (step L c s').
Proof.
  intros Hc Hm Hr. destruct s as [m r h tr], s' as [m' r' h' tr'].
  cbn [mem rd] in Hm, Hr. subst m' r'.
  destruct c as [[|]|[|]]; try discriminate; unfold step, reader_moves; proj; auto.
Qed.

Lemma rejected_algorithm_run L algo sched : forall s s',
  select_algorithm algo = None ->
  rejected_algorithm algo s ->
  mem s = mem s' -> rd s = rd s' ->
  rejected_algorithm algo (run L sched s)
  /\ mem (run L sched s) = mem (run L (reader_part sched) s')
  /\ rd (run L sched s) = rd (run L (reader_part sched) s').
Proof.
  induction sched as [|c sched IH]; intros s s' Hnone Inv Hm Hr; [auto|].
  rewrite run_cons. cbn [reader_part filter].
  destruct (rejected_algorithm_step L c Hnone Inv) as [Inv' Hframe].
  destruct (is_reader_choice c) eqn:Hc.
  - rewrite run_cons.
    destruct (reader_step_view L c s s' Hc Hm Hr) as [Hm' Hr'].
    apply IH; assumption.
  - destruct (Hframe eq_refl) as [Hm' Hr'].
    apply IH; try assumption; congruence.
Qed.

(** C8, as amended.  With a name outside the supported set the hasher's
    first statement throws: it exits with code 1 (which the orchestrator
    rejects) before its start-up store and its wait loop, and it never
    stores, notifies, waits or updates, so that memory and reader are
    exactly what the reader's own steps make them.  (The reader is not held
    back: it is started regardless and does its work.) *)
Theorem unknown_algorithm_stops_the_hasher_only L capacity stream algo sched :
  select_algorithm algo = None ->
  let start := initial capacity stream algo in
  let s := run L sched start in
  (h_pc (hs s) = HStart \/ h_pc (hs s) = HDone 1)
  /\ h_pc (hs (step L (Run Hasher) s)) = HDone 1
  /\ on_exit 1 = Rejected 1
  /\ (forall e, In e (trace s) -> event_agent e = Hasher ->
                e = EvThrow Hasher (UnknownAlgorithm algo)
                \/ e = EvExit Hasher 1)
  /\ mem s = mem (run L (reader_part sched) start)
  /\ rd s = rd (run L (reader_part sched) start).
Proof.
  intros Hnone start s.
  assert (Inv0 : rejected_algorithm algo start).
  { unfold rejected_algorithm, start. cbn. repeat split; auto. intros e []. }
  destruct (@rejected_algorithm_run L algo sched start start Hnone Inv0
              eq_refl eq_refl) as ((Ha & Hpc & Hev) & Hm & Hr).
  fold s in Ha, Hpc, Hev, Hm, Hr.
  repeat split; try assumption.
  destruct s as [m r [hp al ad hi] tr]. cbn [hs h_pc h_algo] in *. subst al.
  unfold_step. destruct Hpc as [-> | ->]; rewrite ?Hnone; reflexivity.
Qed.

Lemma unknown_algorithm_stops_the_hasher_only_witness :
  let start := initial 4 [Data [x41]] "md5" in
  let s := run sample_libs [R; H; R; R] start in
  h_pc (hs s) = HDone 1
  /\ mem s = mem (run sample_libs [R; R; R] start).
Proof.
  intros start s.
  destruct (@unknown_algorithm_stops_the_hasher_only sample_libs 4%nat
              [Data [x41]] "md5" [R; H; R; R] eq_refl)
    as (_ & _ & _ & _ & Hm & _).
  split; [reflexivity | exact Hm].
Defined.

(** With the unsupported name "md5" the reader, started alongside, has
    copied the chunk into the buffer and published it when the hasher's
    dispatch throws. *)
Lemma unknown_algorithm_does_not_stop_the_reader :
  let s := run sample_libs [R; R; R; R; R; R; H]
               (pipeline 4 [x41] "md5") in
  select_algorithm "md5" = None
  /\ h_pc (hs s) = HDone 1
  /\ mem s = {| status := 1; len := 1; dataView := [x41; x00; x00; x00] |}
  /\ mem s <> mem (pipeline 4 [x41] "md5").
Proof.
  cbv zeta. repeat split; try reflexivity. cbv. discriminate.
Qed.

(** ** The empty source (C2) *)

Ltac empty_run_cases :=
  cases; simp_counts;
  repeat split; try assumption; try lia; try discriminate; try exact I;
  try contradiction.

Lemma empty_run_step L c s : empty_run s -> empty_run (step L c s).
Proof.
  intros (Hs & Hu & H1 & Hst & Hh & Hr). open_state s.
  unfold empty_run in *. proj. subst stream.
  destruct c as [[|]|[|]]; unfold_step.
  - destruct rp; try contradiction; empty_run_cases; destruct hp; auto.
  - destruct hp; try contradiction; empty_run_cases; destruct rp; auto.
  - destruct rp; try contradiction; empty_run_cases; destruct hp; auto.
  - destruct hp; try contradiction; empty_run_cases; destruct rp; auto.
Qed.

Lemma empty_run_initial capacity name : empty_run (initial capacity [] name).
Proof. unfold empty_run. cbn. repeat split; auto; discriminate. Qed.

Lemma one_shot_empty L alg : one_shot L alg [] = defined_empty_digest L alg.
Proof.
  unfold one_shot, defined_empty_digest.
  destruct alg; cbn [new_adapter hashFn finalDigest app];
    rewrite ?crc32c_nil; reflexivity.
Qed.


(** ** Producer failures (C7) *)

Lemma eof_forced_more evs t : eof_forced t -> eof_forced (evs ++ t).
Proof.
  intros (post & pre & old & e & -> & He).
  exists (evs ++ post), pre, old, e. rewrite app_assoc. auto.
Qed.

Lemma eof_forced_and_notified_more evs t :
  eof_forced_and_notified t -> eof_forced_and_notified (evs ++ t).
Proof.
  intros (post & pre & old & e & -> & Hn & He).
  exists (evs ++ post), pre, old, e. rewrite app_assoc.
  repeat split; auto. apply in_or_app. auto.
Qed.

Lemma eof_forced_notify t :
  eof_forced t -> eof_forced_and_notified (EvNotify Reader :: t).
Proof.
  intros (post & pre & old & e & -> & He).
  exists (EvNotify Reader :: post), pre, old, e.
  repeat split; auto. left. reflexivity.
Qed.

Lemma eof_forced_now old t :
  (exists e, In (EvThrow Reader e) t) ->
  eof_forced (EvStoreStatus Reader OnError old 2 :: t).
Proof. intros [e He]. exists [], t, old, e. auto. Qed.

Ltac thrown_before Hthrown :=
  let e := fresh "e" in
  let Hin := fresh "Hin" in
  destruct Hthrown as [e Hin]; cbn [In app] in Hin;
  repeat (destruct Hin as [Hin | Hin]; [discriminate Hin|]);
  exists e; exact Hin.

Lemma failure_handled_step L c s :
  failure_handled s -> failure_handled (step L c s).
Proof.
  intros Inv. open_state s. unfold failure_handled in *. proj.
  destruct c as [[|]|[|]]; unfold_step.
  - destruct rp; cases; intros Hthrown; try exact I;
      (assert (Hold : exists e, In (EvThrow Reader e) tr)
         by thrown_before Hthrown);
      specialize (Inv Hold); try contradiction.
    + apply eof_forced_now, Hold.
    + apply eof_forced_notify, Inv.
    + apply (eof_forced_and_notified_more [EvExit Reader 0]), Inv.
    + exact Inv.
  - destruct hp; cases; intros Hthrown;
      (assert (Hold : exists e, In (EvThrow Reader e) tr)
         by thrown_before Hthrown);
      specialize (Inv Hold); destruct rp; proj; try contradiction; try exact I;
      first [ exact Inv
            | apply (eof_forced_more [_]), Inv
            | apply (eof_forced_more [_; _]), Inv
            | apply (eof_forced_and_notified_more [_]), Inv
            | apply (eof_forced_and_notified_more [_; _]), Inv ].
  - destruct rp; cases; intros Hthrown; try exact I;
      (assert (Hold : exists e, In (EvThrow Reader e) tr)
         by thrown_before Hthrown);
      specialize (Inv Hold); try contradiction; exact Inv.
  - destruct hp; cases; intros Hthrown;
      (assert (Hold : exists e, In (EvThrow Reader e) tr)
         by thrown_before Hthrown);
      specialize (Inv Hold); destruct rp; proj; try contradiction; try exact I;
      first [ exact Inv
            | apply (eof_forced_more [_]), Inv
            | apply (eof_forced_more [_; _]), Inv
            | apply (eof_forced_and_notified_more [_]), Inv
            | apply (eof_forced_and_notified_more [_; _]), Inv ].
Qed.

(** Whatever made the reader throw, by the time it has exited it has stored
    status 2 after the throw and called notify after that store. *)
Lemma producer_failure_forces_eof L capacity stream name sched e code :
  let s := run L sched (initial capacity stream name) in
  In (EvThrow Reader e) (trace s) ->
  r_pc (rd s) = RDone code ->
  eof_forced_and_notified (trace s).
Proof.
  intros s He Hdone.
  assert (Inv : failure_handled s).
  { apply run_invariant.
    - intros c s0. apply failure_handled_step.
    - intros [e0 []]. }
  unfold failure_handled in Inv. rewrite Hdone in Inv. eauto.
Qed.

Ltac left_waiting_cases :=
  cases; simp_trace; cbn [status set_status finished] in *;
  unfold MAX_ITERATIONS in *;
  try (exfalso; first [lia | congruence]);
  repeat split; try assumption; try lia; try congruence.

Lemma left_waiting_step L c s : left_waiting s -> left_waiting (step L c s).
Proof.
  intros (Hst & Hfin & Hd & Hit & Hpc). open_state s.
  unfold left_waiting in *. proj.
  destruct rp; try discriminate.
  destruct c as [[|]|[|]]; unfold_step.
  - destruct hp; try contradiction; left_waiting_cases.
  - destruct hp; try contradiction; left_waiting_cases.
  - destruct hp; try contradiction; left_waiting_cases.
  - destruct hp; try contradiction; left_waiting_cases.
Qed.

(** C7, what the code does.  A read error arrives while the hasher is
    between its load of the length and its store of status 0.  The reader
    forces status 2, notifies and exits with code 0; the hasher then stores
    0 over the 2, and from there on no schedule lets it exit or report: it
    is in loop iteration 2, where expired waits are not counted. *)
Theorem consumer_left_waiting_after_producer_failure L alg :
  let start := initial 4 failing_stream (algorithm_name alg) in
  let s := run L failure_during_update start in
  In (EvThrow Reader StreamError) (trace s)
  /\ In (EvStoreStatus Reader OnError 1 2) (trace s)
  /\ In (EvNotify Reader) (trace s)
  /\ r_pc (rd s) = RDone 0
  /\ In (EvStoreStatus Hasher ConsumedReady 2 0) (trace s)
  /\ (forall sched,
        let s' := run L sched s in
        (forall code, h_pc (hs s') <> HDone code)
        /\ digests (trace s') = []
        /\ status (mem s') = 0)
  /\ (forall n,
        let s' := run L (wait_slices n) s in
        slices Hasher (trace s') = n /\ h_pc (hs s') = HWaitCond).
Proof.
  intros start s.
  assert (Hs : exists a,
             s = {| mem := {| status := 0; len := 1;
                              dataView := [x41; x00; x00; x00] |};
                    rd := {| r_pc := RDone 0; r_stream := [];
                             r_iterations := 1 |};
                    hs := {| h_pc := HWaitCond;
                             h_algo := algorithm_name alg;
                             h_adapter := Some a; h_iterations := 2 |};
                    trace := [EvNotify Hasher;
                              EvStoreStatus Hasher ConsumedReady 2 0;
                              EvUpdate [x41];
                              EvExit Reader 0; EvNotify Reader;
                              EvStoreStatus Reader OnError 1 2;
                              EvThrow Reader StreamError;
                              EvNotify Reader;
                              EvStoreStatus Reader Publish 0 1;
                              EvStoreLength 0 1; EvCopy [x41];
                              EvNotify Hasher;
                              EvStoreStatus Hasher InitReady 0 0] |}).
  { subst s start. destruct alg; eexists; cbv; reflexivity. }
  destruct Hs as (a & Hs). rewrite Hs.
  do 5 (split; [cbn; tauto|]).
  split.
  - intros sched s'.
    assert (Inv : left_waiting s').
    { apply run_invariant.
      - intros c s0. apply left_waiting_step.
      - unfold left_waiting. cbn. repeat split; lia. }
    destruct Inv as (Hst & _ & Hd & _ & Hpc).
    repeat split; try assumption.
    intros code Hcode. rewrite Hcode in Hpc. exact Hpc.
  - intros n s'.
    subst s'.
    match goal with |- context [run L (wait_slices n) ?s0] =>
      destruct (@wait_slices_count L n s0) as (Hp & _ & _ & Hsl & _) end;
      [reflexivity | cbn; lia | reflexivity |].
    split; [|exact Hp]. rewrite Hsl. cbn. lia.
Qed.

(** ** The empty source, again: the start-up store (C2) *)

(** C2, what the code does.  For an empty source and a supported
    algorithm, along every schedule [hashFn] is never called, the status is
    never set to 1, it is set to 2 at most once and exactly once when the
    reader has exited, and a digest that is reported is the algorithm's
    digest of the empty input; the run in turn reports it.  But when the
    reader is done before the hasher has started, the hasher's start-up
    store of line 51 puts status 0 over the EOF, and from there on no
    schedule lets the hasher report or exit: it waits in its first loop
    iteration, where expired waits are never counted, for any number of
    slices. *)
Theorem empty_source_may_end_without_digest L chunkSize alg :
  let start := pipeline chunkSize [] (algorithm_name alg) in
  let s0 := run L reader_first_on_empty start in
  (forall sched,
     let s := run L sched start in
     updates (trace s) = []
     /\ count_status_stores 1 (trace s) = 0%nat
     /\ (count_status_stores 2 (trace s) <= 1)%nat
     /\ (forall code, r_pc (rd s) = RDone code ->
                      count_status_stores 2 (trace s) = 1%nat)
     /\ (forall d, In d (digests (trace s)) ->
                   d = defined_empty_digest L alg))
  /\ digests (trace (run L (in_turn 0) start)) = [defined_empty_digest L alg]
  /\ r_pc (rd s0) = RDone 0
  /\ In (EvStoreStatus Reader (EndOfStream ObservedReady) 0 2) (trace s0)
  /\ In (EvNotify Reader) (trace s0)
  /\ In (EvStoreStatus Hasher InitReady 2 0) (trace s0)
  /\ (forall sched,
        let s := run L sched s0 in
        (forall code, h_pc (hs s) <> HDone code)
        /\ digests (trace s) = []
        /\ status (mem s) = 0)
  /\ (forall n,
        let s := run L ([H] ++ wait_slices n) s0 in
        slices Hasher (trace s) = n /\ h_pc (hs s) = HWaitCond).
Proof.
  intros start s0.
  assert (Hstart : start = initial chunkSize [] (algorithm_name alg)).
  { unfold start, pipeline, file_stream, chunks_of. reflexivity. }
  split.
  { intros sched s.
    assert (Inv : empty_run s).
    { unfold s. rewrite Hstart. apply run_invariant.
      - intros c s1. apply empty_run_step.
      - apply empty_run_initial. }
    destruct Inv as (_ & Hu & H1 & _ & _ & Hr).
    repeat split.
    - exact Hu.
    - exact H1.
    - destruct (r_pc (rd s)); try contradiction; lia.
    - intros code Hc. rewrite Hc in Hr. exact Hr.
    - intros d Hd. unfold s in Hd, Hu. rewrite Hstart in Hd, Hu.
      destruct (reported_digest _ _ _ _ _ _ Hd) as (alg' & Halg & ->).
      rewrite select_algorithm_name in Halg. inversion Halg; subst alg'.
      rewrite Hu. cbn [rev feed fold_left].
      destruct alg; reflexivity. }
  split.
  { rewrite Hstart. destruct alg; reflexivity. }
  assert (Hs0 : s0 = {| mem := {| status := 0; len := 0;
                                  dataView := repeat x00 chunkSize |};
                        rd := {| r_pc := RDone 0; r_stream := [];
                                 r_iterations := 0 |};
                        hs := {| h_pc := HLoopTop;
                                 h_algo := algorithm_name alg;
                                 h_adapter := Some (new_adapter alg);
                                 h_iterations := 0 |};
                        trace := [EvNotify Hasher;
                                  EvStoreStatus Hasher InitReady 2 0;
                                  EvExit Reader 0; EvNotify Reader;
                                  EvStoreStatus Reader
                                    (EndOfStream ObservedReady) 0 2] |}).
  { subst s0. rewrite Hstart. destruct alg; reflexivity. }
  rewrite Hs0.
  split; [reflexivity|].
  do 3 (split; [cbn; tauto|]).
  split.
  - intros sched s.
    assert (Inv : left_waiting s).
    { apply run_invariant.
      - intros c s1. apply left_waiting_step.
      - unfold left_waiting. cbn. repeat split; lia. }
    destruct Inv as (Hst & _ & Hd & _ & Hpc).
    repeat split; try assumption.
    intros code Hcode. rewrite Hcode in Hpc. exact Hpc.
  - intros n s. subst s. rewrite run_app.
    match goal with |- context [run L (wait_slices n) ?s1] =>
      destruct (@wait_slices_count L n s1) as (Hp & _ & _ & Hsl & _) end;
      [reflexivity | cbn; lia | reflexivity |].
    split; [|exact Hp]. rewrite Hsl. cbn. lia.
Qed.

(** ** End of stream (C4) *)

Lemma eof_stored_cons e t :
  eof_stored (e :: t) = is_reader_eof_store e || eof_stored t.
Proof. reflexivity. Qed.

Ltac eos_cases :=
  try match goal with c : eof_cause |- _ => destruct c end;
  cases; proj; rewrite ?eof_stored_cons;
  cbn [is_reader_eof_store is_publication_write orb quiet_after_eof
       status set_status set_len set_data] in *;
  repeat match goal with
         | |- Forall _ (_ :: _) => constructor
         | |- _ /\ _ => split
         | H : _ /\ _ |- _ => destruct H
         end;
  cbn [eof_store_allowed];
  try assumption; try discriminate; try exact I; try lia; auto.

Lemma end_of_stream_inv_step L c s :
  end_of_stream_inv s -> end_of_stream_inv (step L c s).
Proof.
  intros (Hall & Hq & Hpc). open_state s. unfold end_of_stream_inv in *. proj.
  destruct c as [[|]|[|]]; unfold_step.
  - destruct rp; eos_cases.
  - destruct hp; eos_cases; destruct rp; eos_cases.
  - destruct rp; eos_cases.
  - destruct hp; eos_cases; destruct rp; eos_cases.
Qed.

Lemma end_of_stream_inv_initial capacity stream name :
  end_of_stream_inv (initial capacity stream name).
Proof. unfold end_of_stream_inv. cbn. auto. Qed.

Lemma quiet_after_eof_split t :
  quiet_after_eof t ->
  forall post e pre,
    t = post ++ e :: pre ->
    is_reader_eof_store e = true ->
    forall w, In w post -> is_publication_write w = false.
Proof.
  intros Hq post. revert t Hq.
  induction post as [|p post IH]; intros t Hq e pre -> He w Hw; [destruct Hw|].
  cbn [app quiet_after_eof] in Hq. destruct Hq as [Hp Hq].
  destruct Hw as [<- | Hw].
  - destruct (is_publication_write p) eqn:E; [|reflexivity].
    specialize (Hp eq_refl). unfold eof_stored in Hp.
    rewrite existsb_app in Hp. cbn [existsb] in Hp. rewrite He in Hp.
    rewrite orb_true_r in Hp. discriminate.
  - apply (IH _ Hq e pre eq_refl He w Hw).
Qed.

(** C4, as amended.  Along every schedule, an end-of-stream store of the
    reader sets status 2 and either follows a load that returned 0, and
    then finds the status still 0, or is the forced one after a wait slice
    expired with more than 10 waits begun, or follows the 1000th wait; and
    no copy into the buffer, length store or publishing status store of the
    reader comes after any of its EOF stores. *)
Theorem end_of_stream_store L capacity stream name sched :
  let s := run L sched (initial capacity stream name) in
  (forall c old new,
     In (EvStoreStatus Reader (EndOfStream c) old new) (trace s) ->
     new = 2
     /\ match c with
        | ObservedReady => old = 0
        | ForcedAfterTimeout waitCount => 10 < waitCount <= 1000
        | WaitBudgetSpent waitCount => waitCount = 1000
        end)
  /\ (forall post e pre,
        trace s = post ++ e :: pre ->
        is_reader_eof_store e = true ->
        forall w, In w post -> is_publication_write w = false).
Proof.
  intros s.
  assert (Inv : end_of_stream_inv s).
  { apply run_invariant.
    - intros c s0. apply end_of_stream_inv_step.
    - apply end_of_stream_inv_initial. }
  destruct Inv as (Hall & Hq & _). split.
  - intros c old new Hin.
    rewrite Forall_forall in Hall. apply (Hall _ Hin).
  - apply quiet_after_eof_split, Hq.
Qed.

(** With the hasher not scheduled for eleven wait slices of the reader, the
    end-of-stream store overwrites status 1 while the chunk published has
    not been consumed; the hasher then finds status 2 and reports the digest
    of no data. *)
Lemma eof_overwrites_unconsumed_chunk :
  let start := pipeline 4 [x41] "crc32c" in
  let s := run sample_libs stalled_consumer start in
  trace s = EvStoreStatus Reader (EndOfStream (ForcedAfterTimeout 11)) 1 2
            :: trace (run sample_libs (removelast stalled_consumer) start)
  /\ status (mem (run sample_libs (removelast stalled_consumer) start)) = 1
  /\ updates (trace s) = []
  /\ digests (trace (run sample_libs [H; H; H; H] s)) = ["0"%string]
  /\ one_shot sample_libs Crc32c [x41] = "e16dcdee"%string.
Proof.
  cbv zeta.
  split; [vm_compute; reflexivity|].
  split; [vm_compute; reflexivity|].
  split; [vm_compute; reflexivity|].
  split; vm_compute; reflexivity.
Qed.

(** ** The hand-off of chunks (C1) *)

Lemma reader_at_prefix cs pre s :
  reader_at cs pre s -> exists rest, cs = pre ++ rest.
Proof.
  unfold reader_at. destruct (r_pc (rd s));
    try contradiction; intros Hr;
    repeat match goal with H : _ /\ _ |- _ => destruct H end;
    first [ eexists; eassumption | exists []; rewrite app_nil_r; assumption ].
Qed.

Lemma prefix_all (A : Type) (cs pre rest : list A) :
  cs = pre ++ rest -> (List.length cs <= List.length pre)%nat -> pre = cs.
Proof.
  intros -> Hl. rewrite length_app in Hl.
  destruct rest; [symmetry; apply app_nil_r | cbn in Hl; lia].
Qed.

Lemma kept_cons e t :
  handshake_kept (e :: t) -> handshake_event e /\ handshake_kept t.
Proof. intros Hk. inversion Hk; subst. auto. Qed.

Ltac use_kept :=
  repeat match goal with
         | Hk : handshake_kept (_ :: _) |- _ =>
             apply kept_cons in Hk; destruct Hk as [? Hk]
         end;
  cbn [handshake_event] in *.

Ltac split_all :=
  repeat match goal with
         | H : _ /\ _ |- _ => destruct H
         | H : exists _, _ |- _ => destruct H
         end.


Lemma firstn_length_app (A : Type) (a b : list A) :
  firstn (List.length a) (a ++ b) = a.
Proof.
  rewrite firstn_app, Nat.sub_diag, firstn_all. cbn. apply app_nil_r.
Qed.

Ltac lengths :=
  repeat match goal with
         | H : ?cs = ?a ++ ?b |- _ =>
             lazymatch goal with
             | _ : List.length cs = List.length (a ++ b) |- _ => fail
             | _ => pose proof (f_equal (@List.length _) H)
             end
         end;
  rewrite ?length_app in *; cbn [List.length] in *.

Ltac fin :=
  proj; split_all;
  cbn [reader_gone reader_waits hasher_saw_data hasher_holds hasher_slack
       chunks_in flat_map app status len dataView set_status set_len
       set_data] in *;
  repeat split; try assumption; try reflexivity; try discriminate;
  try (unfold MAX_ITERATIONS in *; lia); try congruence;
  try (left; assumption); try (right; assumption).

Ltac pick :=
  first [ left; solve [fin]
        | right; left; solve [fin]
        | right; right; solve [fin] ].

Ltac keep pre con :=
  exists pre, con;
  cbn [reader_gone reader_waits hasher_saw_data hasher_holds hasher_slack
       chunks_in flat_map app status len dataView set_status set_len
       set_data] in *;
  rewrite ?app_nil_r in *;
  rewrite ?updates_cons, ?digests_cons; cbn [app];
  match goal with
  | Hst : _ \/ _ \/ _ |- _ =>
      destruct Hst as [Hst | [Hst | Hst]]; split_all; lengths;
      (split; [assumption|]);
      (split; [solve [fin]|]);
      (split; [solve [fin]|]);
      (split; [solve [fin]|]);
      (split; [solve [fin]|]);
      pick
  end.

(** The invariant of the hand-off, for the chunks [cs] of a file that stays
    within the iteration cap. *)
Section Handshake.

Variable L : HashLibs.
Variable cs : list (list byte).
Hypothesis within_cap : Z.of_nat (List.length cs) <= MAX_ITERATIONS.

Lemma handshake_reader_run s :
  handshake_inv cs s ->
  handshake_kept (trace (step L (Run Reader) s)) ->
  handshake_inv cs (step L (Run Reader) s).
Proof.
  intros (pre & con & Hfed & Hr & Hcap & Hit & Hdig & Hst) Hk.
  pose proof within_cap as Hcs.
  open_state s. unfold handshake_inv, reader_at, fed in *. proj.
  revert Hk. unfold_step. 
  destruct rp; cases; intros Hk; use_kept; try contradiction;
    try (assert_succeeds (keep pre con); keep pre con).
  - (* RCopy *)
    assert (Hfit : (List.length chunk <= List.length (dataView m))%nat)
      by (apply Nat.ltb_ge; assumption).
    assert (Hlen : List.length (chunk ++ skipn (List.length chunk) (dataView m))
                   = List.length (dataView m)).
    { rewrite length_app, length_skipn. lia. }
    exists pre, con. cbn [set_data dataView status len].
    rewrite firstn_length_app, Hlen, updates_cons, digests_cons. cbn [app].
    destruct Hst as [Hst | [Hst | Hst]]; split_all; try discriminate.
    (split; [assumption|]). (split; [solve [fin]|]). (split; [solve [fin]|]).
    (split; [solve [fin]|]). (split; [solve [fin]|]). pick.
  - (* RStoreLen *)
    split_all.
    match goal with Hf : firstn _ _ = chunk |- _ => rename Hf into Hcopied end.
    assert (Hfit : (List.length chunk <= List.length (dataView m))%nat).
    { rewrite <- Hcopied at 1. rewrite length_firstn. lia. }
    assert (Hl : to_int32 (Z.of_nat (List.length chunk))
                 = Z.of_nat (List.length chunk)).
    { apply to_int32_small. lia. }
    exists pre, con. unfold announced.
    cbn [set_len dataView status len].
    rewrite Hl, Nat2Z.id, Hcopied, updates_cons, digests_cons. cbn [app].
    destruct Hst as [Hst | [Hst | Hst]]; split_all; try discriminate.
    (split; [assumption|]). (split; [solve [fin]|]). (split; [solve [fin]|]).
    (split; [solve [fin]|]). (split; [solve [fin]|]). pick.
  - (* RStoreStatus: the chunk is published *)
    split_all.
    destruct Hst as [Hst | [Hst | Hst]]; split_all; try discriminate.
    subst con.
    exists (pre ++ [announced m]), pre.
    cbn [set_status dataView status len].
    rewrite updates_cons, digests_cons, length_app, <- app_assoc.
    cbn [app List.length].
    (split; [assumption|]). (split; [solve [fin]|]). (split; [solve [fin]|]).
    (split; [solve [fin]|]). (split; [solve [fin]|]).
    right; left. unfold announced. cbn [dataView len].
    destruct hp; try discriminate; fin.
  - (* RNotify *)
    exists pre, con. rewrite updates_cons, digests_cons. cbn [app].
    destruct Hst as [Hst | [Hst | Hst]]; split_all; try discriminate;
      destruct hp; try discriminate;
      (split; [assumption|]); (split; [solve [fin]|]);
      (split; [solve [fin]|]); (split; [solve [fin]|]);
      (split; [solve [fin]|]); pick.
  - (* REofStore: status was 0 *)
    exists pre, con. rewrite updates_cons, digests_cons. cbn [app].
    destruct Hst as [Hst | [Hst | Hst]]; split_all; try lia;
      try discriminate.
    (split; [assumption|]). (split; [solve [fin]|]). (split; [solve [fin]|]).
    (split; [solve [fin]|]). (split; [solve [fin]|]).
    right; right. destruct hp; try discriminate; fin.
  - (* REofNotify *)
    exists pre, con. rewrite updates_cons, digests_cons. cbn [app].
    destruct Hst as [Hst | [Hst | Hst]]; split_all; try discriminate;
      destruct hp; try discriminate;
      (split; [assumption|]); (split; [solve [fin]|]);
      (split; [solve [fin]|]); (split; [solve [fin]|]);
      (split; [solve [fin]|]); pick.
Qed.

Lemma handshake_reader_expire s :
  handshake_inv cs s ->
  handshake_inv cs (step L (Expire Reader) s).
Proof.
  intros (pre & con & Hfed & Hr & Hcap & Hit & Hdig & Hst).
  open_state s. unfold handshake_inv, reader_at, fed in *. proj.
  unfold_step.
  destruct rp; cases; keep pre con.
Qed.

Lemma reader_waits_not_gone pc :
  reader_waits pc = true -> reader_gone pc = false.
Proof. destruct pc; try reflexivity; discriminate. Qed.

Lemma handshake_hasher_expire s :
  handshake_inv cs s ->
  handshake_inv cs (step L (Expire Hasher) s).
Proof.
  intros (pre & con & Hfed & Hr & Hcap & Hit & Hdig & Hst).
  open_state s. unfold handshake_inv, reader_at, fed in *. proj.
  unfold_step.
  destruct hp; cases; keep pre con.
Qed.

Lemma handshake_hasher_run s :
  handshake_inv cs s ->
  handshake_kept (trace (step L (Run Hasher) s)) ->
  handshake_inv cs (step L (Run Hasher) s).
Proof.
  intros (pre & con & Hfed & Hr & Hcap & Hit & Hdig & Hst) Hk.
  pose proof within_cap as Hcs.
  pose proof (reader_at_prefix _ _ _ Hr) as [rest Hrest].
  open_state s. unfold handshake_inv, fed in *. proj.
  revert Hk. unfold_step.
  destruct hp; cases; intros Hk; use_kept; try contradiction;
    try (assert_succeeds (keep pre con); keep pre con).
  - (* HInitNotify: the reader may be released *)
    exists pre, con. rewrite updates_cons, digests_cons. cbn [app].
    unfold reader_at in *. proj.
    destruct Hst as [Hst | [Hst | Hst]]; split_all; destruct rp;
      try discriminate; proj;
      (split; [assumption|]); (split; [solve [fin]|]);
      (split; [solve [fin]|]); (split; [solve [fin]|]);
      (split; [solve [fin]|]); pick.
  - (* HLoopTop at the iteration cap *)
    assert (Hall : con = cs).
    { cbn [hasher_slack] in Hit. unfold MAX_ITERATIONS in *.
      destruct Hst as [Hst | [Hst | Hst]]; split_all; lengths.
      - subst con. apply (@prefix_all _ _ _ _ Hrest). lia.
      - subst pre. lengths. lia.
      - congruence. }
    exists pre, con.
    destruct Hst as [Hst | [Hst | Hst]]; split_all;
      (split; [assumption|]); (split; [solve [fin]|]);
      (split; [solve [fin]|]); (split; [solve [fin]|]);
      (split; [solve [fin]|]); pick.
  - (* HRead: the chunk announced is passed to hashFn *)
    destruct Hst as [Hst | [Hst | Hst]]; split_all; try discriminate.
    subst l pre.
    exists (con ++ [announced m]), (con ++ [announced m]).
    rewrite updates_cons, digests_cons. cbn [app rev].
    rewrite !concat_app, Hfed, length_app. cbn [List.concat List.length].
    rewrite !app_nil_r. unfold announced at 1.
    (split; [reflexivity|]). (split; [solve [fin]|]).
    (split; [solve [fin]|]). (split; [solve [fin]|]).
    (split; [solve [fin]|]). pick.
  - (* HRead of an empty chunk: no call *)
    destruct Hst as [Hst | [Hst | Hst]]; split_all; try discriminate.
    subst l pre.
    assert (Hempty : announced m = []).
    { unfold announced. replace (Z.to_nat (len m)) with 0%nat by lia.
      reflexivity. }
    exists (con ++ [announced m]), (con ++ [announced m]).
    rewrite !concat_app, length_app, Hempty.
    cbn [List.concat List.length app]. rewrite !app_nil_r.
    (split; [assumption|]). (split; [rewrite <- Hempty; solve [fin]|]).
    (split; [solve [fin]|]). (split; [solve [fin]|]).
    (split; [solve [fin]|]). rewrite <- Hempty. pick.
  - (* the same without an adapter *)
    destruct Hst as [Hst | [Hst | Hst]]; split_all; try discriminate.
    subst l pre.
    assert (Hempty : announced m = []).
    { unfold announced. replace (Z.to_nat (len m)) with 0%nat by lia.
      reflexivity. }
    exists (con ++ [announced m]), (con ++ [announced m]).
    rewrite !concat_app, length_app, Hempty.
    cbn [List.concat List.length app]. rewrite !app_nil_r.
    (split; [assumption|]). (split; [rewrite <- Hempty; solve [fin]|]).
    (split; [solve [fin]|]). (split; [solve [fin]|]).
    (split; [solve [fin]|]). rewrite <- Hempty. pick.
  - (* HStoreReady: the buffer is given back *)
    exists pre, con. rewrite updates_cons, digests_cons. cbn [app].
    destruct Hst as [Hst | [Hst | Hst]]; split_all; try discriminate.
    match goal with Hw : reader_waits _ = true |- _ =>
      pose proof (reader_waits_not_gone _ Hw) end.
    (split; [assumption|]). (split; [solve [fin]|]).
    (split; [solve [fin]|]). (split; [solve [fin]|]).
    (split; [solve [fin]|]). pick.
  - (* HNotify: the reader may be released *)
    exists pre, con. rewrite updates_cons, digests_cons. cbn [app].
    unfold reader_at in *. proj.
    destruct Hst as [Hst | [Hst | Hst]]; split_all; destruct rp;
      try discriminate; proj;
      (split; [assumption|]); (split; [solve [fin]|]);
      (split; [solve [fin]|]); (split; [solve [fin]|]);
      (split; [solve [fin]|]); pick.
Qed.

Lemma handshake_inv_step c s :
  handshake_inv cs s ->
  handshake_kept (trace (step L c s)) ->
  handshake_inv cs (step L c s).
Proof.
  intros Inv Hk. destruct c as [[|]|[|]].
  - apply handshake_reader_run; assumption.
  - apply handshake_hasher_run; assumption.
  - apply handshake_reader_expire; assumption.
  - apply handshake_hasher_expire; assumption.
Qed.

Lemma handshake_inv_run sched : forall s,
  handshake_inv cs s ->
  handshake_kept (trace (run L sched s)) ->
  handshake_inv cs (run L sched s).
Proof.
  induction sched as [|c sched IH]; intros s Inv Hk; [exact Inv|].
  rewrite run_cons in *. apply IH; [|assumption].
  apply handshake_inv_step; [assumption |].
  rewrite trace_run in Hk. unfold handshake_kept in *.
  apply Forall_app in Hk. apply Hk.
Qed.

End Handshake.

Lemma chunks_in_data cs : chunks_in (map Data cs) = cs.
Proof.
  induction cs as [|c cs IH]; [reflexivity|].
  cbn [map chunks_in flat_map app] in *. f_equal. exact IH.
Qed.

Lemma handshake_inv_initial capacity cs name :
  Z.of_nat capacity < 2147483648 ->
  handshake_inv cs (initial capacity (map Data cs) name).
Proof.
  intros Hcap. exists [], []. unfold reader_at, fed, initial. proj.
  cbn [mem dataView status rd r_pc r_stream r_iterations hs h_pc h_iterations
       trace updates digests flat_map rev List.concat List.length app
       hasher_slack reader_gone hasher_saw_data].
  rewrite chunks_in_data, repeat_length.
  repeat split; try reflexivity; try lia. left. repeat split.
Qed.

(** *** Feeding in pieces *)

Lemma hashFn_nil a : hashFn a [] = a.
Proof.
  destruct a; cbn [hashFn]; rewrite ?app_nil_r, ?crc32c_nil; reflexivity.
Qed.

Lemma hashFn_app a x y : hashFn (hashFn a x) y = hashFn a (x ++ y).
Proof.
  destruct a; cbn [hashFn]; rewrite ?app_assoc, ?crc32c_app; reflexivity.
Qed.

Lemma feed_concat chunks : forall a, feed a chunks = hashFn a (List.concat chunks).
Proof.
  induction chunks as [|c chunks IH]; intros a; cbn [feed fold_left List.concat].
  - symmetry. apply hashFn_nil.
  - fold (feed (hashFn a c) chunks). rewrite IH. apply hashFn_app.
Qed.

(** In a run that keeps the handshake, over a file of at most
    [MAX_ITERATIONS] chunks, whatever digest is reported is the digest of
    the whole file. *)
Lemma kept_run_digest L capacity cs alg sched d :
  Z.of_nat capacity < 2147483648 ->
  Z.of_nat (List.length cs) <= MAX_ITERATIONS ->
  let s := run L sched (initial capacity (map Data cs) (algorithm_name alg)) in
  handshake_kept (trace s) ->
  In d (digests (trace s)) ->
  d = one_shot L alg (List.concat cs).
Proof.
  intros Hcap Hcs s Hk Hd.
  assert (Inv : handshake_inv cs s).
  { apply handshake_inv_run; [assumption | | assumption].
    apply handshake_inv_initial. assumption. }
  destruct Inv as (pre & con & Hfed & _ & _ & _ & Hdig & _).
  destruct (reported_digest _ _ _ _ _ _ Hd) as (alg' & Halg & Heq).
  rewrite select_algorithm_name in Halg. inversion Halg; subst alg'.
  fold s in Heq. rewrite feed_concat in Heq. fold (fed s) in Heq.
  assert (Hcon : con = cs).
  { destruct (h_pc (hs s));
      try (rewrite Hdig in Hd; destruct Hd; fail).
    - destruct Hdig as [_ Hn]. rewrite Hn in Hd. destruct Hd.
    - destruct Hdig as [Hn | Hc]; [rewrite Hn in Hd; destruct Hd | exact Hc]. }
  rewrite Heq, Hfed, Hcon. reflexivity.
Qed.
Lemma kept_more evs t :
  Forall handshake_event evs -> handshake_kept t -> handshake_kept (evs ++ t).
Proof. intros He Ht. apply Forall_app. auto. Qed.

Ltac next_step := rewrite run_cons; unfold_step;
  unfold set_status, set_len, set_data;
  cbn [status len dataView]; lit_eqb; proj.

(** One hand-off in turn. *)
Lemma handoff_run L name c rest i j a ln dv tr :
  (List.length c <= List.length dv)%nat ->
  Z.of_nat (List.length dv) < 2147483648 ->
  i < MAX_ITERATIONS ->
  j < MAX_ITERATIONS ->
  handshake_kept tr ->
  exists dv' tr',
    run L handoff (between_handoffs name (Data c :: rest) i j a ln dv tr)
    = between_handoffs name rest (i + 1) (j + 1) (hashFn a c)
        (Z.of_nat (List.length c)) dv' tr'
    /\ List.length dv' = List.length dv
    /\ handshake_kept tr'
    /\ digests tr' = digests tr.
Proof.
  intros Hfit Hcap Hi Hj Hk.
  unfold between_handoffs, handoff, R, H.
  next_step. replace (i + 1 >? MAX_ITERATIONS) with false by lia.
  next_step. change (0 <? 1000) with true. cbn [negb andb].
  change (0 >=? 1000) with false. proj.
  next_step. replace (List.length dv <? List.length c)%nat with false
    by (symmetry; apply Nat.ltb_ge; exact Hfit).
  proj.
  next_step. rewrite to_int32_small by lia.
  next_step.
  next_step.
  next_step. replace (j <? MAX_ITERATIONS) with true by lia. proj.
  next_step.
  next_step.
  next_step.
  next_step. rewrite Nat2Z.id, firstn_length_app.
  destruct (Z.of_nat (List.length c) >? 0) eqn:E; proj.
  - next_step. next_step.
    eexists _, _. split; [reflexivity|].
    rewrite length_app, length_skipn.
    split; [lia|]. split; [|reflexivity].
    repeat (apply Forall_cons; [cbn; auto|]). exact Hk.
  - next_step. next_step.
    assert (Hnil : c = []) by (destruct c; [reflexivity | cbn in E; lia]).
    subst c. rewrite hashFn_nil.
    eexists _, _. split; [reflexivity|].
    rewrite length_app, length_skipn.
    split; [cbn; lia|]. split; [|reflexivity].
    repeat (apply Forall_cons; [cbn; auto|]). exact Hk.
Qed.

Lemma handoffs_run L name front : forall rest i j a ln dv tr,
  Forall (fun c => (List.length c <= List.length dv)%nat) front ->
  Z.of_nat (List.length dv) < 2147483648 ->
  i + Z.of_nat (List.length front) <= MAX_ITERATIONS ->
  j + Z.of_nat (List.length front) <= MAX_ITERATIONS ->
  handshake_kept tr ->
  exists ln' dv' tr',
    run L (handoffs (List.length front))
        (between_handoffs name (map Data front ++ rest) i j a ln dv tr)
    = between_handoffs name rest (i + Z.of_nat (List.length front))
        (j + Z.of_nat (List.length front)) (feed a front) ln' dv' tr'
    /\ List.length dv' = List.length dv
    /\ handshake_kept tr'
    /\ digests tr' = digests tr.
Proof.
  induction front as [|c front IH]; intros rest i j a ln dv tr Hfit Hcap Hi Hj Hk.
  - exists ln, dv, tr. cbn [List.length handoffs map app feed fold_left run].
    rewrite !Z.add_0_r. auto.
  - inversion Hfit as [|c' front' Hc Hfront]; subst.
    cbn [List.length] in Hi, Hj.
    cbn [List.length handoffs map app]. rewrite run_app.
    destruct (@handoff_run L name c (map Data front ++ rest) i j a ln dv tr)
      as (dv1 & tr1 & Hrun & Hlen & Hk1 & Hd1); try assumption; try lia.
    rewrite Hrun.
    destruct (IH rest (i + 1) (j + 1) (hashFn a c)
                 (Z.of_nat (List.length c)) dv1 tr1)
      as (ln2 & dv2 & tr2 & Hrun2 & Hlen2 & Hk2 & Hd2);
      try assumption; try lia.
    { rewrite Hlen. exact Hfront. }
    exists ln2, dv2, tr2. rewrite Hrun2.
    replace (i + 1 + Z.of_nat (List.length front))
      with (i + Z.of_nat (S (List.length front))) by lia.
    replace (j + 1 + Z.of_nat (List.length front))
      with (j + Z.of_nat (S (List.length front))) by lia.
    repeat split; try congruence.
Qed.

Lemma startup_run L capacity stream alg :
  run L startup (initial capacity stream (algorithm_name alg))
  = between_handoffs (algorithm_name alg) stream 0 0 (new_adapter alg) 0
      (repeat x00 capacity)
      [EvNotify Hasher; EvStoreStatus Hasher InitReady 0 0].
Proof. destruct alg; reflexivity. Qed.

(** The end of the run in turn: the reader signals EOF on a free buffer and
    exits, and the hasher reports what it has accumulated. *)
Lemma finish_run L name stream i j a ln dv tr :
  reader_stops stream i ->
  handshake_kept tr ->
  let s := run L finish (between_handoffs name stream i j a ln dv tr) in
  digests (trace s) = finalDigest L a :: digests tr
  /\ handshake_kept (trace s)
  /\ r_pc (rd s) = RDone 0
  /\ h_pc (hs s) = HDone 0.
Proof.
  intros Hstop Hk. cbv zeta.
  unfold between_handoffs, finish, R, H.
  assert (Hfetch :
    step L (Run Reader)
      {| mem := {| status := 0; len := ln; dataView := dv |};
         rd := {| r_pc := RNext; r_stream := stream; r_iterations := i |};
         hs := {| h_pc := HLoopTop; h_algo := name; h_adapter := Some a;
                  h_iterations := j |};
         trace := tr |}
    = {| mem := {| status := 0; len := ln; dataView := dv |};
         rd := {| r_pc := REofCond 0;
                  r_stream := tl stream;
                  r_iterations := match stream with [] => i | _ => i + 1 end |};
         hs := {| h_pc := HLoopTop; h_algo := name; h_adapter := Some a;
                  h_iterations := j |};
         trace := tr |}).
  { destruct Hstop as [-> | (c & rest & -> & Hi)]; unfold_step; [reflexivity|].
    replace (i + 1 >? MAX_ITERATIONS) with true by lia. reflexivity. }
  rewrite run_cons, Hfetch.
  next_step. change (0 <? 1000) with true. cbn [negb andb]. proj.
  next_step. next_step. next_step.
  destruct (j <? MAX_ITERATIONS) eqn:E.
  - next_step. rewrite E. proj.
    next_step. next_step. next_step.
    cbn [run fold_left]. proj. rewrite !digests_cons. cbn [app].
    repeat split.
    repeat (apply Forall_cons; [cbn; auto|]). exact Hk.
  - next_step. rewrite E. proj.
    next_step. next_step. next_step.
    cbn [run fold_left]. proj. rewrite !digests_cons. cbn [app].
    repeat split.
    repeat (apply Forall_cons; [cbn; auto|]). exact Hk.
Qed.

(** The run in turn over a file whose chunks fit the buffer: it keeps the
    handshake and reports the digest of the chunks handed over, which are
    all of them unless the iteration cap cuts the stream short. *)
Lemma in_turn_run L capacity alg front rest :
  Forall (fun c => (List.length c <= capacity)%nat) front ->
  Z.of_nat capacity < 2147483648 ->
  Z.of_nat (List.length front) <= MAX_ITERATIONS ->
  reader_stops (map Data rest) (Z.of_nat (List.length front)) ->
  let s := run L (in_turn (List.length front))
               (initial capacity (map Data (front ++ rest))
                        (algorithm_name alg)) in
  digests (trace s) = [finalDigest L (feed (new_adapter alg) front)]
  /\ handshake_kept (trace s)
  /\ r_pc (rd s) = RDone 0
  /\ h_pc (hs s) = HDone 0.
Proof.
  intros Hfit Hcap Hn Hstop. cbv zeta.
  unfold in_turn. rewrite !run_app, startup_run, map_app.
  destruct (@handoffs_run L (algorithm_name alg) front (map Data rest) 0 0
              (new_adapter alg) 0 (repeat x00 capacity)
              [EvNotify Hasher; EvStoreStatus Hasher InitReady 0 0])
    as (ln & dv & tr & Hrun & Hlen & Hk & Hd); try lia.
  { rewrite repeat_length. exact Hfit. }
  { rewrite repeat_length. exact Hcap. }
  { repeat (apply Forall_cons; [cbn; auto|]). constructor. }
  rewrite Hrun. cbn [Z.add] in *.
  destruct (@finish_run L (algorithm_name alg) (map Data rest)
              (Z.of_nat (List.length front)) (Z.of_nat (List.length front))
              (feed (new_adapter alg) front) ln dv tr Hstop Hk)
    as (Hdig & Hk' & Hr & Hh).
  rewrite Hdig, Hd. auto.
Qed.

(** *** The chunks of a file *)

Lemma chunks_of_fuel_concat fuel chunkSize : forall input,
  (0 < chunkSize)%nat ->
  (List.length input <= fuel)%nat ->
  List.concat (chunks_of_fuel fuel chunkSize input) = input.
Proof.
  induction fuel as [|fuel IH]; intros input Hn Hl.
  - destruct input; [reflexivity | cbn in Hl; lia].
  - destruct input as [|b input]; [reflexivity|].
    cbn [chunks_of_fuel List.concat]. rewrite IH.
    + apply firstn_skipn.
    + assumption.
    + rewrite length_skipn. cbn [List.length] in *. lia.
Qed.

Lemma chunks_of_concat chunkSize input :
  (0 < chunkSize)%nat -> List.concat (chunks_of chunkSize input) = input.
Proof. intros Hn. apply chunks_of_fuel_concat; [assumption | lia]. Qed.

Lemma chunks_of_fuel_fit fuel chunkSize : forall input,
  Forall (fun c => (List.length c <= chunkSize)%nat)
         (chunks_of_fuel fuel chunkSize input).
Proof.
  induction fuel as [|fuel IH]; intros input; [constructor|].
  destruct input as [|b input]; [constructor|].
  cbn [chunks_of_fuel]. constructor; [|apply IH].
  rewrite length_firstn. lia.
Qed.

Lemma chunks_of_fuel_one fuel : forall input,
  (List.length input <= fuel)%nat ->
  chunks_of_fuel fuel 1 input = map (fun b => [b]) input.
Proof.
  induction fuel as [|fuel IH]; intros input Hl.
  - destruct input; [reflexivity | cbn in Hl; lia].
  - destruct input as [|b input]; [reflexivity|].
    cbn [chunks_of_fuel firstn skipn map]. f_equal.
    apply IH. cbn in Hl. lia.
Qed.

Lemma concat_singletons (input : list byte) :
  List.concat (map (fun b => [b]) input) = input.
Proof.
  induction input as [|b input IH]; [reflexivity|].
  cbn [map List.concat app]. f_equal. exact IH.
Qed.

(** When the handshake is kept.  For a file of at most [MAX_ITERATIONS]
    chunks, a supported algorithm and a positive chunk size below 2^31: in
    every run in which the reader does not fail and the hasher's start-up
    store and the reader's end-of-stream store find status 0, any digest
    reported is the digest of the whole input fed in one call; and the run
    in which the workers take turns is such a run and reports it. *)
Lemma chunked_digest_is_one_shot_digest L chunkSize input alg :
  (0 < chunkSize)%nat ->
  Z.of_nat chunkSize < 2147483648 ->
  Z.of_nat (List.length (chunks_of chunkSize input)) <= MAX_ITERATIONS ->
  let start := pipeline chunkSize input (algorithm_name alg) in
  (forall sched d,
     let s := run L sched start in
     handshake_kept (trace s) ->
     In d (digests (trace s)) ->
     d = one_shot L alg input)
  /\ (let s := run L (in_turn (List.length (chunks_of chunkSize input)))
                   start in
      handshake_kept (trace s)
      /\ digests (trace s) = [one_shot L alg input]).
Proof.
  intros Hpos Hcap Hmax start. split.
  - intros sched d s Hk Hd.
    rewrite <- (chunks_of_concat input Hpos).
    apply (@kept_run_digest L chunkSize (chunks_of chunkSize input) alg
             sched d Hcap Hmax Hk Hd).
  - destruct (@in_turn_run L chunkSize alg (chunks_of chunkSize input) [])
      as (Hd & Hk & _); try assumption.
    + apply chunks_of_fuel_fit.
    + left. reflexivity.
    + rewrite app_nil_r in Hd, Hk. split; [exact Hk|].
      unfold start, pipeline, file_stream. rewrite Hd.
      rewrite feed_concat, chunks_of_concat by assumption. reflexivity.
Qed.

Lemma chunked_digest_is_one_shot_digest_example :
  let input := [x31; x32; x33; x34; x35; x36; x37; x38; x39] in
  let s := run sample_libs (in_turn (List.length (chunks_of 5 input)))
               (pipeline 5 input (algorithm_name Crc32c)) in
  handshake_kept (trace s)
  /\ digests (trace s) = [one_shot sample_libs Crc32c input].
Proof.
  intros input.
  apply (@chunked_digest_is_one_shot_digest sample_libs 5%nat input Crc32c).
  - lia.
  - lia.
  - vm_compute. discriminate.
Defined.

(** With chunks of one byte and a file one byte longer than the iteration
    cap, the run in turn keeps the handshake and reports the digest of the
    file without its last byte. *)
Lemma iteration_cap_run L alg (front : list byte) (b : byte) :
  Z.of_nat (List.length front) = MAX_ITERATIONS ->
  let s := run L (in_turn (List.length front))
               (pipeline 1 (front ++ [b]) (algorithm_name alg)) in
  handshake_kept (trace s)
  /\ digests (trace s) = [one_shot L alg front].
Proof.
  intros Hn.
  set (chunks := map (fun x : byte => [x]) front).
  assert (Hcs : chunks_of 1 (front ++ [b]) = chunks ++ [[b]]).
  { unfold chunks_of. rewrite chunks_of_fuel_one by apply Nat.le_refl.
    unfold chunks. rewrite map_app. reflexivity. }
  assert (Hlen : List.length chunks = List.length front).
  { unfold chunks. apply length_map. }
  destruct (@in_turn_run L 1%nat alg chunks [[b]]) as (Hd & Hk & _).
  - unfold chunks. apply Forall_forall. intros c Hc.
    apply in_map_iff in Hc. destruct Hc as (x & <- & _). apply Nat.le_refl.
  - reflexivity.
  - rewrite Hlen, Hn. apply Z.le_refl.
  - right. exists [b], []. split; [reflexivity|].
    rewrite Hlen, Hn. apply Z.le_refl.
  - rewrite Hlen, <- Hcs in Hd, Hk. cbv zeta.
    split; [exact Hk|].
    unfold pipeline, file_stream. rewrite Hd. f_equal.
    rewrite feed_concat. unfold chunks. rewrite concat_singletons.
    reflexivity.
Qed.

(** The CRC register stays 0 over zero bytes. *)
Lemma crc_register_zero n : fold_left crc_byte (repeat x00 n) 0 = 0.
Proof.
  induction n as [|n IH]; [reflexivity|].
  cbn [repeat fold_left]. change (crc_byte 0 x00) with 0. exact IH.
Qed.

Lemma crc32c_ff_zeros n :
  fold_left crc_byte ([xff; xff; xff; xff] ++ repeat x00 n) (Z.lxor 0 mask32)
  = 0.
Proof.
  rewrite fold_left_app.
  change (fold_left crc_byte [xff; xff; xff; xff] (Z.lxor 0 mask32)) with 0.
  apply crc_register_zero.
Qed.

(** With chunks of one byte, a file of 1,000,001 bytes exceeds the
    iteration cap of line 22: the reader leaves its loop at the last chunk,
    and the run in turn, which keeps the handshake, reports the CRC-32C of
    the first 1,000,000 bytes, which is not that of the file.  (The file
    is four bytes ff, 999,996 bytes 00 and a byte 41: the CRC register is 0
    after the first four bytes and stays so over the zeros.) *)
Lemma iteration_cap_truncates_the_digest :
  let front := [xff; xff; xff; xff] ++ repeat x00 (Z.to_nat 999996) in
  let input := front ++ [x41] in
  let s := run sample_libs (in_turn (List.length front))
               (pipeline 1 input (algorithm_name Crc32c)) in
  Z.of_nat (List.length front) = 1000000
  /\ handshake_kept (trace s)
  /\ digests (trace s) = ["ffffffff"%string]
  /\ one_shot sample_libs Crc32c input = "4cef6140"%string.
Proof.
  cbv zeta.
  assert (Hn : Z.of_nat (List.length ([xff; xff; xff; xff]
                                        ++ repeat x00 (Z.to_nat 999996)))
               = MAX_ITERATIONS).
  { rewrite length_app, repeat_length, Nat2Z.inj_add, Z2Nat.id by discriminate.
    reflexivity. }
  split; [exact Hn|].
  destruct (@iteration_cap_run sample_libs Crc32c _ x41 Hn) as [Hk Hd].
  split; [exact Hk|].
  split.
  - apply (eq_trans Hd). apply (f_equal (fun d => [d])).
    unfold one_shot. cbn [new_adapter hashFn finalDigest]. unfold crc32c.
    rewrite crc32c_ff_zeros. reflexivity.
  - unfold one_shot. cbn [new_adapter hashFn finalDigest]. unfold crc32c.
    rewrite fold_left_app, crc32c_ff_zeros. reflexivity.
Qed.

(** ** The start-up store (C1) *)

Lemma step_add_trace L c t s :
  step L c (add_trace t s) = add_trace t (step L c s).
Proof.
  destruct c as [[|]|[|]];
    unfold step, add_trace, reader_moves, hasher_moves;
    cbn [mem rd hs trace]; rewrite app_assoc; reflexivity.
Qed.

Lemma run_add_trace L sched : forall t s,
  run L sched (add_trace t s) = add_trace t (run L sched s).
Proof.
  induction sched as [|c sched IH]; intros t s; [reflexivity|].
  rewrite !run_cons, step_add_trace. apply IH.
Qed.

Lemma trace_add_trace t s : trace (add_trace t s) = trace s ++ t.
Proof. reflexivity. Qed.

Lemma rd_add_trace t s : rd (add_trace t s) = rd s.
Proof. reflexivity. Qed.

Lemma hs_add_trace t s : hs (add_trace t s) = hs s.
Proof. reflexivity. Qed.

Lemma publish_then_startup L capacity alg c rest :
  (List.length c <= capacity)%nat ->
  Z.of_nat capacity < 2147483648 ->
  run L ([R; R; R; R; R; R] ++ startup)
      (initial capacity (map Data (c :: rest)) (algorithm_name alg))
  = add_trace
      [EvNotify Hasher; EvStoreStatus Hasher InitReady 1 0;
       EvNotify Reader; EvStoreStatus Reader Publish 0 1;
       EvStoreLength 0 (Z.of_nat (List.length c)); EvCopy c]
      (between_handoffs (algorithm_name alg) (map Data rest) 1 0
         (new_adapter alg) (Z.of_nat (List.length c))
         (c ++ skipn (List.length c) (repeat x00 capacity)) []).
Proof.
  intros Hfit Hcap. unfold initial, startup, R, H, between_handoffs, add_trace.
  cbn [map app].
  next_step. change (0 + 1 >? MAX_ITERATIONS) with false. proj.
  next_step. change (0 <? 1000) with true. cbn [negb andb].
  change (0 >=? 1000) with false. proj.
  next_step. rewrite repeat_length.
  replace (capacity <? List.length c)%nat with false
    by (symmetry; apply Nat.ltb_ge; exact Hfit).
  proj.
  next_step. rewrite to_int32_small by lia.
  next_step.
  next_step.
  next_step. rewrite select_algorithm_name. proj.
  next_step.
  next_step.
  reflexivity.
Qed.

(** C1, what the code does.  The hasher's start-up store of line 51 is
    unconditional.  When the reader has published the first chunk of the
    file before the hasher executes it, the store puts status 0 over the
    publication (status 1), the reader takes the buffer for free, and the
    two workers then hand over the remaining chunks in turn: both exit
    with code 0 and the digest reported is that of the file without its
    first chunk.  This holds for every supported algorithm, every buffer
    size below 2^31 and every file of at most [MAX_ITERATIONS] chunks that
    fit the buffer. *)
Theorem startup_store_loses_the_first_chunk L capacity alg c rest :
  Forall (fun x => (List.length x <= capacity)%nat) (c :: rest) ->
  Z.of_nat capacity < 2147483648 ->
  Z.of_nat (List.length (c :: rest)) <= MAX_ITERATIONS ->
  let start := initial capacity (map Data (c :: rest)) (algorithm_name alg) in
  let s := run L (first_chunk_before_startup (List.length rest)) start in
  In (EvStoreStatus Reader Publish 0 1) (trace s)
  /\ In (EvStoreStatus Hasher InitReady 1 0) (trace s)
  /\ digests (trace s) = [one_shot L alg (List.concat rest)]
  /\ r_pc (rd s) = RDone 0
  /\ h_pc (hs s) = HDone 0.
Proof.
  intros Hfit Hcap Hmax. cbv zeta.
  inversion Hfit as [|c' rest' Hc Hrest]; subst.
  cbn [List.length] in Hmax.
  unfold first_chunk_before_startup.
  rewrite app_assoc, run_app, publish_then_startup by assumption.
  rewrite run_add_trace, run_app.
  assert (Hlen : List.length (c ++ skipn (List.length c) (repeat x00 capacity))
                 = capacity).
  { rewrite length_app, length_skipn, repeat_length. lia. }
  destruct (@handoffs_run L (algorithm_name alg) rest [] 1 0
              (new_adapter alg) (Z.of_nat (List.length c))
              (c ++ skipn (List.length c) (repeat x00 capacity)) [])
    as (ln & dv & tr & Hrun & _ & Hk & Hd).
  { rewrite Hlen. exact Hrest. }
  { rewrite Hlen. exact Hcap. }
  { lia. }
  { lia. }
  { constructor. }
  rewrite app_nil_r in Hrun. rewrite Hrun.
  destruct (@finish_run L (algorithm_name alg) [] (1 + Z.of_nat (List.length rest))
              (0 + Z.of_nat (List.length rest))
              (feed (new_adapter alg) rest) ln dv tr (or_introl eq_refl) Hk)
    as (Hdig & _ & Hr & Hh).
  rewrite trace_add_trace, rd_add_trace, hs_add_trace.
  split; [apply in_or_app; right; do 3 right; left; reflexivity|].
  split; [apply in_or_app; right; right; left; reflexivity|].
  split.
  { rewrite digests_app, Hdig, Hd. cbn [digests flat_map app].
    rewrite feed_concat. reflexivity. }
  split; [exact Hr | exact Hh].
Qed.

(** The file 41 42 read in chunks of one byte with CRC-32C: the digest
    reported is that of the byte 42, not that of the file. *)
Lemma startup_store_loses_the_first_chunk_witness :
  let s := run sample_libs (first_chunk_before_startup 1)
               (pipeline 1 [x41; x42] "crc32c") in
  digests (trace s) = ["f23d3e1a"%string]
  /\ one_shot sample_libs Crc32c [x41; x42] = "bd9444ea"%string
  /\ r_pc (rd s) = RDone 0
  /\ h_pc (hs s) = HDone 0.
Proof.
  intros s.
  destruct (@startup_store_loses_the_first_chunk sample_libs 1%nat Crc32c
              [x41] [[x42]])
    as (_ & _ & Hd & Hr & Hh).
  - repeat constructor.
  - reflexivity.
  - discriminate.
  - split; [exact Hd|]. split; [reflexivity|]. split; [exact Hr | exact Hh].
Defined.

(** * Beyond the claims: more of the two workers *)

(** X1.  In every interleaving of the two workers, for every stream and
    algorithm name, the buffer is used by one worker at a time: while the
    reader is between its copy into the buffer and its publishing store
    (lines 47-51) the status is 0 and the hasher is not between its load of
    the length and its store of status 0 (lines 90-98); and while the
    hasher is there, the status is not 0, the reader is not writing, and
    the length under which the hasher reads is the one in memory. *)
Theorem buffer_is_never_shared L capacity stream name sched :
  let s := run L sched (initial capacity stream name) in
  (reader_writes (r_pc (rd s)) = true ->
   status (mem s) = 0 /\ hasher_holds (h_pc (hs s)) = false)
  /\ (hasher_holds (h_pc (hs s)) = true ->
      status (mem s) <> 0
      /\ reader_writes (r_pc (rd s)) = false
      /\ match h_pc (hs s) with
         | HRead l => l = len (mem s)
         | _ => True
         end).
Proof.
  intros s.
  assert (Inv : exclusive s).
  { apply run_invariant.
    - intros c s0. apply exclusive_step.
    - unfold exclusive. cbn. split; discriminate. }
  exact Inv.
Qed.

(** ** What the two workers never do *)

Lemma reader_throws_cons e t :
  reader_throws (e :: t)
  = match e with EvThrow Reader x => [x] | _ => [] end ++ reader_throws t.
Proof. reflexivity. Qed.

Lemma hasher_exits_cons e t :
  hasher_exits (e :: t)
  = match e with EvExit Hasher code => [code] | _ => [] end ++ hasher_exits t.
Proof. reflexivity. Qed.

Ltac never_cases :=
  cases;
  rewrite ?reader_throws_cons, ?hasher_exits_cons, ?digests_cons;
  cbn [app existsb forallb is_premature_eof is_reader_timeout past_eof_store
       chunk_in_hand status len dataView set_status set_len set_data orb andb
       List.length] in *;
  lit_eqb.

Lemma eof_is_the_readers_step L c s :
  eof_is_the_readers s -> eof_is_the_readers (step L c s).
Proof.
  intros [I1 I2]. open_state s. unfold eof_is_the_readers in *. proj.
  destruct c as [[|]|[|]]; unfold_step.
  - destruct rp; never_cases;
      (split; [first [reflexivity | intros; lia | exact I1
                     | intros Hs; apply I1 in Hs; discriminate Hs]
              | try exact I2]).
    all: try (rewrite Z.eqb_eq in *; match goal with Hs : _ = 2 |- _ =>
                apply I1 in Hs; discriminate Hs end).
  - destruct hp; never_cases;
      (split; [first [intros; lia | exact I1 | destruct rp; exact I1]
              | try exact I2]).
  - destruct rp; never_cases;
      (split; [first [reflexivity | intros; lia | exact I1] | try exact I2]).
  - destruct hp; never_cases;
      (split; [first [intros; lia | exact I1 | destruct rp; exact I1]
              | try exact I2]).
Qed.

Ltac readable_cases I4 :=
  never_cases;
  repeat match goal with
         | Hf : Forall _ (_ :: _) |- _ => inversion Hf; subst; clear Hf
         end;
  cbn [fits] in *; try contradiction;
  repeat match goal with
         | Hb : (_ <? _)%nat = true |- _ => apply Nat.ltb_lt in Hb
         | Hb : (_ <? _)%nat = false |- _ => apply Nat.ltb_ge in Hb
         end;
  try (exfalso; lia);
  repeat split; try assumption; try reflexivity; try constructor;
  try (intros; lia);
  try (rewrite length_app, length_skipn; lia);
  try (rewrite Z.eqb_eq in *; match goal with Hs : _ = 2 |- _ =>
         apply I4 in Hs; discriminate Hs end).

Lemma readable_step L capacity c s :
  readable capacity s -> readable capacity (step L c s).
Proof.
  intros (I1 & I2 & I3 & I4 & I5). open_state s. unfold readable in *. proj.
  destruct c as [[|]|[|]]; unfold_step.
  - destruct rp; readable_cases I4.
  - destruct hp; never_cases; destruct rp; readable_cases I4.
  - destruct rp; readable_cases I4.
  - destruct hp; never_cases; destruct rp; readable_cases I4.
Qed.

Lemma file_stream_fits chunkSize input :
  Forall (fits chunkSize) (file_stream chunkSize input).
Proof.
  unfold file_stream. apply Forall_forall. intros r Hr.
  apply in_map_iff in Hr. destruct Hr as (c & <- & Hc).
  pose proof (chunks_of_fuel_fit (List.length input) chunkSize input) as Hfit.
  rewrite Forall_forall in Hfit. apply Hfit, Hc.
Qed.

(** X2.  Along every schedule, for every stream, buffer and algorithm name,
    the reader never throws [Hasher signaled EOF prematurely]: status 2 is
    stored by the reader alone, after its loop.  And when the stream is a
    readable file cut at the size of the buffer, as the orchestrator sets
    it up, the only exception the reader ever throws is the timeout of
    line 43. *)
Theorem reader_fails_only_by_timeout L sched :
  (forall capacity stream name,
     existsb is_premature_eof
       (reader_throws (trace (run L sched (initial capacity stream name))))
     = false)
  /\ (forall chunkSize input name,
        forallb is_reader_timeout
          (reader_throws (trace (run L sched (pipeline chunkSize input name))))
        = true).
Proof.
  split.
  - intros capacity stream name.
    assert (Inv : eof_is_the_readers
                    (run L sched (initial capacity stream name))).
    { apply run_invariant.
      - intros c s. apply eof_is_the_readers_step.
      - split; [discriminate | reflexivity]. }
    apply Inv.
  - intros chunkSize input name.
    assert (Inv : readable chunkSize
                    (run L sched (pipeline chunkSize input name))).
    { apply run_invariant.
      - intros c s. apply readable_step.
      - unfold readable, pipeline, initial. proj. cbn [status dataView].
        rewrite repeat_length.
        repeat split; try discriminate.
        + apply file_stream_fits.
        + cbn. lia. }
    apply Inv.
Qed.

Lemma exit_matches_report_step L c s :
  exit_matches_report s -> exit_matches_report (step L c s).
Proof.
  intros Inv. open_state s. unfold exit_matches_report in *. proj.
  destruct c as [[|]|[|]]; unfold_step.
  - destruct rp; never_cases; destruct hp; proj; never_cases; exact Inv.
  - destruct hp; never_cases; try exact Inv;
      destruct Inv as [-> ->]; split; eauto.
  - destruct rp; never_cases; destruct hp; proj; never_cases; exact Inv.
  - destruct hp; never_cases; exact Inv.
Qed.

(** X3.  Along every schedule, for every stream and algorithm name, the
    hasher exits at most once and reports at most one digest; it has exited
    with code 0, which the orchestrator's handler resolves, exactly when it
    has reported a digest, and with code 1, which the handler rejects, only
    without one. *)
Theorem hasher_exit_code_tells_the_report L capacity stream name sched :
  let s := run L sched (initial capacity stream name) in
  match hasher_exits (trace s) with
  | [] => digests (trace s) = [] /\ forall code, h_pc (hs s) <> HDone code
  | [code] =>
      h_pc (hs s) = HDone code
      /\ ((code = 0 /\ on_exit code = Resolved
           /\ exists d, digests (trace s) = [d])
          \/ (code = 1 /\ on_exit code = Rejected 1
              /\ digests (trace s) = []))
  | _ => False
  end.
Proof.
  intros s.
  assert (Inv : exit_matches_report s).
  { apply run_invariant.
    - intros c s0. apply exit_matches_report_step.
    - split; reflexivity. }
  unfold exit_matches_report in Inv.
  destruct (h_pc (hs s)) eqn:Hpc;
    try (destruct Inv as [-> ->]; split; [reflexivity | discriminate]).
  destruct Inv as [-> [(-> & Hd) | (-> & Hd)]]; split; auto.
Qed.

(** ** The hasher's timeout after 100 chunks *)

Lemma stall_run L name stream i a ln dv tr :
  handshake_kept tr ->
  let s := run L ([H] ++ wait_slice)
               (between_handoffs name stream i 100 a ln dv tr) in
  h_pc (hs s) = HDone 1
  /\ h_iterations (hs s) = 101
  /\ trace s = [EvExit Hasher 1; EvTimedOut Hasher 1000] ++ tr
  /\ rd s = {| r_pc := RNext; r_stream := stream; r_iterations := i |}
  /\ status (mem s) = 0.
Proof.
  intros Hk. cbv zeta. unfold between_handoffs, wait_slice, H.
  cbn [app].
  next_step. change (100 <? MAX_ITERATIONS) with true. proj.
  next_step. next_step. next_step. next_step.
  change (100 + 1 >? 100) with true. proj.
  cbn [run fold_left]. proj. auto.
Qed.
Lemma late_data_run L name c rest i a ln dv tr :
  (List.length c <= List.length dv)%nat ->
  Z.of_nat (List.length dv) < 2147483648 ->
  i < MAX_ITERATIONS ->
  let s := run L late_data
               (between_handoffs name (Data c :: rest) i 100 a ln dv tr) in
  h_pc (hs s) = HDone 1
  /\ status (mem s) = 1
  /\ announced (mem s) = c
  /\ trace s = [EvExit Hasher 1; EvNotify Reader;
                EvStoreStatus Reader Publish 0 1;
                EvStoreLength ln (Z.of_nat (List.length c)); EvCopy c;
                EvTimedOut Hasher 1000] ++ tr.
Proof.
  intros Hfit Hcap Hi. cbv zeta. unfold between_handoffs, late_data, R, H.
  cbn [app].
  next_step. change (100 <? MAX_ITERATIONS) with true. proj.
  next_step. next_step. next_step.
  next_step. replace (i + 1 >? MAX_ITERATIONS) with false by lia.
  next_step. change (0 <? 1000) with true. cbn [negb andb].
  change (0 >=? 1000) with false. proj.
  next_step. replace (List.length dv <? List.length c)%nat with false
    by (symmetry; apply Nat.ltb_ge; exact Hfit).
  proj.
  next_step. rewrite to_int32_small by lia.
  next_step. next_step. next_step.
  change (100 + 1 >? 100) with true. proj.
  cbn [run fold_left]. proj. unfold announced. cbn [len dataView status].
  rewrite Nat2Z.id, firstn_length_app. auto.
Qed.
Lemma after_100_handoffs L capacity alg front rest :
  List.length front = 100%nat ->
  Forall (fun c => (List.length c <= capacity)%nat) front ->
  Z.of_nat capacity < 2147483648 ->
  exists ln dv tr,
    run L (startup ++ handoffs 100)
        (initial capacity (map Data (front ++ rest)) (algorithm_name alg))
    = between_handoffs (algorithm_name alg) (map Data rest) 100 100
        (feed (new_adapter alg) front) ln dv tr
    /\ List.length dv = capacity
    /\ handshake_kept tr
    /\ digests tr = [].
Proof.
  intros Hlen Hfit Hcap.
  rewrite run_app, startup_run, map_app.
  destruct (@handoffs_run L (algorithm_name alg) front (map Data rest) 0 0
              (new_adapter alg) 0 (repeat x00 capacity)
              [EvNotify Hasher; EvStoreStatus Hasher InitReady 0 0])
    as (ln & dv & tr & Hrun & Hdv & Hk & Hd).
  - rewrite repeat_length. exact Hfit.
  - rewrite repeat_length. exact Hcap.
  - rewrite Hlen. cbv. discriminate.
  - rewrite Hlen. cbv. discriminate.
  - repeat (apply Forall_cons; [cbn; auto|]). constructor.
  - rewrite Hlen in Hrun. exists ln, dv, tr. rewrite Hrun.
    rewrite repeat_length in Hdv. auto.
Qed.

(** X4.  For every file of at least 100 chunks and every supported
    algorithm: when the workers have handed over the first 100 chunks in
    turn and the reader then stays away for the one second of a single wait
    of the hasher, the hasher exits with code 1 without a digest; and it
    does so even when the reader publishes chunk 101 between the expiry of
    that wait and the hasher's look at the status (line 68), which is then
    1. *)
Theorem hasher_gives_up_after_100_chunks L capacity alg front rest :
  List.length front = 100%nat ->
  Forall (fun c => (List.length c <= capacity)%nat) front ->
  Z.of_nat capacity < 2147483648 ->
  let start :=
    initial capacity (map Data (front ++ rest)) (algorithm_name alg) in
  (let s := run L ((startup ++ handoffs 100) ++ [H] ++ wait_slice) start in
   h_pc (hs s) = HDone 1
   /\ on_exit 1 = Rejected 1
   /\ status (mem s) = 0
   /\ exists tr, trace s = EvExit Hasher 1 :: EvTimedOut Hasher 1000 :: tr
                 /\ digests tr = [])
  /\ (forall c rest',
        rest = c :: rest' ->
        (List.length c <= capacity)%nat ->
        let s := run L ((startup ++ handoffs 100) ++ late_data) start in
        h_pc (hs s) = HDone 1
        /\ status (mem s) = 1
        /\ announced (mem s) = c
        /\ digests (trace s) = []).
Proof.
  intros Hlen Hfit Hcap start.
  destruct (after_100_handoffs L alg rest Hlen Hfit Hcap)
    as (ln & dv & tr & Hrun & Hdv & Hk & Hd).
  fold start in Hrun. split.
  - cbv zeta. rewrite run_app, Hrun.
    destruct (@stall_run L (algorithm_name alg) (map Data rest) 100
                (feed (new_adapter alg) front) ln dv tr Hk)
      as (Hp & _ & Ht & _ & Hs).
    repeat split; try assumption.
    exists tr. split; [exact Ht | exact Hd].
  - intros c rest' -> Hc. cbv zeta. rewrite run_app, Hrun.
    cbn [map].
    destruct (@late_data_run L (algorithm_name alg) c (map Data rest') 100
                (feed (new_adapter alg) front) ln dv tr)
      as (Hp & Hs & Ha & Ht).
    + rewrite Hdv. exact Hc.
    + rewrite Hdv. exact Hcap.
    + cbv. reflexivity.
    + repeat split; try assumption.
      rewrite Ht. cbn [app]. rewrite !digests_cons. exact Hd.
Qed.

Lemma hasher_gives_up_after_100_chunks_witness :
  h_pc (hs (run sample_libs ((startup ++ handoffs 100) ++ [H] ++ wait_slice)
                (initial 1 (map Data (repeat [x41] 100 ++ [[x42]]))
                         (algorithm_name Crc32c))))
  = HDone 1.
Proof.
  assert (Hfit : Forall (fun c : list byte => (List.length c <= 1)%nat)
                        (repeat [x41] 100)).
  { apply Forall_forall. intros c Hc. apply repeat_spec in Hc. subst c.
    apply Nat.le_refl. }
  exact (proj1 (proj1 (@hasher_gives_up_after_100_chunks sample_libs 1%nat
                         Crc32c (repeat [x41] 100) [[x42]]
                         (repeat_length [x41] 100) Hfit eq_refl))).
Defined.

(** ** Beyond the iteration cap *)

Lemma concat_firstn_chunks n chunkSize : forall fuel input,
  (0 < chunkSize)%nat ->
  (List.length input <= fuel)%nat ->
  List.concat (firstn n (chunks_of_fuel fuel chunkSize input))
  = firstn (n * chunkSize) input.
Proof.
  induction n as [|n IH]; intros fuel input Hk Hl; [reflexivity|].
  destruct fuel as [|fuel].
  - destruct input; [|cbn in Hl; lia].
    cbn [chunks_of_fuel firstn List.concat]. rewrite firstn_nil. reflexivity.
  - destruct input as [|b input].
    + cbn [chunks_of_fuel firstn List.concat]. rewrite firstn_nil. reflexivity.
    + cbn [chunks_of_fuel firstn List.concat].
      rewrite IH; [|assumption|rewrite length_skipn; cbn [List.length] in *; lia].
      set (l := b :: input).
      change (S n * chunkSize)%nat with (chunkSize + n * chunkSize)%nat.
      rewrite firstn_skipn_comm.
      rewrite <- (firstn_skipn chunkSize (firstn (chunkSize + n * chunkSize) l))
        at 2.
      f_equal. rewrite firstn_firstn. f_equal. lia.
Qed.

Lemma in_firstn (A : Type) n (l : list A) x : In x (firstn n l) -> In x l.
Proof.
  intros Hx. rewrite <- (firstn_skipn n l). apply in_or_app. left. exact Hx.
Qed.

(** X5.  A file of more than 1,000,000 chunks is cut short without an
    error: for every supported algorithm and every positive chunk size
    below 2^31, the run in which the workers take turns ends with both
    workers exiting with code 0 and reports the digest of the first
    1,000,000 chunks of the file, that is of its first
    1,000,000 * chunkSize bytes. *)
Theorem long_files_are_cut_at_the_iteration_cap L chunkSize input alg :
  (0 < chunkSize)%nat ->
  Z.of_nat chunkSize < 2147483648 ->
  MAX_ITERATIONS < Z.of_nat (List.length (chunks_of chunkSize input)) ->
  let n := Z.to_nat MAX_ITERATIONS in
  let s := run L (in_turn n) (pipeline chunkSize input (algorithm_name alg)) in
  digests (trace s) = [one_shot L alg (firstn (n * chunkSize) input)]
  /\ r_pc (rd s) = RDone 0
  /\ h_pc (hs s) = HDone 0
  /\ handshake_kept (trace s).
Proof.
  intros Hpos Hcap Hlong. cbv zeta.
  assert (Hn : Z.of_nat (Z.to_nat MAX_ITERATIONS) = MAX_ITERATIONS)
    by (apply Z2Nat.id; discriminate).
  revert Hn. generalize (Z.to_nat MAX_ITERATIONS). intros n Hn.
  unfold pipeline, file_stream.
  set (cs := chunks_of chunkSize input) in *.
  assert (Hsplit : cs = firstn n cs ++ skipn n cs)
    by (symmetry; apply firstn_skipn).
  assert (Hfront : List.length (firstn n cs) = n).
  { rewrite length_firstn. apply Nat.min_l. apply Nat2Z.inj_le. rewrite Hn.
    apply Z.lt_le_incl, Hlong. }
  destruct (skipn n cs) as [|c rest] eqn:Hrest.
  { exfalso. rewrite app_nil_r in Hsplit.
    rewrite Hsplit, Hfront, Hn in Hlong. apply (Z.lt_irrefl _ Hlong). }
  destruct (@in_turn_run L chunkSize alg (firstn n cs) (c :: rest))
    as (Hd & Hk & Hr & Hh).
  - apply Forall_forall. intros x Hx. apply in_firstn in Hx.
    pose proof (chunks_of_fuel_fit (List.length input) chunkSize input) as Hf.
    rewrite Forall_forall in Hf. apply Hf, Hx.
  - exact Hcap.
  - rewrite Hfront, Hn. apply Z.le_refl.
  - right. exists c, (map Data rest). split; [reflexivity|].
    rewrite Hfront, Hn. apply Z.le_refl.
  - rewrite Hfront, <- Hsplit in Hd, Hk, Hr, Hh.
    repeat split; try assumption.
    rewrite Hd. f_equal. unfold one_shot. f_equal.
    rewrite feed_concat. f_equal.
    unfold cs, chunks_of. apply concat_firstn_chunks; [exact Hpos | apply Nat.le_refl].
Qed.

Lemma long_files_are_cut_at_the_iteration_cap_witness :
  h_pc (hs (run sample_libs (in_turn (Z.to_nat MAX_ITERATIONS))
                (pipeline 1 (repeat x41 (Z.to_nat 1000001))
                          (algorithm_name Crc32c))))
  = HDone 0.
Proof.
  assert (Hlong : MAX_ITERATIONS
                  < Z.of_nat (List.length
                                (chunks_of 1 (repeat x41 (Z.to_nat 1000001))))).
  { unfold chunks_of. rewrite chunks_of_fuel_one by apply Nat.le_refl.
    rewrite length_map, repeat_length, Z2Nat.id by discriminate.
    reflexivity. }
  exact (proj1 (proj2 (proj2
           (@long_files_are_cut_at_the_iteration_cap sample_libs 1%nat
              (repeat x41 (Z.to_nat 1000001)) Crc32c
              Nat.lt_0_1 eq_refl Hlong)))).
Defined.

(** ** The hand-off in every interleaving *)

Ltac rfin :=
  proj; split_all;
  cbn [past_eof_store reader_writes hasher_holds
       chunks_in flat_map app status len dataView set_status set_len
       set_data] in *;
  repeat split; try assumption; try reflexivity; try discriminate;
  try lia; try congruence;
  try (eexists; eassumption);
  try (exists []; rewrite app_nil_r; assumption);
  try (left; assumption); try (right; assumption);
  try (left; reflexivity); try (right; reflexivity).

Ltac rpick :=
  first [ left; solve [rfin]
        | right; left; solve [rfin]
        | right; right; solve [rfin] ].

Ltac rkeep skip con pend :=
  exists skip, con, pend;
  cbn [past_eof_store reader_writes hasher_holds
       chunks_in flat_map app status len dataView set_status set_len
       set_data] in *;
  rewrite ?app_nil_r in *;
  rewrite ?updates_cons, ?digests_cons; cbn [app];
  match goal with
  | Hst : _ \/ _ \/ _ |- _ =>
      destruct Hst as [Hst | [Hst | Hst]]; split_all;
      (split; [assumption|]);
      (split; [assumption|]);
      (split; [solve [rfin]|]);
      (split; [solve [rfin]|]);
      (split; [solve [rfin]|]);
      rpick
  end.

Lemma range_reader_expire L cs s :
  range_inv cs s -> range_inv cs (step L (Expire Reader) s).
Proof.
  intros (skip & con & pend & Hfed & Hskip & Hr & Hcap & Hinit & Hst).
  open_state s. unfold range_inv, reader_pos, fed in *. proj.
  unfold_step.
  destruct rp; cases; rkeep skip con pend.
Qed.

Lemma range_hasher_expire L cs s :
  range_inv cs s -> range_inv cs (step L (Expire Hasher) s).
Proof.
  intros (skip & con & pend & Hfed & Hskip & Hr & Hcap & Hinit & Hst).
  open_state s. unfold range_inv, reader_pos, fed in *. proj.
  unfold_step.
  destruct hp; cases; rkeep skip con pend.
Qed.

Ltac rrest :=
  (split; [assumption|]); (split; [assumption|]);
  (split; [solve [rfin]|]); (split; [solve [rfin]|]);
  (split; [solve [rfin]|]); rpick.

Lemma range_reader_run L cs s :
  range_inv cs s -> range_inv cs (step L (Run Reader) s).
Proof.
  intros (skip & con & pend & Hfed & Hskip & Hr & Hcap & Hinit & Hst).
  open_state s. unfold range_inv, reader_pos, fed in *. proj.
  unfold_step.
  destruct rp; cases;
    try (assert_succeeds (rkeep skip con pend); rkeep skip con pend).
  - (* RCopy *)
    assert (Hfit : (List.length chunk <= List.length (dataView m))%nat)
      by (apply Nat.ltb_ge; assumption).
    assert (Hlen : List.length (chunk ++ skipn (List.length chunk) (dataView m))
                   = List.length (dataView m)).
    { rewrite length_app, length_skipn. lia. }
    exists skip, con, pend. cbn [set_data dataView status len].
    rewrite firstn_length_app, Hlen, updates_cons. cbn [app].
    destruct Hst as [Hst | [Hst | Hst]]; split_all; try discriminate.
    rrest.
  - (* RStoreLen *)
    split_all.
    match goal with Hf : firstn _ _ = chunk |- _ => rename Hf into Hcopied end.
    assert (Hfit : (List.length chunk <= List.length (dataView m))%nat).
    { rewrite <- Hcopied at 1. rewrite length_firstn. lia. }
    assert (Hl : to_int32 (Z.of_nat (List.length chunk))
                 = Z.of_nat (List.length chunk)).
    { apply to_int32_small. lia. }
    exists skip, con, pend. unfold announced.
    cbn [set_len dataView status len].
    rewrite Hl, Nat2Z.id, Hcopied, updates_cons. cbn [app].
    destruct Hst as [Hst | [Hst | Hst]]; split_all; try discriminate.
    rrest.
  - (* RStoreStatus: the chunk is published *)
    destruct Hst as [Hst | [Hst | Hst]]; split_all; try discriminate.
    match goal with Hp : _ \/ pend = [] |- _ =>
      destruct Hp as [Hp | ->]; [discriminate Hp|] end.
    exists skip, con, [announced m].
    cbn [set_status dataView status len].
    rewrite updates_cons.
    rewrite app_nil_r in Hr. rewrite <- !app_assoc. cbn [app].
    (split; [assumption|]). (split; [assumption|]).
    (split; [rewrite <- app_assoc in Hr; exact Hr|]).
    (split; [solve [rfin]|]). (split; [solve [rfin]|]).
    right; left. unfold announced. cbn [dataView len].
    destruct hp; try discriminate; rfin.
  - (* RNotify *)
    exists skip, con, pend. rewrite updates_cons. cbn [app].
    destruct Hst as [Hst | [Hst | Hst]]; split_all; try discriminate;
      destruct hp; try discriminate; proj; rrest.
  - (* REofStore *)
    exists skip, con, pend. rewrite updates_cons. cbn [app].
    cbn [set_status status len dataView]. unfold announced in *.
    cbn [set_status status len dataView].
    destruct Hst as [Hst | [Hst | Hst]]; split_all; try discriminate;
      (split; [assumption|]); (split; [assumption|]);
      (split; [solve [rfin]|]); (split; [solve [rfin]|]);
      (split; [solve [rfin]|]);
      right; right; destruct hp; try discriminate; rfin.
  - (* REofNotify *)
    exists skip, con, pend. rewrite updates_cons. cbn [app].
    destruct Hst as [Hst | [Hst | Hst]]; split_all; try discriminate;
      destruct hp; try discriminate; proj; rrest.
  - (* RCatch *)
    exists skip, con, pend. rewrite updates_cons. cbn [app].
    cbn [set_status status len dataView]. unfold announced in *.
    cbn [set_status status len dataView].
    destruct Hst as [Hst | [Hst | Hst]]; split_all; try discriminate;
      (split; [assumption|]); (split; [assumption|]);
      (split; [solve [rfin]|]); (split; [solve [rfin]|]);
      (split; [solve [rfin]|]);
      right; right; destruct hp; try discriminate; rfin.
  - (* RCatchNotify *)
    exists skip, con, pend. rewrite updates_cons. cbn [app].
    destruct Hst as [Hst | [Hst | Hst]]; split_all; try discriminate;
      destruct hp; try discriminate; proj; rrest.
Qed.

Lemma range_hasher_run L cs s :
  range_inv cs s -> range_inv cs (step L (Run Hasher) s).
Proof.
  intros (skip & con & pend & Hfed & Hskip & Hr & Hcap & Hinit & Hst).
  open_state s. unfold range_inv, fed in *. proj.
  unfold_step.
  destruct hp; cases;
    try (assert_succeeds (rkeep skip con pend); rkeep skip con pend).
  - (* HInitStore: a chunk published before is lost *)
    destruct Hinit as [-> ->].
    destruct Hst as [Hst | [Hst | Hst]]; split_all.
    + exists [], [], pend. rewrite updates_cons. cbn [app].
      cbn [set_status status len dataView].
      (split; [assumption|]). (split; [assumption|]).
      (split; [unfold reader_pos in *; proj; destruct rp; exact Hr|]).
      (split; [solve [rfin]|]). (split; [solve [rfin]|]). rpick.
    + match goal with Hp : pend = _ |- _ => subst pend end.
      exists [announced m], [], []. rewrite updates_cons. cbn [app] in *.
      cbn [set_status status len dataView List.length].
      (split; [assumption|]). (split; [lia|]).
      (split; [unfold reader_pos in *; proj; destruct rp; try discriminate;
               exact Hr|]).
      (split; [solve [rfin]|]). (split; [solve [rfin]|]). rpick.
    + exists [], [], pend. rewrite updates_cons. cbn [app].
      cbn [set_status status len dataView].
      (split; [assumption|]). (split; [assumption|]).
      (split; [unfold reader_pos in *; proj; destruct rp; try discriminate;
               exact Hr|]).
      (split; [solve [rfin]|]). (split; [solve [rfin]|]). rpick.
  - (* HInitNotify: the reader may be released *)
    exists skip, con, pend. rewrite updates_cons. cbn [app].
    unfold reader_pos in *. proj.
    destruct Hst as [Hst | [Hst | Hst]]; split_all; destruct rp;
      try discriminate; proj; rrest.
  - (* HRead: the chunk announced is passed to hashFn *)
    destruct Hst as [Hst | [Hst | Hst]]; split_all; try discriminate;
      subst l pend;
      exists skip, (con ++ [announced m]), [];
      rewrite updates_cons; cbn [app rev];
      rewrite !concat_app, Hfed; cbn [List.concat];
      rewrite !app_nil_r; unfold announced at 1;
      (split; [reflexivity|]); (split; [assumption|]);
      (split; [unfold reader_pos in *; proj; exact Hr|]);
      (split; [solve [rfin]|]); (split; [solve [rfin]|]); rpick.
  - (* HRead of an empty chunk: no call *)
    destruct Hst as [Hst | [Hst | Hst]]; split_all; try discriminate;
      subst l pend;
      (assert (Hempty : announced m = [])
        by (unfold announced; replace (Z.to_nat (len m)) with 0%nat by lia;
            reflexivity));
      exists skip, (con ++ [announced m]), [];
      rewrite !concat_app, !app_nil_r;
      (split; [rewrite Hempty; cbn [List.concat]; rewrite app_nil_r;
               assumption|]);
      (split; [assumption|]);
      (split; [unfold reader_pos in *; proj; exact Hr|]);
      (split; [solve [rfin]|]); (split; [solve [rfin]|]); rpick.
  - (* the same without an adapter *)
    destruct Hst as [Hst | [Hst | Hst]]; split_all; try discriminate;
      subst l pend;
      (assert (Hempty : announced m = [])
        by (unfold announced; replace (Z.to_nat (len m)) with 0%nat by lia;
            reflexivity));
      exists skip, (con ++ [announced m]), [];
      rewrite !concat_app, !app_nil_r;
      (split; [rewrite Hempty; cbn [List.concat]; rewrite app_nil_r;
               assumption|]);
      (split; [assumption|]);
      (split; [unfold reader_pos in *; proj; exact Hr|]);
      (split; [solve [rfin]|]); (split; [solve [rfin]|]); rpick.
  - (* HNotify: the reader may be released *)
    exists skip, con, pend. rewrite updates_cons. cbn [app].
    unfold reader_pos in *. proj.
    destruct Hst as [Hst | [Hst | Hst]]; split_all; destruct rp;
      try discriminate; proj; rrest.
Qed.

Lemma range_inv_step L cs c s : range_inv cs s -> range_inv cs (step L c s).
Proof.
  intros Inv. destruct c as [[|]|[|]].
  - apply range_reader_run, Inv.
  - apply range_hasher_run, Inv.
  - apply range_reader_expire, Inv.
  - apply range_hasher_expire, Inv.
Qed.

Lemma range_inv_initial capacity stream name :
  Z.of_nat capacity < 2147483648 ->
  range_inv (chunks_in stream) (initial capacity stream name).
Proof.
  intros Hcap. exists [], [], []. unfold reader_pos, fed, initial. proj.
  cbn [mem dataView status rd r_pc r_stream hs h_pc trace updates flat_map
       rev List.concat List.length app hasher_holds past_eof_store].
  rewrite repeat_length.
  repeat split; try reflexivity; try lia. left. repeat split. right. reflexivity.
Qed.

Lemma reader_pos_prefix cs pre s :
  reader_pos cs pre s -> exists rest, cs = pre ++ rest.
Proof.
  unfold reader_pos. destruct (r_pc (rd s)); intros Hr;
    repeat match goal with Hc : _ /\ _ |- _ => destruct Hc end;
    first [ eexists; eassumption | exact Hr ].
Qed.

(** X6.  Whatever the interleaving of the two workers, whatever the stream
    (read errors included) and for a buffer below 2^31 bytes: a digest that
    is reported is the digest of consecutive chunks of the stream, in
    their order, each taken once and whole, beginning with the first chunk
    or, when the hasher's start-up store has overwritten the first
    publication, with the second. *)
Theorem every_digest_is_of_consecutive_chunks L capacity stream name sched d :
  Z.of_nat capacity < 2147483648 ->
  In d (digests (trace (run L sched (initial capacity stream name)))) ->
  exists alg skip con rest,
    select_algorithm name = Some alg
    /\ chunks_in stream = skip ++ con ++ rest
    /\ (List.length skip <= 1)%nat
    /\ d = one_shot L alg (List.concat con).
Proof.
  intros Hcap Hd.
  set (s := run L sched (initial capacity stream name)) in *.
  assert (Inv : range_inv (chunks_in stream) s).
  { apply run_invariant.
    - intros c s0. apply range_inv_step.
    - apply range_inv_initial, Hcap. }
  destruct Inv as (skip & con & pend & Hfed & Hskip & Hr & _).
  destruct (reader_pos_prefix _ _ _ Hr) as [rest Hrest].
  destruct (reported_digest _ _ _ _ _ _ Hd) as (alg & Halg & Heq).
  fold s in Heq. rewrite feed_concat in Heq. fold (fed s) in Heq.
  exists alg, skip, con, (pend ++ rest).
  split; [exact Halg|]. split; [|split; [exact Hskip|]].
  - rewrite Hrest, <- !app_assoc. reflexivity.
  - rewrite Heq, Hfed. reflexivity.
Qed.

Lemma every_digest_is_of_consecutive_chunks_witness :
  exists alg skip con rest,
    select_algorithm "crc32c" = Some alg
    /\ chunks_in (file_stream 1 [x41; x42]) = skip ++ con ++ rest
    /\ (List.length skip <= 1)%nat
    /\ one_shot sample_libs Crc32c [x42]
       = one_shot sample_libs alg (List.concat con).
Proof.
  apply (@every_digest_is_of_consecutive_chunks sample_libs 1%nat
           (file_stream 1 [x41; x42]) "crc32c"
           ([R; R; R; R; R; R] ++ startup ++ handoff ++ finish)).
  - reflexivity.
  - vm_compute. left. reflexivity.
Defined.

(** * The orchestrator: testWorkerSharedHashPerformance *)

Lemma positive_over_zero (x : float) :
  (0 <? x)%float = true -> (x / 0)%float = infinity.
Proof.
  intros Hx. apply Prim2SF_inj.
  rewrite div_spec. rewrite ltb_spec in Hx.
  change (Prim2SF 0) with (S754_zero false) in *.
  change (Prim2SF infinity) with (S754_infinity false).
  destruct (Prim2SF x) as [s | s | | s mx ex]; cbn in Hx |- *;
    try discriminate; destruct s; try discriminate; reflexivity.
Qed.

Lemma coloredResult_infinity : coloredResult infinity = Speed Green infinity.
Proof. reflexivity. Qed.

(** X7.  [testWorkerSharedHashPerformance] never fills the red error row
    for a run of the workers: [measurePerformance] turns every failure into
    [null], so whenever the module of the algorithm resolves the row gets
    the green check mark.  When the workers have not both exited with
    code 0 before the 30 s timer, the spinner shows the failure and the
    speed printed is that of a division by [null]: [Infinity], in green,
    for a file that is not empty, and [NaN] for an empty one. *)
Theorem failed_runs_get_the_check_mark algo resolves size events elapsed :
  a_module algo = None \/ resolves = true ->
  let result := worker_row algo resolves size events elapsed in
  row_status (fst result) = Tick
  /\ (await_workers events = Returned tt ->
      result = ({| row_name := a_name algo;
                   row_performance :=
                     coloredResult (size / 1073741824 / elapsed)%float;
                   row_status := Tick |},
                Succeed ("Worker-" ++ a_name algo)))
  /\ (forall err,
        await_workers events = Threw err ->
        snd result = Fail ("Worker-" ++ a_name algo) err
        /\ ((0 <? size / 1073741824)%float = true ->
            row_performance (fst result) = Speed Green infinity)
        /\ (size = 0%float ->
            row_performance (fst result) = Speed Red nan)).
Proof.
  intros Hmod result.
  assert (Hrow : result
                 = match measurePerformance ("Worker-" ++ a_name algo)
                                            (await_workers events) elapsed with
                   | (Returned duration, sp) =>
                       ({| row_name := a_name algo;
                           row_performance :=
                             coloredResult
                               (size / 1073741824 / to_number duration)%float;
                           row_status := Tick |}, sp)
                   | (Threw err, _) =>
                       ({| row_name := a_name algo; row_performance := Err;
                           row_status := Cross |}, FailMessage err)
                   end).
  { subst result. unfold worker_row.
    destruct Hmod as [-> | ->]; [reflexivity|].
    destruct (a_module algo); reflexivity. }
  rewrite Hrow. unfold measurePerformance.
  destruct (await_workers events) as [[] | r]; cbn [fst snd row_status to_number].
  - split; [reflexivity|]. split; [reflexivity|]. intros err Herr. discriminate.
  - split; [reflexivity|]. split; [discriminate|].
    intros err Herr. inversion Herr; subst err. cbn [row_performance].
    split; [reflexivity|]. split.
    + intros Hpos. rewrite (positive_over_zero Hpos). reflexivity.
    + intros ->. reflexivity.
Qed.

Lemma failed_runs_get_the_check_mark_witness :
  let result :=
    worker_row {| a_name := "crc32c"; a_type := "external";
                  a_module := Some "@node-rs/crc32"%string |} true
               1048576%float [WorkerExit Reader 0; WorkerExit Hasher 1]
               2%float in
  row_status (fst result) = Tick
  /\ snd result = Fail "Worker-crc32c" (ExitedWithCode Hasher 1)
  /\ row_performance (fst result) = Speed Green infinity.
Proof.
  intros result.
  destruct (@failed_runs_get_the_check_mark
              {| a_name := "crc32c"; a_type := "external";
                 a_module := Some "@node-rs/crc32"%string |} true
              1048576%float [WorkerExit Reader 0; WorkerExit Hasher 1]
              2%float (or_intror eq_refl)) as (Hs & _ & Hf).
  destruct (Hf (ExitedWithCode Hasher 1) eq_refl) as (Hsp & Hinf & _).
  split; [exact Hs|]. split; [exact Hsp|]. exact (Hinf eq_refl).
Defined.
(** ** The race of line 122 *)

Lemma deliver_harmless h r e :
  harmless e = true ->
  deliver (after_clean_exits h r) e
  = after_clean_exits (h || is_exit_of Hasher e) (r || is_exit_of Reader e).
Proof.
  destruct e as [[|] code | who | ]; cbn [harmless]; intros He;
    try discriminate;
    unfold deliver, exit_promise, on_exit, after_clean_exits;
    cbn [hasherExitPromise readerExitPromise allPromise racePromise];
    rewrite ?He; destruct h, r; reflexivity.
Qed.

Lemma deliver_harmless_all pre : forall h r,
  forallb harmless pre = true ->
  fold_left deliver pre (after_clean_exits h r)
  = after_clean_exits (h || exited Hasher pre) (r || exited Reader pre).
Proof.
  induction pre as [|e pre IH]; intros h r Hpre.
  - cbn. rewrite !orb_false_r. reflexivity.
  - cbn [forallb] in Hpre. apply andb_prop in Hpre. destruct Hpre as [He Hpre].
    cbn [fold_left]. rewrite deliver_harmless by exact He.
    rewrite IH by exact Hpre. unfold exited. cbn [existsb].
    rewrite !orb_assoc. reflexivity.
Qed.

Lemma race_settled_once e p :
  racePromise p <> Pending -> racePromise (deliver p e) = racePromise p.
Proof.
  intros Hp. destruct p as [h r a rc]. cbn [racePromise] in *.
  destruct e as [[|] code | who | ]; cbn [deliver racePromise];
    destruct rc; try contradiction; reflexivity.
Qed.

Lemma race_stays_settled post : forall p,
  racePromise p <> Pending ->
  racePromise (fold_left deliver post p) = racePromise p.
Proof.
  induction post as [|e post IH]; intros p Hp; [reflexivity|].
  cbn [fold_left]. rewrite IH; rewrite race_settled_once by exact Hp;
    [reflexivity | exact Hp].
Qed.

Lemma await_after pre post :
  racePromise (fold_left deliver pre no_promise_settled) <> Pending ->
  await_workers (pre ++ post) = await_workers pre.
Proof.
  intros Hp. unfold await_workers. rewrite fold_left_app.
  rewrite race_stays_settled by exact Hp. reflexivity.
Qed.

Lemma fulfilled_by_exits_step seen p e :
  fulfilled_by_exits seen p -> fulfilled_by_exits (seen ++ [e]) (deliver p e).
Proof.
  intros (Hh & Hr & Ha & Hrace). destruct p as [h r a rc].
  cbn [hasherExitPromise readerExitPromise allPromise racePromise] in *.
  assert (Hin : forall x, In x seen -> In x (seen ++ [e]))
    by (intros x Hx; apply in_or_app; left; exact Hx).
  assert (Hnow : In e (seen ++ [e]))
    by (apply in_or_app; right; left; reflexivity).
  unfold fulfilled_by_exits.
  destruct e as [[|] code | who | ];
    cbn [deliver hasherExitPromise readerExitPromise allPromise racePromise];
    unfold exit_promise, on_exit.
  - destruct (code =? 0) eqn:E;
      [apply Z.eqb_eq in E; subst code|];
      destruct h, r, a, rc; cbn [settle all_after];
      repeat split; intros; try discriminate; auto;
      try (destruct Ha; [reflexivity|]; discriminate);
      try (destruct (Ha eq_refl); discriminate);
      try (specialize (Hrace eq_refl); discriminate).
  - destruct (code =? 0) eqn:E;
      [apply Z.eqb_eq in E; subst code|];
      destruct h, r, a, rc; cbn [settle all_after];
      repeat split; intros; try discriminate; auto;
      try (destruct (Ha eq_refl); discriminate);
      try (specialize (Hrace eq_refl); discriminate).
  - repeat split; intros; auto; try (apply Ha; assumption).
  - destruct rc; cbn [settle]; repeat split; intros; auto;
      try discriminate; try (apply Ha; assumption).
Qed.

Lemma fulfilled_by_exits_all events :
  fulfilled_by_exits events (fold_left deliver events no_promise_settled).
Proof.
  induction events as [|e events IH] using rev_ind.
  - repeat split; intros; discriminate.
  - rewrite fold_left_app. cbn [fold_left].
    apply fulfilled_by_exits_step, IH.
Qed.

(** X8.  How the race of line 122 ends, for every sequence of events the
    orchestrator is delivered.  Take a prefix without the timer and without
    an 'exit' with a non-zero code.  When both 'exit' events are in it, the
    function measured returns, whatever follows.  When the next event is
    the first 'exit' of a worker and carries a non-zero code, it throws
    that worker's "exited with code" error: the hasher's for a hasher that
    gave up, the reader's for a reader stopped by [reader.terminate()]
    whose 'exit' arrives first.  When an 'exit' is missing and the timer
    fires next, or nothing more arrives, it throws the timeout error.  And
    it returns only when both workers' 'exit' events with code 0 have been
    delivered.  'error' events settle nothing. *)
Theorem race_settles_on_the_first_decisive_event pre post :
  forallb harmless pre = true ->
  (exited Hasher pre = true -> exited Reader pre = true ->
   await_workers (pre ++ post) = Returned tt)
  /\ (forall who code,
        code <> 0 ->
        exited who pre = false ->
        await_workers (pre ++ WorkerExit who code :: post)
        = Threw (ExitedWithCode who code))
  /\ (exited Hasher pre = false \/ exited Reader pre = false ->
      await_workers (pre ++ TimerFired :: post) = Threw WorkerTimeout
      /\ await_workers pre = Threw WorkerTimeout)
  /\ (forall events,
        await_workers events = Returned tt ->
        In (WorkerExit Hasher 0) events /\ In (WorkerExit Reader 0) events).
Proof.
  intros Hpre.
  pose proof (deliver_harmless_all pre false false Hpre) as Hfold.
  change (after_clean_exits false false) with no_promise_settled in Hfold.
  cbn [orb] in Hfold.
  split; [|split; [|split]].
  - intros Hh Hr. rewrite await_after.
    + unfold await_workers. rewrite Hfold, Hh, Hr. reflexivity.
    + rewrite Hfold, Hh, Hr. discriminate.
  - intros who code Hcode Hwho.
    change (pre ++ WorkerExit who code :: post)
      with (pre ++ [WorkerExit who code] ++ post).
    rewrite app_assoc, await_after.
    + unfold await_workers. rewrite fold_left_app, Hfold. cbn [fold_left].
      apply Z.eqb_neq in Hcode.
      destruct who; rewrite Hwho;
        unfold deliver, exit_promise, on_exit, after_clean_exits;
        rewrite Hcode;
        cbn [hasherExitPromise readerExitPromise allPromise racePromise
             andb settle all_after];
        [destruct (exited Hasher pre)|]; reflexivity.
    + rewrite fold_left_app, Hfold. cbn [fold_left].
      apply Z.eqb_neq in Hcode.
      destruct who; rewrite Hwho;
        unfold deliver, exit_promise, on_exit, after_clean_exits;
        rewrite Hcode;
        cbn [hasherExitPromise readerExitPromise allPromise racePromise
             andb settle all_after];
        [destruct (exited Hasher pre)|]; discriminate.
  - intros Hmiss.
    assert (Hboth : exited Hasher pre && exited Reader pre = false).
    { destruct Hmiss as [-> | ->]; [reflexivity | apply andb_false_r]. }
    split.
    + change (pre ++ TimerFired :: post) with (pre ++ [TimerFired] ++ post).
      rewrite app_assoc, await_after.
      * unfold await_workers. rewrite fold_left_app, Hfold. cbn [fold_left].
        unfold deliver, after_clean_exits. cbn [racePromise].
        rewrite Hboth. reflexivity.
      * rewrite fold_left_app, Hfold. cbn [fold_left].
        unfold deliver, after_clean_exits. cbn [racePromise].
        rewrite Hboth. discriminate.
    + unfold await_workers. rewrite Hfold. unfold after_clean_exits.
      cbn [racePromise]. rewrite Hboth. reflexivity.
  - intros events Hret.
    destruct (fulfilled_by_exits_all events) as (Hh & Hr & Ha & Hrace).
    unfold await_workers in Hret.
    destruct (racePromise (fold_left deliver events no_promise_settled));
      try discriminate.
    destruct (Ha (Hrace eq_refl)) as [Hhf Hrf]. auto.
Qed.

(** An unknown algorithm: the hasher's 'error' event makes the handler of
    line 104 terminate the reader, whose 'exit' with code 1 arrives before
    the hasher's own. *)
Lemma race_settles_on_the_first_decisive_event_witness :
  await_workers [WorkerError Hasher; WorkerExit Reader 1; WorkerExit Hasher 1]
  = Threw (ExitedWithCode Reader 1).
Proof.
  destruct (@race_settles_on_the_first_decisive_event
              [WorkerError Hasher] [WorkerExit Hasher 1] eq_refl)
    as (_ & Hb & _).
  apply (Hb Reader 1); [discriminate | reflexivity].
Defined.

Lemma chunks_of_fuel_count fuel chunkSize : forall n input,
  (0 < chunkSize)%nat ->
  (List.length input <= n * chunkSize)%nat ->
  (List.length (chunks_of_fuel fuel chunkSize input) <= n)%nat.
Proof.
  induction fuel as [|fuel IH]; intros n input Hk Hl; [apply Nat.le_0_l|].
  destruct input as [|b input]; [apply Nat.le_0_l|].
  cbn [chunks_of_fuel List.length].
  destruct n as [|n]; [cbn in Hl; lia|].
  apply le_n_S, IH; [exact Hk|].
  rewrite length_skipn. cbn [List.length Nat.mul] in *. lia.
Qed.

Lemma CHUNK_SIZE_value : Z.of_nat CHUNK_SIZE = 4194304.
Proof. unfold CHUNK_SIZE. rewrite !Nat2Z.inj_mul. reflexivity. Qed.

Lemma orchestrated_names_are_supported algo :
  In algo algorithms -> exists alg, a_name algo = algorithm_name alg.
Proof.
  intros [<- | [<- | [<- | [<- | []]]]].
  - exists Sha256. reflexivity.
  - exists Xxh64. reflexivity.
  - exists Xxh3_64. reflexivity.
  - exists Crc32c. reflexivity.
Qed.

(** X9.  With the constants of [testWorkerSharedHashPerformance] (the four
    algorithms of its table, a buffer and [highWaterMark] of 4 MiB), for
    every file of at most 1,000,000 * 4 MiB bytes: each algorithm name is
    accepted by the hasher, and the run in which the workers take turns
    prints the digest of the whole file, both workers exiting with code 0.
    When these two 'exit' events reach the orchestrator before its timer
    fires (in any order, 'error' events aside), the row gets the measured
    speed and the check mark. *)
Theorem orchestrated_run_in_turn L algo input size elapsed pre post :
  In algo algorithms ->
  Z.of_nat (List.length input) <= MAX_ITERATIONS * Z.of_nat CHUNK_SIZE ->
  forallb harmless pre = true ->
  exited Hasher pre = true ->
  exited Reader pre = true ->
  let s := run L (in_turn (List.length (chunks_of CHUNK_SIZE input)))
               (pipeline CHUNK_SIZE input (a_name algo)) in
  exists alg,
    select_algorithm (a_name algo) = Some alg
    /\ digests (trace s) = [one_shot L alg input]
    /\ r_pc (rd s) = RDone 0
    /\ h_pc (hs s) = HDone 0
    /\ worker_row algo true size (pre ++ post) elapsed
       = ({| row_name := a_name algo;
             row_performance :=
               coloredResult (size / 1073741824 / elapsed)%float;
             row_status := Tick |},
          Succeed ("Worker-" ++ a_name algo)).
Proof.
  intros Hin Hsize Hpre Hh Hr. cbv zeta.
  destruct (orchestrated_names_are_supported Hin) as [alg Hname].
  exists alg.
  pose proof CHUNK_SIZE_value as Hcs.
  assert (Hpos : (0 < CHUNK_SIZE)%nat) by lia.
  assert (Hcount : Z.of_nat (List.length (chunks_of CHUNK_SIZE input))
                   <= MAX_ITERATIONS).
  { assert (Hn : (List.length (chunks_of CHUNK_SIZE input)
                  <= Z.to_nat MAX_ITERATIONS)%nat).
    { apply chunks_of_fuel_count; [exact Hpos|].
      apply Nat2Z.inj_le. rewrite Nat2Z.inj_mul, Z2Nat.id by discriminate.
      exact Hsize. }
    apply Nat2Z.inj_le in Hn. rewrite Z2Nat.id in Hn by discriminate.
    exact Hn. }
  destruct (@in_turn_run L CHUNK_SIZE alg (chunks_of CHUNK_SIZE input) [])
    as (Hd & _ & Hrd & Hhs).
  - apply chunks_of_fuel_fit.
  - rewrite Hcs. reflexivity.
  - exact Hcount.
  - left. reflexivity.
  - rewrite app_nil_r in Hd, Hrd, Hhs.
    fold (file_stream CHUNK_SIZE input) in Hd, Hrd, Hhs.
    fold (pipeline CHUNK_SIZE input (algorithm_name alg)) in Hd, Hrd, Hhs.
    rewrite <- Hname in Hd, Hrd, Hhs.
    assert (Hawait : await_workers (pre ++ post) = Returned tt).
    { rewrite await_after.
      - unfold await_workers.
        change no_promise_settled with (after_clean_exits false false).
        rewrite deliver_harmless_all by exact Hpre.
        cbn [orb]. rewrite Hh, Hr. reflexivity.
      - change no_promise_settled with (after_clean_exits false false).
        rewrite deliver_harmless_all by exact Hpre.
        cbn [orb]. rewrite Hh, Hr. discriminate. }
    split; [rewrite Hname; apply select_algorithm_name|].
    split; [rewrite Hd, feed_concat, chunks_of_concat by exact Hpos;
            reflexivity|].
    split; [exact Hrd|]. split; [exact Hhs|].
    unfold worker_row. rewrite Hawait.
    destruct (a_module algo); reflexivity.
Qed.

Lemma orchestrated_run_in_turn_witness :
  let algo := {| a_name := "sha256"; a_type := "native"; a_module := None |} in
  let s := run sample_libs (in_turn (List.length (chunks_of CHUNK_SIZE [x41])))
               (pipeline CHUNK_SIZE [x41] (a_name algo)) in
  exists alg,
    select_algorithm (a_name algo) = Some alg
    /\ digests (trace s) = [one_shot sample_libs alg [x41]]
    /\ r_pc (rd s) = RDone 0
    /\ h_pc (hs s) = HDone 0
    /\ worker_row algo true 1%float
         ([WorkerExit Reader 0; WorkerExit Hasher 0] ++ [TimerFired]) 2%float
       = ({| row_name := a_name algo;
             row_performance := coloredResult (1 / 1073741824 / 2)%float;
             row_status := Tick |},
          Succeed ("Worker-" ++ a_name algo)).
Proof.
  intros algo.
  assert (Hsize : Z.of_nat (List.length [x41])
                  <= MAX_ITERATIONS * Z.of_nat CHUNK_SIZE).
  { rewrite CHUNK_SIZE_value. discriminate. }
  exact (@orchestrated_run_in_turn sample_libs algo [x41] 1%float 2%float
           [WorkerExit Reader 0; WorkerExit Hasher 0] [TimerFired]
           (or_introl eq_refl) Hsize eq_refl eq_refl eq_refl).
Defined.

(** * The scripts around the test file *)

Ltac io_simpl :=
  unfold io_bind, try_catch, print, io_ret, existsSync;
  cbn [test_file position fs_calls output negb andb].

Section Scripts.

Variable faults : nat -> bool.
Hypothesis all_ok : forall k, faults k = false.

Lemma fs_call_ok (A : Type) (work : world -> option (A * option Z * Z)) w :
  fs_call faults work w
  = match work w with
    | Some (v, file, pos) =>
        Done v {| test_file := file; position := pos;
                  fs_calls := S (fs_calls w); output := output w |}
    | None =>
        Thrown {| test_file := test_file w; position := position w;
                  fs_calls := S (fs_calls w); output := output w |}
    end.
Proof. unfold fs_call. rewrite all_ok. reflexivity. Qed.

Lemma ceil_div_bounds a b :
  0 < b -> (ceil_div a b - 1) * b < a <= ceil_div a b * b.
Proof.
  intros Hb. unfold ceil_div.
  pose proof (Z.div_mod (- a) b ltac:(lia)) as Hdm.
  pose proof (Z.mod_pos_bound (- a) b Hb) as Hm.
  nia.
Qed.

Lemma write_loop_ok size chunkSize todo : forall i w,
  0 < chunkSize ->
  0 <= i ->
  i + Z.of_nat todo = ceil_div size chunkSize ->
  test_file w = Some (Z.min (i * chunkSize) size) ->
  position w = Z.min (i * chunkSize) size ->
  write_loop faults size chunkSize todo i w
  = Done tt {| test_file := Some size; position := size;
               fs_calls := (fs_calls w + todo)%nat; output := output w |}.
Proof.
  induction todo as [|todo IH]; intros i w Hc Hi Htot Hfile Hpos.
  - pose proof (ceil_div_bounds size Hc) as Hb.
    cbn [write_loop]. unfold io_ret. destruct w as [f p n o].
    cbn [test_file position fs_calls output] in *.
    assert (Hmin : Z.min (i * chunkSize) size = size).
    { replace i with (ceil_div size chunkSize) by lia. apply Z.min_r. apply Hb. }
    rewrite Hmin in *. rewrite Nat.add_0_r. subst f p. reflexivity.
  - pose proof (ceil_div_bounds size Hc) as Hb.
    cbn [write_loop]. unfold io_bind, writeSync. rewrite fs_call_ok.
    rewrite Hfile, Hpos.
    assert (Hlt : i * chunkSize < size).
    { assert (i * chunkSize <= (ceil_div size chunkSize - 1) * chunkSize)
        by (apply Z.mul_le_mono_nonneg_r; lia).
      lia. }
    assert (Hnext : (i + 1) * chunkSize = i * chunkSize + chunkSize) by ring.
    rewrite IH; cbn [test_file position fs_calls output]; try lia.
    + rewrite Nat.add_succ_r. reflexivity.
    + f_equal. lia.
Qed.

Lemma write_file_ok size chunkSize w :
  0 <= size ->
  0 < chunkSize ->
  write_file faults size chunkSize w
  = Done tt {| test_file := Some size; position := size;
               fs_calls := (fs_calls w
                            + (Z.to_nat (ceil_div size chunkSize) + 2))%nat;
               output := output w |}.
Proof.
  intros Hs Hc. unfold write_file, io_bind, openSync_w, closeSync.
  rewrite fs_call_ok.
  pose proof (ceil_div_bounds size Hc) as Hb.
  assert (Hn : 0 <= ceil_div size chunkSize).
  { destruct (Z.lt_ge_cases (ceil_div size chunkSize) 0) as [Hneg|]; [|lia].
    assert (ceil_div size chunkSize * chunkSize <= 0)
      by (apply Z.mul_nonpos_nonneg; lia).
    assert (ceil_div size chunkSize * chunkSize < 0 * chunkSize)
      by (apply Z.mul_lt_mono_pos_r; lia).
    lia. }
  rewrite (@write_loop_ok size chunkSize); cbn [test_file position fs_calls output];
    try lia.
  - rewrite fs_call_ok. cbn [test_file position fs_calls output].
    f_equal. f_equal. lia.
  - f_equal. lia.
Qed.

Lemma createRealFile_ok w :
  createRealFile faults w
  = Done true {| test_file := Some SIZE_BYTES; position := SIZE_BYTES;
                 fs_calls := (fs_calls w + 162)%nat;
                 output := RealCreated :: output w |}.
Proof.
  unfold createRealFile, try_catch, io_bind.
  rewrite write_file_ok by (cbv; congruence). reflexivity.
Qed.

Lemma createRandomDataFile_ok w :
  createRandomDataFile faults w
  = Done true {| test_file := Some SIZE_BYTES; position := SIZE_BYTES;
                 fs_calls := (fs_calls w + 642)%nat;
                 output := RandomCreated :: output w |}.
Proof.
  unfold createRandomDataFile, try_catch, io_bind.
  rewrite write_file_ok by (cbv; congruence). reflexivity.
Qed.

Lemma createSparseFile_ok w :
  createSparseFile faults w
  = Done true {| test_file := Some SIZE_BYTES; position := 0;
                 fs_calls := (fs_calls w + 3)%nat;
                 output := SparseCreated :: output w |}.
Proof.
  unfold createSparseFile, try_catch, io_bind, openSync_w, writeSync_at,
    closeSync.
  repeat (rewrite fs_call_ok; cbn [test_file position fs_calls output]).
  unfold print, io_ret. cbn [test_file position fs_calls output].
  change (Z.max 0 (SIZE_BYTES - 1 + 1)) with SIZE_BYTES.
  replace (fs_calls w + 3)%nat with (S (S (S (fs_calls w)))) by lia.
  reflexivity.
Qed.

Lemma statSync_ok w :
  statSync faults w
  = match test_file w with
    | Some size =>
        Done size {| test_file := Some size; position := position w;
                     fs_calls := S (fs_calls w); output := output w |}
    | None =>
        Thrown {| test_file := test_file w; position := position w;
                  fs_calls := S (fs_calls w); output := output w |}
    end.
Proof. unfold statSync. rewrite fs_call_ok. destruct (test_file w); reflexivity. Qed.

Lemma unlinkSync_ok w :
  unlinkSync faults w
  = match test_file w with
    | Some size =>
        Done tt {| test_file := None; position := position w;
                   fs_calls := S (fs_calls w); output := output w |}
    | None =>
        Thrown {| test_file := test_file w; position := position w;
                  fs_calls := S (fs_calls w); output := output w |}
    end.
Proof.
  unfold unlinkSync. rewrite fs_call_ok. destruct (test_file w); reflexivity.
Qed.

Variable system_command : option Z * option Z.

(** Every method but the two that spawn a system command creates the file
    in full. *)
Lemma create_by_ok method w :
  method <> "system"%string ->
  method <> "system-real"%string ->
  exists p n m,
    create_by faults system_command method w
    = Done true {| test_file := Some SIZE_BYTES; position := p;
                   fs_calls := n; output := m :: output w |}.
Proof.
  intros Hs Hr. unfold create_by.
  apply String.eqb_neq in Hs, Hr. rewrite Hs, Hr.
  destruct (String.eqb method "sparse" || String.eqb method "node").
  { rewrite createSparseFile_ok. eauto. }
  destruct (String.eqb method "real" || String.eqb method "full").
  { rewrite createRealFile_ok. eauto. }
  destruct (String.eqb method "random").
  { rewrite createRandomDataFile_ok. eauto. }
  unfold io_bind. rewrite createSparseFile_ok. unfold io_ret. eauto.
Qed.

Lemma create_main_ok argv w :
  argument_or argv "auto" <> "system"%string ->
  argument_or argv "auto" <> "system-real"%string ->
  (test_file w = Some SIZE_BYTES /\ includes argv "--force" = false
   /\ create_main faults system_command argv w
      = Done RunsOut {| test_file := Some SIZE_BYTES; position := position w;
                        fs_calls := S (fs_calls w);
                        output := AlreadyExists SIZE_BYTES :: output w |})
  \/ ((test_file w <> Some SIZE_BYTES \/ includes argv "--force" = true)
      /\ exists p n out,
           create_main faults system_command argv w
           = Done RunsOut {| test_file := Some SIZE_BYTES; position := p;
                             fs_calls := n;
                             output := CreatedSuccessfully SIZE_BYTES false
                                       :: out |}).
Proof.
  intros Hs Hr. unfold create_main. io_simpl.
  destruct (test_file w) as [size|] eqn:Hfile.
  - rewrite statSync_ok, Hfile. io_simpl.
    destruct ((size =? SIZE_BYTES) && negb (includes argv "--force")) eqn:Hkeep.
    + apply andb_prop in Hkeep. destruct Hkeep as [Hsz Hforce].
      apply Z.eqb_eq in Hsz. subst size.
      apply negb_true_iff in Hforce.
      left. io_simpl. auto.
    + right. split.
      { apply andb_false_iff in Hkeep. destruct Hkeep as [Hsz | Hforce].
        - left. apply Z.eqb_neq in Hsz. congruence.
        - right. apply negb_false_iff, Hforce. }
      rewrite unlinkSync_ok. io_simpl.
      match goal with |- context [create_by _ _ _ ?w0] =>
        destruct (@create_by_ok (argument_or argv "auto") w0 Hs Hr)
          as (p & n & m & ->) end.
      rewrite statSync_ok. io_simpl.
      rewrite Z.eqb_refl. io_simpl. eauto.
  - right. split; [left; discriminate|].
    io_simpl.
    destruct (@create_by_ok (argument_or argv "auto") w Hs Hr)
      as (p & n & m & ->).
    rewrite statSync_ok. io_simpl.
    rewrite Z.eqb_refl. io_simpl. eauto.
Qed.
End Scripts.

(** X10.  When no file-system call throws, each of the three creation
    functions of create-testfile.js returns [true] and leaves a file of
    exactly [SIZE_BYTES] (10 GiB): [createSparseFile] with one byte written
    at the last position, [createRealFile] after 160 writes of 64 MiB and
    [createRandomDataFile] after 640 writes of 16 MiB.  The write loop they
    share writes exactly [size] bytes for every size and every positive
    chunk size, in [ceil(size / chunkSize)] calls, the last one taking the
    remainder. *)
Theorem created_file_has_the_full_size faults w :
  (forall k, faults k = false) ->
  createSparseFile faults w
  = Done true {| test_file := Some SIZE_BYTES; position := 0;
                 fs_calls := (fs_calls w + 3)%nat;
                 output := SparseCreated :: output w |}
  /\ createRealFile faults w
     = Done true {| test_file := Some SIZE_BYTES; position := SIZE_BYTES;
                    fs_calls := (fs_calls w + (160 + 2))%nat;
                    output := RealCreated :: output w |}
  /\ createRandomDataFile faults w
     = Done true {| test_file := Some SIZE_BYTES; position := SIZE_BYTES;
                    fs_calls := (fs_calls w + (640 + 2))%nat;
                    output := RandomCreated :: output w |}
  /\ (forall size chunkSize,
        0 <= size ->
        0 < chunkSize ->
        write_file faults size chunkSize w
        = Done tt {| test_file := Some size; position := size;
                     fs_calls := (fs_calls w
                                  + (Z.to_nat (ceil_div size chunkSize) + 2))%nat;
                     output := output w |}).
Proof.
  intros Hok. split; [apply createSparseFile_ok, Hok|].
  split; [apply createRealFile_ok, Hok|].
  split; [apply createRandomDataFile_ok, Hok|].
  intros size chunkSize. apply write_file_ok, Hok.
Qed.

Lemma created_file_has_the_full_size_witness :
  createRealFile no_faults empty_disk
  = Done true {| test_file := Some SIZE_BYTES; position := SIZE_BYTES;
                 fs_calls := 162; output := [RealCreated] |}.
Proof.
  exact (proj1 (proj2 (@created_file_has_the_full_size no_faults empty_disk
                         (fun _ => eq_refl)))).
Defined.

(** X11.  create-testfile.js, for every method that does not spawn a
    system command (so also for an unknown method, which is treated as
    [auto]) and when no file-system call throws: whatever is on the disk
    before, the script ends with exit code 0 and leaves the test file with
    exactly [SIZE_BYTES].  A file of that size is left untouched unless
    [--force] is given (one [statSync], no write, no unlink), so a second
    run does nothing; a file of another size, or any file under [--force],
    is removed and created anew, and the final check prints no size
    warning. *)
Theorem create_main_makes_or_keeps_the_file faults system_command argv w :
  (forall k, faults k = false) ->
  argument_or argv "auto" <> "system"%string ->
  argument_or argv "auto" <> "system-real"%string ->
  let result := exit_code (create_main faults system_command argv) w in
  fst result = 0
  /\ test_file (snd result) = Some SIZE_BYTES
  /\ (test_file w = Some SIZE_BYTES ->
      includes argv "--force" = false ->
      snd result = {| test_file := Some SIZE_BYTES; position := position w;
                      fs_calls := S (fs_calls w);
                      output := AlreadyExists SIZE_BYTES :: output w |})
  /\ (test_file w <> Some SIZE_BYTES \/ includes argv "--force" = true ->
      exists out,
        output (snd result) = CreatedSuccessfully SIZE_BYTES false :: out).
Proof.
  intros Hok Hs Hr result. subst result. unfold exit_code.
  destruct (@create_main_ok faults Hok system_command argv w Hs Hr)
    as [(Hfile & Hforce & ->) | (Hnew & p & n & out & ->)];
    cbn [fst snd test_file output].
  - repeat split; try reflexivity.
    intros [Hne | Hf]; [contradiction | congruence].
  - repeat split; try reflexivity.
    + intros Hfile Hforce. destruct Hnew as [Hne | Hf];
        [contradiction | congruence].
    + intros _. exists out. reflexivity.
Qed.

Lemma create_main_makes_or_keeps_the_file_witness :
  let argv := ["node"; "create-testfile.js"; "real"]%string in
  let result :=
    exit_code (create_main no_faults (None, None) argv) empty_disk in
  fst result = 0 /\ test_file (snd result) = Some SIZE_BYTES.
Proof.
  intros argv result.
  destruct (@create_main_makes_or_keeps_the_file no_faults (None, None) argv
              empty_disk (fun _ => eq_refl))
    as (Hcode & Hfile & _).
  - cbv. discriminate.
  - cbv. discriminate.
  - split; [exact Hcode | exact Hfile].
Defined.

(** X12.  clean.js, whatever the file system does: [cleanTestFile] ends
    with exit code 0 only when the test file does not exist afterwards,
    and otherwise with exit code 1, the file being as it was and the
    failure reported; when no call throws it ends with exit code 0, and
    when there is no file it makes no call that could throw. *)
Theorem clean_exits_zero_only_without_the_file faults w :
  let result := exit_code (cleanTestFile faults) w in
  ((fst result = 0 /\ test_file (snd result) = None)
   \/ (fst result = 1 /\ test_file (snd result) = test_file w
       /\ output (snd result) = FailedToRemove :: output w))
  /\ (faults (fs_calls w) = false -> faults (S (fs_calls w)) = false ->
      fst result = 0)
  /\ (test_file w = None ->
      result = (0, {| test_file := None; position := position w;
                      fs_calls := fs_calls w;
                      output := NoCleanupNeeded :: output w |})).
Proof.
  intros result. subst result.
  unfold exit_code, cleanTestFile, statSync, unlinkSync, fs_call. io_simpl.
  destruct (test_file w) as [size|] eqn:Hfile.
  - destruct (faults (fs_calls w)) eqn:F1;
      cbn [fst snd test_file output fs_calls].
    { split; [right; auto|]. split; [discriminate | discriminate]. }
    rewrite Hfile. cbn [fst snd test_file output fs_calls].
    destruct (faults (S (fs_calls w))) eqn:F2;
      cbn [fst snd test_file output fs_calls].
    { split; [right; auto|]. split; [discriminate | discriminate]. }
    split; [left; auto|]. split; [reflexivity | discriminate].
  - cbn [fst snd test_file output]. rewrite Hfile.
    split; [left; auto|]. split; reflexivity.
Qed.
(** ** benchmark.js *)

Lemma quiet_ret (A : Type) (v : A) : quiet (io_ret v).
Proof. intros w. reflexivity. Qed.

Lemma quiet_bind (A B : Type) (c : io A) (k : A -> io B) :
  quiet c -> (forall v, quiet (k v)) -> quiet (io_bind c k).
Proof.
  intros Hc Hk w. specialize (Hc w). unfold final, io_bind in *.
  destruct (c w) as [v w' | w']; [|exact Hc].
  rewrite <- Hc. apply (Hk v w').
Qed.

Lemma quiet_try (A : Type) (c h : io A) :
  quiet c -> quiet h -> quiet (try_catch c h).
Proof.
  intros Hc Hh w. specialize (Hc w). unfold final, try_catch in *.
  destruct (c w) as [v w' | w']; [exact Hc|].
  rewrite <- Hc. apply (Hh w').
Qed.

Lemma quiet_print m : is_spawn m = false -> quiet (print m).
Proof.
  intros Hm w. unfold final, print, children. cbn [output flat_map].
  destruct m; try discriminate; reflexivity.
Qed.

Lemma quiet_fs_call faults (A : Type) (work : world -> option (A * option Z * Z)) :
  quiet (fs_call faults work).
Proof.
  intros w. unfold final, fs_call.
  destruct (faults (fs_calls w)); [reflexivity|].
  destruct (work w) as [[[v f] p]|]; reflexivity.
Qed.

Lemma quiet_existsSync : quiet existsSync.
Proof. intros w. reflexivity. Qed.

Lemma quiet_if (A : Type) (b : bool) (c d : io A) :
  quiet c -> quiet d -> quiet (if b then c else d).
Proof. destruct b; auto. Qed.

Create HintDb quiet.
#[local] Hint Resolve quiet_ret quiet_bind quiet_try quiet_fs_call
  quiet_existsSync quiet_if : quiet.
#[local] Hint Extern 1 (quiet (print _)) =>
  apply quiet_print; reflexivity : quiet.

Lemma quiet_write_loop faults size chunkSize todo :
  forall i, quiet (write_loop faults size chunkSize todo i).
Proof.
  induction todo as [|todo IH]; intros i; cbn [write_loop].
  - apply quiet_ret.
  - apply quiet_bind; [apply quiet_fs_call | intros _; apply IH].
Qed.

Ltac quiet_steps :=
  repeat first [ solve [auto with quiet]
               | apply quiet_bind; [|intros ?]
               | apply quiet_try
               | apply quiet_if ].

Lemma quiet_statSync faults : quiet (statSync faults).
Proof. apply quiet_fs_call. Qed.

Lemma quiet_unlinkSync faults : quiet (unlinkSync faults).
Proof. apply quiet_fs_call. Qed.

Lemma quiet_openSync_w faults : quiet (openSync_w faults).
Proof. apply quiet_fs_call. Qed.

Lemma quiet_writeSync_at faults length pos :
  quiet (writeSync_at faults length pos).
Proof. apply quiet_fs_call. Qed.

Lemma quiet_closeSync faults : quiet (closeSync faults).
Proof. apply quiet_fs_call. Qed.

#[local] Hint Resolve quiet_statSync quiet_unlinkSync quiet_openSync_w
  quiet_writeSync_at quiet_closeSync quiet_write_loop : quiet.

Lemma quiet_write_file faults size chunkSize :
  quiet (write_file faults size chunkSize).
Proof. unfold write_file. quiet_steps. Qed.

Lemma quiet_createWithSystemCommand sys forceReal :
  quiet (createWithSystemCommand sys forceReal).
Proof.
  intros w. unfold final, createWithSystemCommand.
  destruct (fst sys) as [code|]; [destruct (code =? 0)|]; reflexivity.
Qed.

#[local] Hint Resolve quiet_write_file quiet_createWithSystemCommand : quiet.

Lemma quiet_createSparseFile faults : quiet (createSparseFile faults).
Proof. unfold createSparseFile. quiet_steps. Qed.

Lemma quiet_createRealFile faults : quiet (createRealFile faults).
Proof. unfold createRealFile. quiet_steps. Qed.

Lemma quiet_createRandomDataFile faults : quiet (createRandomDataFile faults).
Proof. unfold createRandomDataFile. quiet_steps. Qed.

#[local] Hint Resolve quiet_createSparseFile quiet_createRealFile
  quiet_createRandomDataFile : quiet.

Lemma quiet_create_testfile_js faults sys argv :
  quiet (create_testfile_js faults sys argv).
Proof.
  unfold create_testfile_js, showHelp, create_main, create_by.
  apply quiet_if; [intros w; reflexivity|].
  quiet_steps.
Qed.

Lemma quiet_cleanTestFile faults : quiet (cleanTestFile faults).
Proof. unfold cleanTestFile. quiet_steps. Qed.
Lemma children_cons m out :
  children (m :: out)
  = children out ++ match m with
                    | Child script _ code => [(script, code)]
                    | _ => []
                    end.
Proof.
  unfold children. cbn [flat_map]. rewrite rev_app_distr.
  destruct m; cbn [rev app]; rewrite ?app_nil_r; reflexivity.
Qed.

Lemma exit_code_final (c : io ending) w : snd (exit_code c w) = final c w.
Proof.
  unfold exit_code, final. destruct (c w) as [[|code] w' | w']; reflexivity.
Qed.

(** A child is logged when it has ended, and [runCommand] resolves exactly
    when it has ended with code 0. *)
Lemma runCommand_cases faults sys other script args w :
  exists w' code,
    ((runCommand faults sys other script args w = Done tt w'
      /\ code = Some 0)
     \/ (runCommand faults sys other script args w = Thrown w'
         /\ code <> Some 0))
    /\ children (output w') = children (output w) ++ [(script, code)].
Proof.
  unfold runCommand.
  assert (Hend : forall (code : option Z) w1,
             children (output w1) = children (output w) ->
             exists w' code',
               ((match code with
                 | Some c =>
                     if c =? 0
                     then Done tt
                            {| test_file := test_file w1;
                               position := position w1;
                               fs_calls := fs_calls w1;
                               output := Child script args code :: output w1 |}
                     else Thrown
                            {| test_file := test_file w1;
                               position := position w1;
                               fs_calls := fs_calls w1;
                               output := Child script args code :: output w1 |}
                 | None =>
                     Thrown
                       {| test_file := test_file w1;
                          position := position w1;
                          fs_calls := fs_calls w1;
                          output := Child script args code :: output w1 |}
                 end = Done tt w' /\ code' = Some 0)
                \/ (match code with
                    | Some c =>
                        if c =? 0
                        then Done tt
                               {| test_file := test_file w1;
                                  position := position w1;
                                  fs_calls := fs_calls w1;
                                  output := Child script args code
                                            :: output w1 |}
                        else Thrown
                               {| test_file := test_file w1;
                                  position := position w1;
                                  fs_calls := fs_calls w1;
                                  output := Child script args code
                                            :: output w1 |}
                    | None =>
                        Thrown
                          {| test_file := test_file w1;
                             position := position w1;
                             fs_calls := fs_calls w1;
                             output := Child script args code :: output w1 |}
                    end = Thrown w' /\ code' <> Some 0))
               /\ children (output w') = children (output w) ++ [(script, code')]).
  { intros code w1 Hq.
    exists {| test_file := test_file w1; position := position w1;
              fs_calls := fs_calls w1;
              output := Child script args code :: output w1 |}, code.
    cbn [output]. rewrite children_cons, Hq. split; [|reflexivity].
    destruct code as [c|].
    - destruct (c =? 0) eqn:E.
      + apply Z.eqb_eq in E. subst c. left. auto.
      + apply Z.eqb_neq in E. right. split; [reflexivity|]. congruence.
    - right. split; [reflexivity | discriminate]. }
  destruct (String.eqb script "create-testfile.js").
  - pose proof (quiet_create_testfile_js faults sys
                  ("node"%string :: script :: args) w) as Hq.
    rewrite <- exit_code_final in Hq.
    destruct (exit_code _ w) as [code w1]. cbn [snd] in Hq.
    apply (Hend (Some code) w1 Hq).
  - destruct (String.eqb script "clean.js").
    + pose proof (quiet_cleanTestFile faults w) as Hq.
      rewrite <- exit_code_final in Hq.
      destruct (exit_code _ w) as [code w1]. cbn [snd] in Hq.
      apply (Hend (Some code) w1 Hq).
    + apply (Hend (other script) w eq_refl).
Qed.

Ltac run_step :=
  match goal with
  | |- context [runCommand ?f ?s ?o ?script ?args ?w] =>
      let w' := fresh "w" in
      let code := fresh "code" in
      let Hc := fresh "Hc" in
      let Hs := fresh "Hs" in
      destruct (runCommand_cases f s o script args w)
        as (w' & code & [[-> Hc] | [-> Hc]] & Hs);
      [subst code|];
      cbn [test_file position fs_calls output] in *
  end.

Ltac child_log :=
  repeat first
    [ progress (rewrite ?children_cons in *; cbn [app] in *;
                rewrite ?app_nil_r in *)
    | match goal with
      | Hs : children (output ?w) = _ |- context [children (output ?w)] =>
          rewrite Hs
      end ];
  rewrite <- ?app_assoc; cbn [app].

Ltac failed_last :=
  match goal with
  | |- exists front script code, ?l = _ /\ _ =>
      exists (removelast l), (fst (last l (EmptyString, None))),
        (snd (last l (EmptyString, None)));
      cbn [removelast last fst snd app map repeat List.length];
      split; [reflexivity|]; split; [reflexivity | assumption]
  end.

Ltac plan_facts :=
  cbn [removelast last app];
  split; [rewrite ?app_nil_r; reflexivity|];
  split; [reflexivity|];
  split;
  [ first [ left; split; [reflexivity|]; split; reflexivity
          | right; split; [reflexivity|];
            split; [failed_last|];
            first [ left; reflexivity
                  | right; split; [reflexivity|]; eexists; reflexivity ] ]
  | first [ discriminate | intros _; reflexivity ] ].

Ltac finish_plan :=
  match goal with
  | |- exists ran cleanup, _ ++ ?L = _ /\ _ =>
      first [ solve [exists L, (@nil (string * option Z)); plan_facts]
            | solve [exists (removelast L), [last L (EmptyString, None)];
                     plan_facts] ]
  end.

(** X13.  benchmark.js, whatever the file system and the spawned scripts
    do.  The children [runBenchmark] has spawned are, in order, the first
    scripts of its plan (create-testfile.js, info.js, then index.js or
    quick-test.js, then clean.js unless [--keep-file] is given), each
    spawned only after all earlier ones have ended with code 0.  It ends
    with exit code 0 exactly when the whole plan has run and every script
    has ended with code 0.  Otherwise it ends with exit code 1: the last
    script of the plan that it spawned is the first one that did not end
    with code 0, nothing of the plan is spawned after it, and at most one
    more clean.js is spawned, for the clean-up and only without
    [--keep-file].  With [--keep-file] it never spawns clean.js. *)
Theorem benchmark_spawns_its_plan_in_order faults sys other index_js argv w :
  let keepFile := includes argv "--keep-file" in
  let plan := benchmark_plan (argument_or argv "basic") index_js keepFile in
  let result := exit_code (runBenchmark faults sys other index_js argv) w in
  exists ran cleanup,
    children (output (snd result)) = children (output w) ++ ran ++ cleanup
    /\ map fst ran = firstn (List.length ran) plan
    /\ ((fst result = 0
         /\ map snd ran = repeat (Some 0) (List.length plan)
         /\ cleanup = [])
        \/ (fst result = 1
            /\ (exists front script code,
                  ran = front ++ [(script, code)]
                  /\ map snd front = repeat (Some 0) (List.length front)
                  /\ code <> Some 0)
            /\ (cleanup = []
                \/ (keepFile = false
                    /\ exists code, cleanup = [("clean.js"%string, code)]))))
    /\ (keepFile = true ->
        existsb (String.eqb "clean.js") (map fst (ran ++ cleanup)) = false).
Proof.
  intros keepFile plan result. subst keepFile plan result.
  unfold runBenchmark, exit_code, benchmark_plan. io_simpl.
  destruct (String.eqb (argument_or argv "basic") "full") eqn:Hfull;
    destruct index_js;
    destruct (includes argv "--keep-file") eqn:Hkeep;
    cbn [negb andb];
    repeat (run_step; cbn [negb andb]);
    repeat match goal with
           | |- context [match test_file ?w0 with _ => _ end] =>
               destruct (test_file w0); cbn [negb andb];
               repeat (run_step; cbn [negb andb])
           end.
  all: cbn [fst snd output]; child_log.
  all: finish_plan.
Qed.

Section Benchmark.

Variable faults : nat -> bool.
Hypothesis all_ok : forall k, faults k = false.
Variable sys : option Z * option Z.
Variable other : string -> option Z.

Lemma run_create_ok w :
  exists w',
    runCommand faults sys other "create-testfile.js" ["random"%string] w
    = Done tt w'
    /\ test_file w' = Some SIZE_BYTES.
Proof.
  unfold runCommand.
  change (String.eqb "create-testfile.js" "create-testfile.js") with true.
  cbv iota. unfold create_testfile_js.
  change (includes ["node"; "create-testfile.js"; "random"]%string "--help")
    with false.
  cbv iota. unfold exit_code.
  destruct (@create_main_ok faults all_ok sys
              ["node"; "create-testfile.js"; "random"]%string w)
    as [(_ & _ & ->) | (_ & p & n & out & ->)];
    try (cbv; discriminate);
    cbn [test_file]; change (0 =? 0) with true; cbv iota; eauto.
Qed.

Lemma run_clean_ok w size :
  test_file w = Some size ->
  exists w',
    runCommand faults sys other "clean.js" [] w = Done tt w'
    /\ test_file w' = None.
Proof.
  intros Hfile. unfold runCommand.
  change (String.eqb "clean.js" "create-testfile.js") with false.
  change (String.eqb "clean.js" "clean.js") with true. cbv iota.
  unfold exit_code, cleanTestFile. io_simpl. rewrite ?Hfile.
  rewrite statSync_ok by exact all_ok.
  cbn [test_file position fs_calls output]. rewrite ?Hfile.
  rewrite unlinkSync_ok by exact all_ok.
  cbn [test_file position fs_calls output]. rewrite ?Hfile.
  change (0 =? 0) with true. cbv iota. eauto.
Qed.

Lemma run_other script args w :
  String.eqb script "create-testfile.js" = false ->
  String.eqb script "clean.js" = false ->
  let w0 := {| test_file := test_file w; position := position w;
               fs_calls := fs_calls w;
               output := Child script args (other script) :: output w |} in
  runCommand faults sys other script args w
  = if exited_with_zero (other script) then Done tt w0 else Thrown w0.
Proof.
  intros H1 H2 w0. unfold runCommand. rewrite H1, H2.
  unfold exited_with_zero. destruct (other script) as [code|]; [|reflexivity].
  destruct (code =? 0); reflexivity.
Qed.

End Benchmark.

Ltac run_known all_ok :=
  match goal with
  | |- context [runCommand ?f ?s ?o "create-testfile.js" ?args ?w] =>
      let w' := fresh "w" in
      let Hf := fresh "Hf" in
      destruct (@run_create_ok f all_ok s o w) as (w' & -> & Hf)
  | |- context [runCommand ?f ?s ?o "clean.js" ?args ?w] =>
      let w' := fresh "w" in
      let Hf := fresh "Hf" in
      let Hfile := fresh "Hfile" in
      assert (Hfile : test_file w = Some SIZE_BYTES)
        by (cbn [test_file]; first [reflexivity | assumption]);
      destruct (@run_clean_ok f all_ok s o w _ Hfile) as (w' & -> & Hf)
  | |- context [runCommand ?f ?s ?o ?script ?args ?w] =>
      rewrite (@run_other f s o script args w eq_refl eq_refl)
  end;
  cbn [test_file position fs_calls output negb andb] in *.

(** X14.  benchmark.js when no file-system call throws, whatever the
    scripts of the environment (info.js, quick-test.js, index.js) do and
    whatever is on the disk before: after [runBenchmark] the test file
    exists, with exactly [SIZE_BYTES], when [--keep-file] is given, and
    does not exist otherwise, also when the benchmark fails; and the exit
    code is 0 when info.js and the test script exit with code 0, and 1
    otherwise. *)
Theorem benchmark_leaves_the_file_only_when_asked
  faults sys other index_js argv w :
  (forall k, faults k = false) ->
  let keepFile := includes argv "--keep-file" in
  let result := exit_code (runBenchmark faults sys other index_js argv) w in
  test_file (snd result) = (if keepFile then Some SIZE_BYTES else None)
  /\ fst result
     = (if others_succeed other (argument_or argv "basic") index_js
        then 0 else 1).
Proof.
  intros all_ok keepFile result. subst keepFile result.
  unfold runBenchmark, exit_code, others_succeed. io_simpl.
  run_known all_ok.
  run_known all_ok.
  destruct (exited_with_zero (other "info.js"%string)); cbn [andb];
    [destruct (String.eqb (argument_or argv "basic") "full");
     [destruct index_js; [run_known all_ok|]|run_known all_ok]|];
    repeat match goal with
           | |- context [exited_with_zero ?c] => destruct (exited_with_zero c)
           end;
    destruct (includes argv "--keep-file"); cbn [negb andb];
    repeat first [ progress (rewrite ?Hf; cbn [negb andb test_file])
                 | run_known all_ok ];
    cbn [fst snd test_file]; auto.
Qed.

Lemma benchmark_leaves_the_file_only_when_asked_witness :
  let result :=
    exit_code (runBenchmark no_faults (None, None) (fun _ => Some 0) false
                            ["node"; "benchmark.js"]%string)
              empty_disk in
  test_file (snd result) = None /\ fst result = 0.
Proof.
  exact (@benchmark_leaves_the_file_only_when_asked no_faults (None, None)
           (fun _ => Some 0) false ["node"; "benchmark.js"]%string empty_disk
           (fun _ => eq_refl)).
Defined.
(** ** When the file system fails *)

Lemma no_fault_first faults from count :
  faults from = false ->
  no_fault faults (S from) count ->
  no_fault faults from (S count).
Proof.
  intros H0 Hrest [|k] Hk.
  - rewrite Nat.add_0_r. exact H0.
  - rewrite Nat.add_succ_r. apply (Hrest k). lia.
Qed.

Lemma some_fault_now faults from count :
  faults from = true -> some_fault faults from (S count).
Proof. intros H0. exists 0%nat. rewrite Nat.add_0_r. split; [lia | exact H0]. Qed.

Lemma some_fault_later faults from count :
  some_fault faults (S from) count -> some_fault faults from (S count).
Proof.
  intros (k & Hk & Hf). exists (S k). rewrite Nat.add_succ_r.
  split; [lia | exact Hf].
Qed.

Lemma no_fault_none faults from : no_fault faults from 0.
Proof. intros k Hk. lia. Qed.

Lemma faults_exclusive faults from count :
  no_fault faults from count -> some_fault faults from count -> False.
Proof. intros Hn (k & Hk & Hf). rewrite (Hn k Hk) in Hf. discriminate. Qed.

Lemma no_fault_more faults from a b :
  no_fault faults from a -> no_fault faults (from + a) b ->
  no_fault faults from (a + b).
Proof.
  intros Ha Hb k Hk. destruct (Nat.lt_ge_cases k a) as [Hlt | Hge].
  - apply Ha, Hlt.
  - replace (from + k)%nat with (from + a + (k - a))%nat by lia.
    apply Hb. lia.
Qed.

Lemma some_fault_early faults from a b :
  some_fault faults from a -> some_fault faults from (a + b).
Proof. intros (k & Hk & Hf). exists k. split; [lia | exact Hf]. Qed.

Lemma some_fault_after faults from a b :
  some_fault faults (from + a) b -> some_fault faults from (a + b).
Proof.
  intros (k & Hk & Hf). exists (a + k)%nat.
  rewrite Nat.add_assoc. split; [lia | exact Hf].
Qed.

Lemma fs_call_fault faults (A : Type)
  (work : world -> option (A * option Z * Z)) w :
  faults (fs_calls w) = true ->
  fs_call faults work w
  = Thrown {| test_file := test_file w; position := position w;
              fs_calls := S (fs_calls w); output := output w |}.
Proof. intros F. unfold fs_call. rewrite F. reflexivity. Qed.

Lemma fs_call_clean faults (A : Type)
  (work : world -> option (A * option Z * Z)) w :
  faults (fs_calls w) = false ->
  fs_call faults work w
  = match work w with
    | Some (v, file, pos) =>
        Done v {| test_file := file; position := pos;
                  fs_calls := S (fs_calls w); output := output w |}
    | None =>
        Thrown {| test_file := test_file w; position := position w;
                  fs_calls := S (fs_calls w); output := output w |}
    end.
Proof. intros F. unfold fs_call. rewrite F. reflexivity. Qed.

(** The write loop ends well exactly when none of its writes throws. *)
Lemma write_loop_cases faults size chunkSize todo : forall i w,
  0 < chunkSize ->
  0 <= i ->
  i + Z.of_nat todo = ceil_div size chunkSize ->
  test_file w = Some (Z.min (i * chunkSize) size) ->
  position w = Z.min (i * chunkSize) size ->
  (no_fault faults (fs_calls w) todo
   /\ write_loop faults size chunkSize todo i w
      = Done tt {| test_file := Some size; position := size;
                   fs_calls := (fs_calls w + todo)%nat; output := output w |})
  \/ (some_fault faults (fs_calls w) todo
      /\ exists w', write_loop faults size chunkSize todo i w = Thrown w').
Proof.
  induction todo as [|todo IH]; intros i w Hc Hi Htot Hfile Hpos.
  - left. split; [apply no_fault_none|].
    pose proof (ceil_div_bounds size Hc) as Hb.
    cbn [write_loop]. unfold io_ret. destruct w as [f p n o].
    cbn [test_file position fs_calls output] in *.
    assert (Hmin : Z.min (i * chunkSize) size = size).
    { replace i with (ceil_div size chunkSize) by lia. apply Z.min_r. apply Hb. }
    rewrite Hmin in *. rewrite Nat.add_0_r. subst f p. reflexivity.
  - pose proof (ceil_div_bounds size Hc) as Hb.
    cbn [write_loop]. unfold io_bind, writeSync, fs_call.
    destruct (faults (fs_calls w)) eqn:F.
    { right. split; [apply some_fault_now, F | eauto]. }
    rewrite Hfile, Hpos.
    assert (Hlt : i * chunkSize < size).
    { assert (i * chunkSize <= (ceil_div size chunkSize - 1) * chunkSize)
        by (apply Z.mul_le_mono_nonneg_r; lia).
      lia. }
    assert (Hnext : (i + 1) * chunkSize = i * chunkSize + chunkSize) by ring.
    match goal with |- context [write_loop _ _ _ _ _ ?w1] =>
      destruct (IH (i + 1) w1) as [(Hn & ->) | (Hs & w' & ->)] end;
      cbn [test_file position fs_calls output] in *; try lia;
      try (f_equal; lia).
    + left. split; [apply no_fault_first; assumption|].
      rewrite Nat.add_succ_r. reflexivity.
    + right. split; [apply some_fault_later, Hs | eauto].
Qed.

Lemma write_file_cases faults size chunkSize w :
  0 <= size ->
  0 < chunkSize ->
  let calls := (Z.to_nat (ceil_div size chunkSize) + 2)%nat in
  (no_fault faults (fs_calls w) calls
   /\ write_file faults size chunkSize w
      = Done tt {| test_file := Some size; position := size;
                   fs_calls := (fs_calls w + calls)%nat;
                   output := output w |})
  \/ (some_fault faults (fs_calls w) calls
      /\ exists w', write_file faults size chunkSize w = Thrown w').
Proof.
  intros Hs Hc calls. subst calls.
  replace (Z.to_nat (ceil_div size chunkSize) + 2)%nat
    with (S (Z.to_nat (ceil_div size chunkSize) + 1)) by lia.
  unfold write_file, io_bind, openSync_w, closeSync.
  destruct (faults (fs_calls w)) eqn:F.
  { right. split; [apply some_fault_now, F|].
    rewrite fs_call_fault by exact F. eauto. }
  rewrite fs_call_clean by exact F.
  pose proof (ceil_div_bounds size Hc) as Hb.
  assert (Hn : 0 <= ceil_div size chunkSize).
  { destruct (Z.lt_ge_cases (ceil_div size chunkSize) 0) as [Hneg|]; [|lia].
    assert (ceil_div size chunkSize * chunkSize < 0 * chunkSize)
      by (apply Z.mul_lt_mono_pos_r; lia).
    lia. }
  match goal with |- context [write_loop _ _ _ _ _ ?w1] =>
    destruct (@write_loop_cases faults size chunkSize
                (Z.to_nat (ceil_div size chunkSize)) 0 w1)
      as [(Hclean & ->) | (Hf & w' & ->)] end;
    cbn [test_file position fs_calls output] in *; try lia;
    try (f_equal; lia).
  - destruct (faults (S (fs_calls w) + Z.to_nat (ceil_div size chunkSize))%nat)
      eqn:F2.
    + right. split.
      * apply some_fault_later, some_fault_after, some_fault_now. exact F2.
      * rewrite fs_call_fault by exact F2. eauto.
    + rewrite fs_call_clean by exact F2.
      cbn [test_file position fs_calls output].
      left. split.
      * apply no_fault_first; [exact F|]. apply no_fault_more; [exact Hclean|].
        apply no_fault_first; [exact F2 | apply no_fault_none].
      * f_equal. f_equal. lia.
  - right. split; [|eauto]. apply some_fault_later, some_fault_early, Hf.
Qed.

Lemma createSparseFile_cases faults w :
  (no_fault faults (fs_calls w) 3
   /\ exists w1,
        createSparseFile faults w = Done true w1
        /\ test_file w1 = Some SIZE_BYTES
        /\ fs_calls w1 = (fs_calls w + 3)%nat)
  \/ (some_fault faults (fs_calls w) 3
      /\ exists w1, createSparseFile faults w = Done false w1).
Proof.
  unfold createSparseFile, try_catch, io_bind, openSync_w, writeSync_at,
    closeSync.
  destruct (faults (fs_calls w)) eqn:F0.
  { right. split; [apply some_fault_now, F0|].
    rewrite fs_call_fault by exact F0. unfold print, io_ret. eauto. }
  rewrite fs_call_clean by exact F0. cbn [test_file position fs_calls output].
  destruct (faults (S (fs_calls w))) eqn:F1.
  { right. split; [apply some_fault_later, some_fault_now, F1|].
    rewrite fs_call_fault by exact F1. unfold print, io_ret. eauto. }
  rewrite fs_call_clean by exact F1. cbn [test_file position fs_calls output].
  destruct (faults (S (S (fs_calls w)))) eqn:F2.
  { right. split; [apply some_fault_later, some_fault_later, some_fault_now, F2|].
    rewrite fs_call_fault by exact F2. unfold print, io_ret. eauto. }
  rewrite fs_call_clean by exact F2. cbn [test_file position fs_calls output].
  left. split.
  { repeat (apply no_fault_first; [assumption|]). apply no_fault_none. }
  unfold print, io_ret. cbn [test_file position fs_calls output].
  eexists. split; [reflexivity|]. cbn [test_file fs_calls].
  split; [reflexivity | lia].
Qed.

Lemma createRealFile_cases faults w :
  let calls := (Z.to_nat (ceil_div SIZE_BYTES (64 * 1024 * 1024)) + 2)%nat in
  (no_fault faults (fs_calls w) calls
   /\ exists w1,
        createRealFile faults w = Done true w1
        /\ test_file w1 = Some SIZE_BYTES
        /\ fs_calls w1 = (fs_calls w + calls)%nat)
  \/ (some_fault faults (fs_calls w) calls
      /\ exists w1, createRealFile faults w = Done false w1).
Proof.
  intros calls.
  destruct (@write_file_cases faults SIZE_BYTES (64 * 1024 * 1024) w)
    as [(Hn & Hrun) | (Hf & w' & Hrun)]; try (cbv; congruence);
    unfold createRealFile, try_catch, io_bind, print, io_ret; rewrite Hrun.
  - left. split; [exact Hn|].
    eexists. split; [reflexivity|]. split; reflexivity.
  - right. split; [exact Hf|]. eauto.
Qed.

Lemma createRandomDataFile_cases faults w :
  let calls := (Z.to_nat (ceil_div SIZE_BYTES (16 * 1024 * 1024)) + 2)%nat in
  (no_fault faults (fs_calls w) calls
   /\ exists w1,
        createRandomDataFile faults w = Done true w1
        /\ test_file w1 = Some SIZE_BYTES
        /\ fs_calls w1 = (fs_calls w + calls)%nat)
  \/ (some_fault faults (fs_calls w) calls
      /\ exists w1, createRandomDataFile faults w = Done false w1).
Proof.
  intros calls.
  destruct (@write_file_cases faults SIZE_BYTES (16 * 1024 * 1024) w)
    as [(Hn & Hrun) | (Hf & w' & Hrun)]; try (cbv; congruence);
    unfold createRandomDataFile, try_catch, io_bind, print, io_ret; rewrite Hrun.
  - left. split; [exact Hn|].
    eexists. split; [reflexivity|]. split; reflexivity.
  - right. split; [exact Hf|]. eauto.
Qed.

Lemma create_by_cases faults sys method w :
  writes_itself method = true ->
  (no_fault faults (fs_calls w) (creation_calls method)
   /\ exists w1,
        create_by faults sys method w = Done true w1
        /\ test_file w1 = Some SIZE_BYTES
        /\ fs_calls w1 = (fs_calls w + creation_calls method)%nat)
  \/ (some_fault faults (fs_calls w) (creation_calls method)
      /\ exists w1, create_by faults sys method w = Done false w1).
Proof.
  unfold writes_itself, create_by, creation_calls. intros Hm.
  destruct (String.eqb method "sparse" || String.eqb method "node").
  { apply createSparseFile_cases. }
  cbn [orb] in Hm.
  destruct (String.eqb method "real" || String.eqb method "full").
  { apply createRealFile_cases. }
  cbn [orb] in Hm. rewrite Hm. apply createRandomDataFile_cases.
Qed.

Ltac exit_leaf :=
  let E := fresh "E" in
  intros E; injection E as <- <-; cbn [test_file fs_calls].

Ltac after_create Hm :=
  match goal with
  | |- context [create_by ?f ?s ?m ?w0] =>
      let w1 := fresh "w" in
      let Hn := fresh "Hn" in
      let Hf := fresh "Hf" in
      let Hfile := fresh "Hfile" in
      let Hcalls := fresh "Hcalls" in
      destruct (@create_by_cases f s m w0 Hm)
        as [(Hn & w1 & -> & Hfile & Hcalls) | (Hf & w1 & ->)];
      cbn [fs_calls] in *;
      [ unfold statSync, fs_call;
        destruct (f (fs_calls w1)); [|rewrite Hfile]; exit_leaf; left;
        (split; [reflexivity|]);
        (split; [|first [assumption | reflexivity]])
      | exit_leaf; right; split; [reflexivity|] ]
  end.

Lemma create_main_cases faults sys argv w :
  writes_itself (argument_or argv "auto") = true ->
  let result := exit_code (create_main faults sys argv) w in
  (fst result = 0
   /\ no_fault faults (fs_calls w) (deciding_calls argv w)
   /\ test_file (snd result) = Some SIZE_BYTES)
  \/ (fst result = 1
      /\ some_fault faults (fs_calls w) (deciding_calls argv w)).
Proof.
  intros Hm. cbv zeta. unfold deciding_calls.
  destruct (exit_code (create_main faults sys argv) w) as [code wf] eqn:E.
  cbn [fst snd]. revert E. unfold exit_code, create_main. io_simpl.
  destruct (test_file w) as [size|] eqn:Hfile.
  - unfold statSync at 1. destruct (faults (fs_calls w)) eqn:F0.
    { rewrite fs_call_fault by exact F0. exit_leaf. right.
      split; [reflexivity|].
      destruct ((size =? SIZE_BYTES) && negb (includes argv "--force"));
        apply some_fault_now, F0. }
    rewrite fs_call_clean by exact F0. rewrite Hfile.
    cbn [test_file position fs_calls output].
    destruct ((size =? SIZE_BYTES) && negb (includes argv "--force"))
      eqn:Hkeep; cbn [negb].
    + apply andb_prop in Hkeep. destruct Hkeep as [Hsz _].
      apply Z.eqb_eq in Hsz. subst size. exit_leaf. left.
      split; [reflexivity|]. split; [|reflexivity].
      apply no_fault_first; [exact F0 | apply no_fault_none].
    + unfold unlinkSync. destruct (faults (S (fs_calls w))) eqn:F1.
      { rewrite fs_call_fault by exact F1. exit_leaf. right.
        split; [reflexivity|].
        apply some_fault_later, some_fault_now, F1. }
      rewrite fs_call_clean by exact F1.
      cbn [test_file position fs_calls output]. rewrite ?Hfile.
      cbn [test_file position fs_calls output negb].
      after_create Hm;
        first [ repeat (apply no_fault_first; [assumption|]); assumption
              | repeat apply some_fault_later; assumption ].
  - cbn [negb]. after_create Hm; assumption.
Qed.

(** X15.  create-testfile.js with a method that writes the file itself
    (sparse, node, real, full, random), whichever [fs] calls throw.  The
    exit code is 0 or 1.  It is 0 exactly when none of the calls that
    decide throws: the [statSync] on a file that is kept; [statSync],
    [unlinkSync] and the calls of the creation function (open, the writes,
    close) on a file that is made anew; the calls of the creation function
    alone when there is no file.  So a throw of [statSync] or [unlinkSync]
    on the existing file, which nobody catches, and a throw inside the
    creation function, which returns [false], give exit code 1, while a
    throw of the final [statSync] is caught and changes nothing.  And when
    the exit code is 0 the test file exists with exactly [SIZE_BYTES]. *)
Theorem create_exit_code_can_be_trusted faults sys argv w :
  writes_itself (argument_or argv "auto") = true ->
  let result := exit_code (create_main faults sys argv) w in
  (fst result = 0 \/ fst result = 1)
  /\ (fst result = 0
      <-> no_fault faults (fs_calls w) (deciding_calls argv w))
  /\ (fst result = 1
      <-> some_fault faults (fs_calls w) (deciding_calls argv w))
  /\ (fst result = 0 -> test_file (snd result) = Some SIZE_BYTES).
Proof.
  intros Hm. cbv zeta.
  pose proof (@create_main_cases faults sys argv w Hm) as Hcases.
  cbv zeta in Hcases.
  destruct Hcases as [(H0 & Hn & Hfile) | (H1 & Hf)].
  - split; [left; exact H0|]. split; [tauto|]. split; [|tauto].
    split; [lia|]. intros Hf. destruct (faults_exclusive Hn Hf).
  - split; [right; exact H1|]. split; [|split; [tauto|lia]].
    split; [lia|]. intros Hn. destruct (faults_exclusive Hn Hf).
Qed.

(** No file on the disk, the method sparse, and the fourth [fs] call
    throws: that is the final [statSync], after open, write and close. *)
Lemma create_exit_code_can_be_trusted_witness :
  let argv := ["node"; "create-testfile.js"; "sparse"]%string in
  let result :=
    exit_code (create_main (fun call => Nat.eqb call 3) (None, None) argv)
      empty_disk in
  fst result = 0
  /\ test_file (snd result) = Some SIZE_BYTES
  /\ output (snd result) = [CouldNotVerify; SparseCreated].
Proof.
  intros argv result.
  destruct (@create_exit_code_can_be_trusted (fun call => Nat.eqb call 3)
              (None, None) argv empty_disk eq_refl)
    as (_ & Hzero & _ & Hfile).
  assert (Hcode : fst result = 0).
  { apply Hzero. intros k Hk.
    change (deciding_calls argv empty_disk) with 3%nat in Hk.
    destruct k as [|[|[|k]]]; [reflexivity | reflexivity | reflexivity | lia]. }
  split; [exact Hcode|]. split; [exact (Hfile Hcode) | reflexivity].
Defined.
